(** * Memory-insights tooling: extractor and evaluator

    Shallow embedding of [extract_training_data.py] and [evaluate_model.py].

    Conventions of the embedding.
    - A Python [str] is a list of Unicode code points ([char := N]).
    - The [re] module is embedded as a small backtracking matcher over the
      constructs the two scripts use; every pattern of the source appears
      below as a value of type [regex].
    - [str.lower] is a parameter of the development: no result depends on
      which case mapping it is.
    - The numbers of the evaluator are embedded twice: as exact rationals
      ([Q]) in the module [Evaluator], where rounding plays no part in what
      is stated, and as binary64 floats in the module [Binary64], which has
      the arithmetic of the summary as the interpreter computes it.
    - A Python exception is a value of type [exn] in the result. *)

From Stdlib Require Import String Ascii DecimalString List NArith ZArith QArith Bool Lia.
From Stdlib Require Import Floats.
Import ListNotations.

Set Implicit Arguments.
Open Scope nat_scope.

(* ================================================================== *)
(** * Part I. Definitions                                              *)
(* ================================================================== *)

(** ** Python strings *)

Module PyStr.

Definition char := N.
Definition str := list char.

(** A string literal of the source, character by character. *)
Definition lit (s : string) : str := map N_of_ascii (list_ascii_of_string s).

(** The line feed, written [\n] in the source. *)
Definition nl : char := 10%N.

Definition str_eqb (a b : str) : bool :=
  if list_eq_dec N.eq_dec a b then true else false.

(** [str.isspace] on one character: the code points CPython's
    [str.strip()] removes. *)
Definition isspace (c : char) : bool :=
  ((9 <=? c) && (c <=? 13) || (28 <=? c) && (c <=? 32)
   || (c =? 133) || (c =? 160) || (c =? 5760)
   || (8192 <=? c) && (c <=? 8202)
   || (c =? 8232) || (c =? 8233) || (c =? 8239) || (c =? 8287)
   || (c =? 12288))%N.

Fixpoint lstrip (s : str) : str :=
  match s with
  | c :: s' => if isspace c then lstrip s' else s
  | [] => []
  end.

Definition rstrip (s : str) : str := rev (lstrip (rev s)).

(** [s.strip()] *)
Definition strip (s : str) : str := rstrip (lstrip s).

(** [s[len(p):]] when [s.startswith(p)]. *)
Fixpoint strip_prefix (p s : str) : option str :=
  match p with
  | [] => Some s
  | a :: p' =>
      match s with
      | b :: s' => if N.eqb a b then strip_prefix p' s' else None
      | [] => None
      end
  end.

(** [needle in hay] *)
Fixpoint contains (needle hay : str) : bool :=
  match strip_prefix needle hay with
  | Some _ => true
  | None => match hay with
            | [] => false
            | _ :: hay' => contains needle hay'
            end
  end.

(** [sep.join(parts)] *)
Fixpoint join (sep : str) (parts : list str) : str :=
  match parts with
  | [] => []
  | [p] => p
  | p :: rest => p ++ sep ++ join sep rest
  end.

(** [s.partition(x)]: the text before and after the first occurrence of
    [x], if there is one. *)
Fixpoint split_at_first (x s : str) : option (str * str) :=
  match strip_prefix x s with
  | Some r => Some ([], r)
  | None =>
      match s with
      | [] => None
      | c :: s' =>
          match split_at_first x s' with
          | Some (a, b) => Some (c :: a, b)
          | None => None
          end
      end
  end.

(** The text before the first place where [stop] holds of what remains,
    and what remains there. *)
Fixpoint until_stop (stop : str -> bool) (s : str) : str :=
  if stop s then []
  else match s with
       | [] => []
       | c :: s' => c :: until_stop stop s'
       end.

Fixpoint from_stop (stop : str -> bool) (s : str) : str :=
  if stop s then s
  else match s with
       | [] => []
       | _ :: s' => from_stop stop s'
       end.

(** [str(n)] for a natural number. *)
Definition str_of_nat (n : nat) : str :=
  lit (NilZero.string_of_uint (Nat.to_uint n)).

(** [c * n] for a one-character string [c]. *)
Definition repeat_char (c : char) (n : nat) : str := repeat c n.

(** The substring relation the prose of the specification speaks of. *)
Definition occurs (x s : str) : Prop := exists a b, s = a ++ x ++ b.

End PyStr.
Export PyStr.

(** ** The fragment of [re] the scripts use *)

Module Re.

Inductive regex : Type :=
| Lit (s : str)                 (* literal text, also [re.escape(...)] *)
| AnyLazy                       (* [.*?] under [re.DOTALL] *)
| ClassPlus (p : char -> bool)  (* [[...]+], greedy *)
| Eos                           (* [$] without [re.MULTILINE] *)
| Seq (r1 r2 : regex)
| Alt (r1 r2 : regex)           (* [r1|r2] *)
| Group (r : regex)             (* [( ... )], capturing *)
| Ahead (r : regex).            (* [(?= ... )] *)

(** [$] holds at the end of the subject and just before a final line feed. *)
Definition at_end (s : str) : bool :=
  match s with
  | [] => true
  | [c] => N.eqb c nl
  | _ => false
  end.

(** [.*?]: the shortest extension first. *)
Fixpoint lazy_any {A : Type} (k : str -> option A) (s : str) : option A :=
  match k s with
  | Some a => Some a
  | None => match s with
            | [] => None
            | _ :: s' => lazy_any k s'
            end
  end.

(** [[...]+]: the longest run first, giving back one character at a time. *)
Fixpoint greedy_plus {A : Type} (p : char -> bool) (k : str -> option A)
    (s : str) : option A :=
  match s with
  | c :: s' =>
      if p c then
        match greedy_plus p k s' with
        | Some a => Some a
        | None => k s'
        end
      else None
  | [] => None
  end.

(** Backtracking matcher in continuation-passing style: [s] is the rest of
    the subject, [caps] the groups closed so far, in order. *)
Fixpoint rmatch (r : regex) {A : Type} (s : str) (caps : list str)
    (k : str -> list str -> option A) : option A :=
  match r with
  | Lit l =>
      match strip_prefix l s with
      | Some s' => k s' caps
      | None => None
      end
  | AnyLazy => lazy_any (fun s' => k s' caps) s
  | ClassPlus p => greedy_plus p (fun s' => k s' caps) s
  | Eos => if at_end s then k s caps else None
  | Seq r1 r2 => rmatch r1 s caps (fun s' caps' => rmatch r2 s' caps' k)
  | Alt r1 r2 =>
      match rmatch r1 s caps k with
      | Some a => Some a
      | None => rmatch r2 s caps k
      end
  | Group r1 =>
      rmatch r1 s caps
        (fun s' caps' =>
           k s' (caps' ++ [firstn (length s - length s') s]))
  | Ahead r1 =>
      match rmatch r1 s caps (fun _ c => Some c) with
      | Some c => k s c
      | None => None
      end
  end.

(** A match anchored at the start of [s]: the groups and the unconsumed
    rest. *)
Definition match_at (r : regex) (s : str) : option (list str * str) :=
  rmatch r s [] (fun s' caps => Some (caps, s')).

(** [re.search]: the leftmost match. *)
Fixpoint search (r : regex) (s : str) : option (list str * str) :=
  match match_at r s with
  | Some m => Some m
  | None => match s with
            | [] => None
            | _ :: s' => search r s'
            end
  end.

(** [re.findall]: successive non-overlapping matches, left to right.
    [skip] counts the characters of the last match still to be passed. *)
Fixpoint findall_from (r : regex) (skip : nat) (s : str) : list (list str) :=
  match skip with
  | S n =>
      match s with
      | [] => []
      | _ :: s' => findall_from r n s'
      end
  | O =>
      match match_at r s with
      | Some (caps, rest) =>
          caps ::
            match s with
            | [] => []
            | _ :: s' => findall_from r (pred (length s - length rest)) s'
            end
      | None =>
          match s with
          | [] => []
          | _ :: s' => findall_from r 0 s'
          end
      end
  end.

Definition findall (r : regex) (s : str) : list (list str) :=
  findall_from r 0 s.

(** The first group of a one-group pattern. *)
Definition group1 (caps : list str) : str :=
  match caps with
  | g :: _ => g
  | [] => []
  end.

(** The tuple [findall] yields for a two-group pattern. *)
Definition group12 (caps : list str) : str * str :=
  match caps with
  | g1 :: g2 :: _ => (g1, g2)
  | _ => ([], [])
  end.

End Re.
Export Re.

(** ** [extract_training_data.py] *)

Module Extractor.

(** A training example: the dict with keys [instruction], [context] and
    [response], in that order. *)
Record example : Type := mkExample {
  instruction : str;
  context : str;
  response : str
}.

(** [rf"{re.escape(header)}(.*?)(?=\n## |$)"] *)
Definition section_re (header : str) : regex :=
  Seq (Lit header)
    (Seq (Group AnyLazy) (Ahead (Alt (Lit (nl :: lit "## ")) Eos))).

(** [r'- \*\*(.*?)\*\*: (.*?)(?=\n-|\n\n|$)'] *)
Definition bullet_re : regex :=
  Seq (Lit (lit "- **"))
    (Seq (Group AnyLazy)
       (Seq (Lit (lit "**: "))
          (Seq (Group AnyLazy)
             (Ahead (Alt (Lit (nl :: lit "-")) (Alt (Lit [nl; nl]) Eos)))))).

(** [r'### (.*?)\n(.*?)(?=\n### |$)'] *)
Definition subsection_re : regex :=
  Seq (Lit (lit "### "))
    (Seq (Group AnyLazy)
       (Seq (Lit [nl])
          (Seq (Group AnyLazy) (Ahead (Alt (Lit (nl :: lit "### ")) Eos))))).

(** [r'```bash\n(.*?)\n```'] *)
Definition code_block_re : regex :=
  Seq (Lit (lit "```bash" ++ [nl]))
    (Seq (Group AnyLazy) (Lit (nl :: lit "```"))).

Definition is_upper_or_underscore (c : char) : bool :=
  ((65 <=? c) && (c <=? 90) || (c =? 95))%N.

Definition not_newline (c : char) : bool := negb (N.eqb c nl).

(** [r'([A-Z_]+)=([^\n]+)'] *)
Definition env_re : regex :=
  Seq (Group (ClassPlus is_upper_or_underscore))
    (Seq (Lit (lit "=")) (Group (ClassPlus not_newline))).

(** The lookahead of [section_re] as a test on the rest of the subject. *)
Definition top_heading : str := nl :: lit "## ".

Definition section_stop (s : str) : bool :=
  match strip_prefix top_heading s with
  | Some _ => true
  | None => at_end s
  end.

(** The lookahead of [bullet_re] as a test on the rest of the subject. *)
Definition bullet_stop (s : str) : bool :=
  match strip_prefix (nl :: lit "-") s with
  | Some _ => true
  | None =>
      match strip_prefix [nl; nl] s with
      | Some _ => true
      | None => at_end s
      end
  end.

(** [match.group(1).strip()] if there is a match, else the empty string. *)
Definition _extract_section (header content : str) : str :=
  match search (section_re header) content with
  | Some (caps, _) => strip (group1 caps)
  | None => []
  end.

(** [for x in xs: self.examples.append(f(x))] *)
Definition append_each {X : Type} (f : X -> example) (xs : list X)
    (examples : list example) : list example :=
  fold_left (fun acc x => acc ++ [f x]) xs examples.

(** [if not s] on a string. *)
Definition is_empty (s : str) : bool :=
  match s with
  | [] => true
  | _ => false
  end.

(** The bullet pairs [re.findall] returns for the bullet pattern. *)
Definition bullets (text : str) : list (str * str) :=
  map group12 (findall bullet_re text).

Definition subsections (text : str) : list (str * str) :=
  map group12 (findall subsection_re text).

Section Routines.

(** [str.lower] *)
Variable lower : str -> str.

Definition field_example (p : str * str) : example :=
  let (pattern_name, description) := p in
  {| instruction :=
       lit "What is the " ++ pattern_name ++ lit " and how should I implement it?";
     context :=
       lit "I'm working on a GraphQL/Prisma/React application with PostgreSQL database";
     response := lit "The " ++ pattern_name ++ lit ": " ++ strip description |}.

Definition resolver_example (p : str * str) : example :=
  let (point_name, explanation) := p in
  {| instruction := lit "How do GraphQL resolvers work in this codebase?";
     context :=
       lit "I'm implementing GraphQL resolvers and need to understand the priority system";
     response := point_name ++ lit ": " ++ strip explanation |}.

Definition ui_example (p : str * str) : example :=
  let (pattern_name, description) := p in
  {| instruction :=
       lit "How should I handle " ++ lower pattern_name ++ lit " in the UI?";
     context :=
       lit "I'm implementing UI components and need to understand rendering patterns";
     response := lit "For " ++ pattern_name ++ lit ": " ++ strip description |}.

Definition _extract_architecture_patterns (content : str)
    (examples : list example) : list example :=
  let patterns_section :=
    _extract_section (lit "## Architecture Patterns Discovered") content in
  if is_empty patterns_section then examples
  else
    let examples := append_each field_example (bullets patterns_section) examples in
    let resolver_section :=
      _extract_section (lit "### GraphQL Resolver Priority") patterns_section in
    let examples :=
      if is_empty resolver_section then examples
      else append_each resolver_example (bullets resolver_section) examples in
    let ui_section :=
      _extract_section (lit "### UI Conditional Rendering Patterns") patterns_section in
    if is_empty ui_section then examples
    else append_each ui_example (bullets ui_section) examples.

Definition gotcha_example (section_name : str) (p : str * str) : example :=
  let (gotcha_name, solution) := p in
  {| instruction :=
       lit "I'm having issues with " ++ lower gotcha_name ++ lit ". What should I do?";
     context :=
       lit "I'm working on " ++ lower section_name ++ lit " in my development environment";
     response := lit "For " ++ gotcha_name ++ lit ": " ++ strip solution |}.

(** [for name, content in subs: for b in bullets(content): append(mk name b)] *)
Definition append_subsection_bullets (mk : str -> str * str -> example)
    (subs : list (str * str)) (examples : list example) : list example :=
  fold_left
    (fun acc sub => append_each (mk (fst sub)) (bullets (snd sub)) acc)
    subs examples.

Definition _extract_environment_gotchas (content : str)
    (examples : list example) : list example :=
  let gotchas_section := _extract_section (lit "## Environment Gotchas") content in
  if is_empty gotchas_section then examples
  else append_subsection_bullets gotcha_example (subsections gotchas_section) examples.

Definition command_example (section_name : str) (code_blocks : list str) : example :=
  let combined_commands := join [nl] code_blocks in
  {| instruction := lit "How do I " ++ lower section_name ++ lit "?";
     context :=
       lit "I need to execute commands for development environment management";
     response :=
       lit "For " ++ section_name ++ lit ":" ++ [nl] ++ lit "```bash" ++ [nl]
       ++ strip combined_commands ++ [nl] ++ lit "```" |}.

Definition _extract_critical_commands (content : str)
    (examples : list example) : list example :=
  let commands_section := _extract_section (lit "## Critical Commands") content in
  if is_empty commands_section then examples
  else
    fold_left
      (fun acc sub =>
         let code_blocks := map group1 (findall code_block_re (snd sub)) in
         match code_blocks with
         | [] => acc
         | _ => acc ++ [command_example (fst sub) code_blocks]
         end)
      (subsections commands_section) examples.

Definition lesson_example (section_name : str) (p : str * str) : example :=
  let (lesson_name, explanation) := p in
  {| instruction :=
       lit "What should I know about " ++ lower lesson_name ++ lit "?";
     context := lit "I'm following " ++ lower section_name ++ lit " methodology";
     response := lesson_name ++ lit ": " ++ strip explanation |}.

Definition _extract_lessons_learned (content : str)
    (examples : list example) : list example :=
  let lessons_section := _extract_section (lit "## Key Lessons Learned") content in
  if is_empty lessons_section then examples
  else append_subsection_bullets lesson_example (subsections lessons_section) examples.

Definition cred_example (p : str * str) : example :=
  let (cred_name, value) := p in
  {| instruction := lit "What are the working authentication credentials?";
     context := lit "I need to access the application for testing";
     response := cred_name ++ lit ": " ++ strip value |}.

Definition requirement_example (p : str * str) : example :=
  let (req_name, description) := p in
  {| instruction := lit "What are the access requirements for this application?";
     context := lit "I'm setting up access to the application";
     response := req_name ++ lit ": " ++ strip description |}.

Definition _extract_authentication_info (content : str)
    (examples : list example) : list example :=
  let auth_section := _extract_section (lit "## Authentication Information") content in
  if is_empty auth_section then examples
  else
    let creds_section := _extract_section (lit "### Working Credentials") auth_section in
    let examples :=
      if is_empty creds_section then examples
      else append_each cred_example (bullets creds_section) examples in
    let access_section := _extract_section (lit "### Access Requirements") auth_section in
    if is_empty access_section then examples
    else append_each requirement_example (bullets access_section) examples.

Definition config_example (section_name : str) (env_vars : list (str * str)) : example :=
  let env_list := map (fun p => fst p ++ lit "=" ++ snd p) env_vars in
  {| instruction := lit "How do I configure " ++ lower section_name ++ lit "?";
     context := lit "I'm setting up environment variables for development";
     response :=
       (lit "For " ++ section_name ++ lit ", set these environment variables:" ++ [nl])
       ++ join [nl] env_list |}.

Definition _extract_environment_config (content : str)
    (examples : list example) : list example :=
  let config_section := _extract_section (lit "## Environment Configuration") content in
  if is_empty config_section then examples
  else
    fold_left
      (fun acc sub =>
         let env_vars := map group12 (findall env_re (snd sub)) in
         match env_vars with
         | [] => acc
         | _ => acc ++ [config_example (fst sub) env_vars]
         end)
      (subsections config_section) examples.


Definition extract_all_examples (content : str) : list example :=
  let examples := [] in
  let examples := _extract_architecture_patterns content examples in
  let examples := _extract_environment_gotchas content examples in
  let examples := _extract_critical_commands content examples in
  let examples := _extract_lessons_learned content examples in
  let examples := _extract_authentication_info content examples in
  let examples := _extract_environment_config content examples in
  examples.

End Routines.

(** *** Vocabulary of the specification *)

(** [body] is the part of [tail] "up to (but not including) the next
    top-level heading or end of document". *)
Definition up_to_next_heading (tail body : str) : Prop :=
  (exists rest,
      tail = body ++ top_heading ++ rest /\
      forall a b, tail = a ++ top_heading ++ b -> length body <= length a)
  \/ (body = tail /\ ~ occurs top_heading tail).

Definition asterisk : char := 42%N.
Definition hyphen : char := 45%N.

(** The description of a bullet is free text that the next bullet, a blank
    line or the end of input terminates: no line feed in it is followed by a
    hyphen or by another line feed, and it does not end in one. *)
Fixpoint free_text (d : str) : bool :=
  match d with
  | [] => true
  | c :: d' =>
      if N.eqb c nl then
        match d' with
        | [] => false
        | c' :: _ => negb (N.eqb c' hyphen) && negb (N.eqb c' nl) && free_text d'
        end
      else free_text d'
  end.

(** A bullet pair [(name, description)] whose name has no asterisk and
    whose description is free text. *)
Definition well_formed_bullet (b : str * str) : Prop :=
  ~ In asterisk (fst b) /\ free_text (snd b) = true.

(** [- **<name>**: <description>] *)
Definition render_bullet (b : str * str) : str :=
  lit "- **" ++ fst b ++ lit "**: " ++ snd b.

(** A section body made of bullets: after each one comes a blank line (when
    its flag is set), else the next bullet on the next line, else the end of
    input. *)
Fixpoint render_bullets (items : list ((str * str) * bool)) : str :=
  match items with
  | [] => []
  | (b, blank) :: rest =>
      render_bullet b
      ++ (if blank then [nl; nl] else match rest with [] => [] | _ => [nl] end)
      ++ render_bullets rest
  end.

End Extractor.
Export Extractor.

(** ** The [json] encoder the extractor calls, and a reader for its output *)

Module Json.

Definition hex_digit (n : N) : char :=
  (if n <? 10 then 48 + n else 87 + n)%N.

(** [ESCAPE_DCT] of the [json] encoder with [ensure_ascii=False]: the
    quotation mark, the reverse solidus and the code points below 32. *)
Definition escape_char (c : char) : str :=
  (if c =? 34 then [92; 34]
   else if c =? 92 then lit "\\"
   else if c =? 10 then lit "\n"
   else if c =? 13 then lit "\r"
   else if c =? 9 then lit "\t"
   else if c =? 8 then lit "\b"
   else if c =? 12 then lit "\f"
   else if c <? 32 then lit "\u00" ++ [hex_digit (c / 16); hex_digit (c mod 16)]
   else [c])%N.

Definition quote : char := 34%N.

(** [encode_basestring] *)
Definition encode_string (s : str) : str :=
  quote :: flat_map escape_char s ++ [quote].

(** [json.dumps(example, ensure_ascii=False)] *)
Definition dumps (e : example) : str :=
  lit "{" ++ encode_string (lit "instruction") ++ lit ": " ++ encode_string (instruction e)
  ++ lit ", " ++ encode_string (lit "context") ++ lit ": " ++ encode_string (context e)
  ++ lit ", " ++ encode_string (lit "response") ++ lit ": " ++ encode_string (response e)
  ++ lit "}".

(** [json.dumps(example, indent=2, ensure_ascii=False)] at nesting depth 1,
    as [json.dump] of the enclosing list lays it out. *)
Definition dumps_indented (e : example) : str :=
  lit "  {" ++ [nl]
  ++ lit "    " ++ encode_string (lit "instruction") ++ lit ": "
  ++ encode_string (instruction e) ++ lit "," ++ [nl]
  ++ lit "    " ++ encode_string (lit "context") ++ lit ": "
  ++ encode_string (context e) ++ lit "," ++ [nl]
  ++ lit "    " ++ encode_string (lit "response") ++ lit ": "
  ++ encode_string (response e) ++ [nl]
  ++ lit "  }".

(** [json.dump(examples, f, indent=2, ensure_ascii=False)] *)
Definition dump_list (examples : list example) : str :=
  match examples with
  | [] => lit "[]"
  | _ => lit "[" ++ [nl] ++ join (lit "," ++ [nl]) (map dumps_indented examples)
         ++ [nl] ++ lit "]"
  end.

(** The text [save_training_data] writes in the [jsonl] format: one
    [json.dumps(example) + '\n'] per example. *)
Definition write_jsonl (examples : list example) : str :=
  flat_map (fun e => dumps e ++ [nl]) examples.

(** The record as the dict it is: its items in insertion order. *)
Definition items (e : example) : list (str * str) :=
  [ (lit "instruction", instruction e);
    (lit "context", context e);
    (lit "response", response e) ].

(** *** Reading back *)

Definition is_json_ws (c : char) : bool :=
  ((c =? 32) || (c =? 9) || (c =? 10) || (c =? 13))%N.

Fixpoint skip_ws (s : str) : str :=
  match s with
  | c :: s' => if is_json_ws c then skip_ws s' else s
  | [] => []
  end.

Definition hex_value (c : char) : option N :=
  (if (48 <=? c) && (c <=? 57) then Some (c - 48)
   else if (97 <=? c) && (c <=? 102) then Some (c - 87)
   else if (65 <=? c) && (c <=? 70) then Some (c - 55)
   else None)%N.

Definition hex4 (a b c d : char) : option N :=
  match hex_value a, hex_value b, hex_value c, hex_value d with
  | Some x, Some y, Some z, Some w => Some (((x * 16 + y) * 16 + z) * 16 + w)%N
  | _, _, _, _ => None
  end.

(** The character a one-letter escape stands for. *)
Definition unescape (c : char) : option char :=
  (if c =? 34 then Some 34
   else if c =? 92 then Some 92
   else if c =? 47 then Some 47
   else if c =? 98 then Some 8
   else if c =? 102 then Some 12
   else if c =? 110 then Some 10
   else if c =? 114 then Some 13
   else if c =? 116 then Some 9
   else None)%N.

(** Modelled from the spec: the repository writes line-delimited JSON but
    has no reader; "reading it back" is embedded as the strict string
    scanner of [json.loads]: escapes are decoded, a [\u] escape for a high
    surrogate joins a following low one, a raw control character is refused.
    The argument starts just after the opening quotation mark; the result is
    the decoded text and what follows the closing quotation mark. *)
Fixpoint scan_string (s : str) : option (str * str) :=
  match s with
  | [] => None
  | c :: s1 =>
      if (c =? 34)%N then Some ([], s1)
      else if (c =? 92)%N then
        match s1 with
        | [] => None
        | e :: s2 =>
            if (e =? 117)%N then
              match s2 with
              | h1 :: h2 :: h3 :: h4 :: s3 =>
                  match hex4 h1 h2 h3 h4 with
                  | None => None
                  | Some u =>
                      let plain :=
                        match scan_string s3 with
                        | Some (t, r) => Some (u :: t, r)
                        | None => None
                        end in
                      if ((55296 <=? u) && (u <=? 56319))%N then
                        match s3 with
                        | b :: v :: l1 :: l2 :: l3 :: l4 :: s4 =>
                            if ((b =? 92) && (v =? 117))%N then
                              match hex4 l1 l2 l3 l4 with
                              | Some u2 =>
                                  if ((56320 <=? u2) && (u2 <=? 57343))%N then
                                    match scan_string s4 with
                                    | Some (t, r) =>
                                        Some ((65536 + ((u - 55296) * 1024
                                                        + (u2 - 56320)))%N :: t, r)
                                    | None => None
                                    end
                                  else plain
                              | None => plain
                              end
                            else plain
                        | _ => plain
                        end
                      else plain
                  end
              | _ => None
              end
            else
              match unescape e with
              | Some d =>
                  match scan_string s2 with
                  | Some (t, r) => Some (d :: t, r)
                  | None => None
                  end
              | None => None
              end
        end
      else if (c <? 32)%N then None
      else
        match scan_string s1 with
        | Some (t, r) => Some (c :: t, r)
        | None => None
        end
  end.

(** A quoted string after optional white space. *)
Definition read_string (s : str) : option (str * str) :=
  match skip_ws s with
  | c :: s' => if (c =? 34)%N then scan_string s' else None
  | [] => None
  end.

(** One [key: value] member with string value. *)
Definition read_member (s : str) : option ((str * str) * str) :=
  match read_string s with
  | Some (key, s1) =>
      match skip_ws s1 with
      | c :: s2 =>
          if (c =? 58)%N then
            match read_string s2 with
            | Some (value, s3) => Some ((key, value), s3)
            | None => None
            end
          else None
      | [] => None
      end
  | None => None
  end.

(** The members after the first, up to the closing brace; [fuel] bounds the
    number of members by the length of the text. *)
Fixpoint read_more (fuel : nat) (s : str) : option (list (str * str) * str) :=
  match fuel with
  | O => None
  | S fuel' =>
      match skip_ws s with
      | c :: s1 =>
          if (c =? 125)%N then Some ([], s1)
          else if (c =? 44)%N then
            match read_member s1 with
            | Some (m, s2) =>
                match read_more fuel' s2 with
                | Some (ms, s3) => Some (m :: ms, s3)
                | None => None
                end
            | None => None
            end
          else None
      | [] => None
      end
  end.

(** Modelled from the spec: [json.loads] on one line holding an object
    whose values are strings; the items come back in document order. *)
Definition loads (line : str) : option (list (str * str)) :=
  match skip_ws line with
  | c :: s1 =>
      if (c =? 123)%N then
        match skip_ws s1 with
        | c2 :: s2 =>
            if (c2 =? 125)%N then
              match skip_ws s2 with
              | [] => Some []
              | _ => None
              end
            else
              match read_member s1 with
              | Some (m, s3) =>
                  match read_more (length s3) s3 with
                  | Some (ms, s4) =>
                      match skip_ws s4 with
                      | [] => Some (m :: ms)
                      | _ => None
                      end
                  | None => None
                  end
              | None => None
              end
        | [] => None
        end
      else None
  | [] => None
  end.

(** Modelled from the spec: the lines of a text file, as iterating over the
    file yields them (each without its line feed; a last line need not
    have one). *)
Fixpoint lines_from (cur : str) (s : str) : list str :=
  match s with
  | [] => match cur with
          | [] => []
          | _ => [rev cur]
          end
  | c :: s' =>
      if (c =? nl)%N then rev cur :: lines_from [] s'
      else lines_from (c :: cur) s'
  end.

Definition lines (s : str) : list str := lines_from [] s.

Fixpoint sequence {A : Type} (l : list (option A)) : option (list A) :=
  match l with
  | [] => Some []
  | Some a :: l' =>
      match sequence l' with
      | Some r => Some (a :: r)
      | None => None
      end
  | None :: _ => None
  end.

(** Modelled from the spec: reading a line-delimited JSON file back, one
    [json.loads] per line. *)
Definition read_jsonl (text : str) : option (list (list (str * str))) :=
  sequence (map loads (lines text)).

(** No raw line feed occurs in [s]. *)
Definition no_line_feed (s : str) : Prop := Forall (fun c => c <> nl) s.

End Json.
Export Json.

(** ** The extractor's command line *)

Module ExtractorMain.

Inductive output_format : Type := jsonl | json.

Definition format_name (f : output_format) : str :=
  match f with
  | jsonl => lit "jsonl"
  | json => lit "json"
  end.

(** The parsed arguments. *)
Record args : Type := mkArgs {
  memory_file : str;
  output : str;
  format : output_format
}.

(** What a run leaves behind: the lines printed, the files written (path
    and text) and the exit status. *)
Record run : Type := mkRun {
  printed : list str;
  written : list (str * str);
  status : Z
}.

(** [save_training_data]: the text written and the line printed. *)
Definition save_training_data (examples : list example) (output_file : str)
    (fmt : output_format) : (str * str) * str :=
  let text :=
    match fmt with
    | jsonl => write_jsonl examples
    | json => dump_list examples
    end in
  ((output_file, text),
   lit "Saved " ++ str_of_nat (length examples) ++ lit " training examples to "
   ++ output_file).

Section Main.

Variable lower : str -> str.

(** The file system at start-up: the text of each existing file. *)
Variable files : str -> option str.

Definition main (a : args) : run :=
  match files (memory_file a) with
  | None =>
      {| printed := [lit "Error: Memory file '" ++ memory_file a ++ lit "' not found"];
         written := [];
         status := 1 |}
  | Some content =>
      let examples := extract_all_examples lower content in
      match examples with
      | [] =>
          {| printed := [lit "No training examples extracted. Check your memory.md format."];
             written := [];
             status := 1 |}
      | _ =>
          let (file, saved) := save_training_data examples (output a) (format a) in
          {| printed :=
               [ saved;
                 [nl] ++ lit "Extraction Summary:";
                 lit "- Total examples: " ++ str_of_nat (length examples);
                 lit "- Output format: " ++ format_name (format a);
                 lit "- Output file: " ++ output a ];
             written := [file];
             status := 0 |}
      end
  end.

End Main.

End ExtractorMain.

(** ** [evaluate_model.py] *)

Module Evaluator.

(** The exceptions a run can meet: Python's own division error, and
    whatever the model library raises while loading or generating. *)
Inductive exn : Type :=
| ZeroDivisionError
| LibraryError (message : str).

(** [str(e)] *)
Definition exn_text (e : exn) : str :=
  match e with
  | ZeroDivisionError => lit "division by zero"
  | LibraryError m => m
  end.

Inductive outcome (A : Type) : Type :=
| Ok (a : A)
| Raise (e : exn).
Arguments Ok {A} a.
Arguments Raise {A} e.

Definition obind {A B : Type} (c : outcome A) (k : A -> outcome B) : outcome B :=
  match c with
  | Ok a => k a
  | Raise e => Raise e
  end.

Notation "x <- c ;; k" := (obind c (fun x => k))
  (at level 61, c at next level, right associativity).

(** Numbers. [len(...)] is a natural number; a quotient is a rational. *)
Definition of_nat (n : nat) : Q := inject_Z (Z.of_nat n).

(** [a / b] *)
Definition truediv (a b : Q) : outcome Q :=
  if Qeq_bool b 0 then Raise ZeroDivisionError else Ok (a / b)%Q.

(** [a > b] *)
Definition Qgtb (a b : Q) : bool := negb (Qle_bool a b).

(** [sum(xs)] on numbers: from 0, left to right. *)
Definition qsum (xs : list Q) : Q := fold_left Qplus xs 0%Q.

Record test_case : Type := mkTestCase {
  category : str;
  question : str;
  expected_keywords : list str;
  context : str;
  difficulty : str
}.

Inductive model_type : Type := fine_tuned | base_model.

Definition model_type_name (m : model_type) : str :=
  match m with
  | fine_tuned => lit "fine_tuned"
  | base_model => lit "base_model"
  end.

(** The dict [evaluate_test_case] returns. *)
Record result : Type := mkResult {
  res_category : str;
  res_question : str;
  res_response : str;
  res_expected_keywords : list str;
  matched_keywords : list str;
  matches : nat;
  total_keywords : nat;
  score : Q;
  res_difficulty : str;
  res_model_type : model_type
}.

Record model_summary : Type := mkModelSummary {
  average_score : Q;
  total_matches : nat;
  perfect_scores : nat;
  zero_scores : nat;
  category_scores : list (str * Q)
}.

Record improvement : Type := mkImprovement {
  score_improvement : Q;
  percentage_improvement : Q;
  better_performance : bool
}.

Record summary : Type := mkSummary {
  sum_fine_tuned : model_summary;
  sum_base_model : model_summary;
  sum_improvement : improvement
}.

(** The dict [run_evaluation] returns. *)
Record results : Type := mkResults {
  results_fine_tuned : list result;
  results_base_model : list result;
  results_summary : summary
}.

Definition create_evaluation_tests : list test_case :=
  [ {| category := lit "Architecture Patterns";
       question := lit "How should I implement a new auto-generated field in the Estate model?";
       expected_keywords :=
         [lit "scanBoxId"; lit "backend generation"; lit "display-only"; lit "frontend";
          lit "auto-generated"];
       context := lit "I'm implementing new fields in a GraphQL/Prisma/React application";
       difficulty := lit "medium" |};
    {| category := lit "Architecture Patterns";
       question := lit "What's the difference between Estate Email Pattern and taxId Pattern?";
       expected_keywords :=
         [lit "Estate Email"; lit "taxId"; lit "unique constraint"; lit "migration";
          lit "nullable"];
       context := lit "I need to understand field implementation patterns";
       difficulty := lit "medium" |};
    {| category := lit "Architecture Patterns";
       question := lit "How do GraphQL resolvers work in this codebase?";
       expected_keywords :=
         [lit "generated resolvers"; lit "custom resolvers"; lit "priority";
          lit "registered"; lit "both"];
       context := lit "I'm implementing GraphQL resolvers";
       difficulty := lit "hard" |};
    {| category := lit "Environment Gotchas";
       question := lit "I'm getting dependency conflicts with MUI Lab. What should I do?";
       expected_keywords :=
         [lit "legacy-peer-deps"; lit "npm install"; lit "React 19"; lit "MUI Lab"];
       context := lit "Frontend dependency resolution issues";
       difficulty := lit "easy" |};
    {| category := lit "Environment Gotchas";
       question := lit "How do I start the backend service properly?";
       expected_keywords :=
         [lit "Node 22"; lit "nvm use"; lit "background"; lit "yarn start";
          lit "foreground"];
       context := lit "Backend service management";
       difficulty := lit "medium" |};
    {| category := lit "Environment Gotchas";
       question :=
         lit "I'm having database permission issues with Prisma migrations. What's wrong?";
       expected_keywords :=
         [lit "patrickclawson"; lit "CREATEDB"; lit "permissions"; lit "superuser";
          lit "shadow database"];
       context := lit "Database migration problems";
       difficulty := lit "hard" |};
    {| category := lit "Critical Commands";
       question := lit "How do I check migration status and apply pending migrations?";
       expected_keywords :=
         [lit "prisma migrate status"; lit "prisma migrate deploy"; lit "npx"];
       context := lit "Database migration management";
       difficulty := lit "easy" |};
    {| category := lit "Critical Commands";
       question := lit "How do I kill all backend processes and clean up services?";
       expected_keywords :=
         [lit "pkill"; lit "ts-node-dev"; lit "yarn start"; lit "ps aux"];
       context := lit "Service cleanup and management";
       difficulty := lit "medium" |};
    {| category := lit "Lessons Learned";
       question := lit "What's the proper methodology for implementing new fields?";
       expected_keywords :=
         [lit "Jira-First"; lit "Complete Field Analysis"; lit "Backend-First";
          lit "Data Flow Tracing"];
       context := lit "Implementation methodology";
       difficulty := lit "hard" |};
    {| category := lit "Lessons Learned";
       question := lit "I'm confused about 'crud resolvers'. What's happening?";
       expected_keywords :=
         [lit "generated resolvers"; lit "custom resolvers"; lit "precedence"; lit "both"];
       context := lit "GraphQL resolver confusion";
       difficulty := lit "medium" |};
    {| category := lit "Authentication";
       question := lit "What are the working authentication credentials for testing?";
       expected_keywords :=
         [lit "admintest@meetalix.com"; lit "te8mAlix!"; lit "Admin"; lit "localhost:3000"];
       context := lit "Application testing access";
       difficulty := lit "easy" |};
    {| category := lit "Authentication";
       question := lit "What are the access requirements for this application?";
       expected_keywords :=
         [lit "AWS Cognito"; lit "Admin"; lit "SuperAdmin"; lit "authentication required"];
       context := lit "Application access setup";
       difficulty := lit "medium" |} ].

(** *** Scoring and aggregation *)

Section Scoring.

(** [str.lower] *)
Variable lower : str -> str.

(** [evaluate_keywords]: the match count, the score and the keywords
    found. *)
Definition evaluate_keywords (response : str) (expected_keywords : list str)
    : outcome (nat * Q * list str) :=
  let response_lower := lower response in
  let matched_keywords :=
    fold_left
      (fun acc keyword =>
         if contains (lower keyword) response_lower then acc ++ [keyword] else acc)
      expected_keywords [] in
  let matches := length matched_keywords in
  score <- match expected_keywords with
           | [] => Ok 0%Q
           | _ => truediv (of_nat matches) (of_nat (length expected_keywords))
           end ;;
  Ok (matches, score, matched_keywords).

End Scoring.

(** [category_scores[category].append(score)], creating the entry at the
    end of the dict when the category is new. *)
Fixpoint add_score (cat : str) (sc : Q) (d : list (str * list Q))
    : list (str * list Q) :=
  match d with
  | [] => [(cat, [sc])]
  | (c, l) :: d' =>
      if str_eqb c cat then (c, l ++ [sc]) :: d'
      else (c, l) :: add_score cat sc d'
  end.

Definition group_scores (rs : list result) : list (str * list Q) :=
  fold_left (fun d r => add_score (res_category r) (score r) d) rs [].

(** The second loop of [_calculate_category_scores]: each list becomes its
    average. *)
Fixpoint average_each (d : list (str * list Q)) : outcome (list (str * Q)) :=
  match d with
  | [] => Ok []
  | (c, l) :: d' =>
      a <- truediv (qsum l) (of_nat (length l)) ;;
      rest <- average_each d' ;;
      Ok ((c, a) :: rest)
  end.

Definition _calculate_category_scores (rs : list result) : outcome (list (str * Q)) :=
  average_each (group_scores rs).

(** [sum(1 for s in scores if p(s))] *)
Definition count_if (p : Q -> bool) (scores : list Q) : nat :=
  length (filter p scores).

(** The body of the loop over the two model types in
    [_calculate_summary]. *)
Definition summarize (rs : list result) : outcome model_summary :=
  let scores := map score rs in
  let matches := map matches rs in
  avg <- truediv (qsum scores) (of_nat (length scores)) ;;
  cats <- _calculate_category_scores rs ;;
  Ok {| average_score := avg;
        total_matches := fold_left Nat.add matches 0%nat;
        perfect_scores := count_if (fun s => Qeq_bool s 1) scores;
        zero_scores := count_if (fun s => Qeq_bool s 0) scores;
        category_scores := cats |}.

(** The improvement entry, from the two averages. *)
Definition improve (ft_avg bm_avg : Q) : outcome improvement :=
  pct <- (if Qgtb bm_avg 0
          then q <- truediv (ft_avg - bm_avg)%Q bm_avg ;; Ok (q * 100)%Q
          else Ok 0%Q) ;;
  Ok {| score_improvement := (ft_avg - bm_avg)%Q;
        percentage_improvement := pct;
        better_performance := Qgtb ft_avg bm_avg |}.

Definition _calculate_summary (ft bm : list result) : outcome summary :=
  s_ft <- summarize ft ;;
  s_bm <- summarize bm ;;
  imp <- improve (average_score s_ft) (average_score s_bm) ;;
  Ok {| sum_fine_tuned := s_ft; sum_base_model := s_bm; sum_improvement := imp |}.

(** *** Generation and the evaluation run *)

(** What the run does to the outside, in order. *)
Inductive event : Type :=
| Loaded (base_model_name fine_tuned_model_path : str)
| Generated (m : model_type) (prompt : str).

Section Run.

Variable lower : str -> str.

(** The outside of the process: the file system, the model library with its
    loaded models and its sampling state. *)
Variable env : Type.

(** [Path(p).exists()] *)
Variable path_exists : str -> env -> bool.

(** The constructor of the evaluator: tokenizer and the two models. *)
Variable load : str -> str -> env -> outcome unit * env.

(** Tokenize the prompt, [model.generate], decode. *)
Variable infer : model_type -> str -> env -> outcome str * env.

(** The state of a run: the outside, the calls made to the model library,
    the lines printed and the files written. *)
Record world : Type := mkWorld {
  outside : env;
  events : list event;
  stdout : list str;
  written : list (str * str)
}.

Definition M (A : Type) : Type := world -> outcome A * world.

Definition ret {A : Type} (a : A) : M A := fun w => (Ok a, w).

Definition bind {A B : Type} (c : M A) (k : A -> M B) : M B :=
  fun w =>
    match c w with
    | (Ok a, w') => k a w'
    | (Raise e, w') => (Raise e, w')
    end.

Definition lift {A : Type} (o : outcome A) : M A := fun w => (o, w).

Definition print (line : str) : M unit :=
  fun w => (Ok tt, {| outside := outside w; events := events w;
                      stdout := stdout w ++ [line]; written := written w |}).

Definition write_file (path text : str) : M unit :=
  fun w => (Ok tt, {| outside := outside w; events := events w;
                      stdout := stdout w; written := written w ++ [(path, text)] |}).

(** [try: body except Exception as e: handler(e)] *)
Definition try_except {A : Type} (body : M A) (handler : exn -> M A) : M A :=
  fun w =>
    match body w with
    | (Ok a, w') => (Ok a, w')
    | (Raise e, w') => handler e w'
    end.

Notation "x <-- c ;;; k" := (bind c (fun x => k))
  (at level 61, c at next level, right associativity).
Notation "c ;;; k" := (bind c (fun _ => k))
  (at level 61, right associativity).

Definition response_marker : str := lit "### Response:" ++ [nl].

(** [s.split(sep)[-1]]: the text after the last separator of a
    left-to-right scan; [piece] is the text after the latest separator. *)
Fixpoint split_last_from (sep : str) (skip : nat) (s piece : str) : str :=
  match skip with
  | S n =>
      match s with
      | [] => piece
      | _ :: s' => split_last_from sep n s' piece
      end
  | O =>
      match strip_prefix sep s with
      | Some rest =>
          match s with
          | [] => rest
          | _ :: s' => split_last_from sep (pred (length sep)) s' rest
          end
      | None =>
          match s with
          | [] => piece
          | _ :: s' => split_last_from sep 0 s' piece
          end
      end
  end.

Definition split_last (sep s : str) : str := split_last_from sep 0 s s.

Definition build_prompt (question context : str) : str :=
  lit "### Instruction:" ++ [nl] ++ question ++ [nl; nl]
  ++ lit "### Context:" ++ [nl] ++ context ++ [nl; nl]
  ++ lit "### Response:" ++ [nl].

Definition generate_response (question context : str) (m : model_type) : M str :=
  fun w =>
    let prompt := build_prompt question context in
    let (r, o) := infer m prompt (outside w) in
    let w' := {| outside := o; events := events w ++ [Generated m prompt];
                 stdout := stdout w; written := written w |} in
    match r with
    | Ok response =>
        let response :=
          if contains response_marker response
          then split_last response_marker response
          else response in
        (Ok (strip response), w')
    | Raise e => (Raise e, w')
    end.

Definition evaluate_test_case (tc : test_case) (m : model_type) : M result :=
  response <-- generate_response (question tc) (context tc) m ;;;
  r <-- lift (evaluate_keywords lower response (expected_keywords tc)) ;;;
  let '(matches, score, matched_keywords) := r in
  ret {| res_category := category tc;
         res_question := question tc;
         res_response := response;
         res_expected_keywords := expected_keywords tc;
         matched_keywords := matched_keywords;
         matches := matches;
         total_keywords := length (expected_keywords tc);
         score := score;
         res_difficulty := difficulty tc;
         res_model_type := m |}.

(** [for test_case in test_cases: results[m].append(evaluate_test_case(test_case, m))] *)
Fixpoint evaluate_each (m : model_type) (test_cases : list test_case)
    (acc : list result) : M (list result) :=
  match test_cases with
  | [] => ret acc
  | tc :: rest =>
      r <-- evaluate_test_case tc m ;;;
      evaluate_each m rest (acc ++ [r])
  end.

Definition run_evaluation (test_cases : option (list test_case)) : M results :=
  let test_cases :=
    match test_cases with
    | None => create_evaluation_tests
    | Some tcs => tcs
    end in
  print (lit "Running evaluation on fine-tuned model...") ;;;
  ft <-- evaluate_each fine_tuned test_cases [] ;;;
  print (lit "Running evaluation on base model for comparison...") ;;;
  bm <-- evaluate_each base_model test_cases [] ;;;
  s <-- lift (_calculate_summary ft bm) ;;;
  ret {| results_fine_tuned := ft; results_base_model := bm; results_summary := s |}.

(** *** The report and the command line *)

(** [str.upper] *)
Variable upper : str -> str.

(** [format(x, spec)] for the three float formats of the report:
    [.3f], [+.3f] and [+.1f]. *)
Inductive float_format : Type := f3 | plus_f3 | plus_f1.
Variable format_float : float_format -> Q -> str.

(** The text [json.dump(results, f, indent=2, ensure_ascii=False)]
    writes. *)
Variable dump_results : results -> str.

(** [d.get(key, default)] *)
Fixpoint get_default (d : list (str * Q)) (key : str) (default : Q) : Q :=
  match d with
  | [] => default
  | (k, v) :: d' => if str_eqb k key then v else get_default d' key default
  end.

Definition category_lines (ft bm : model_summary) : list str :=
  map (fun entry =>
         let (category, score) := entry : str * Q in
         let base_score := get_default (category_scores bm) category 0%Q in
         let improvement := (score - base_score)%Q in
         lit "   " ++ category ++ lit ": " ++ format_float f3 score
         ++ lit " (vs " ++ format_float f3 base_score ++ lit ", "
         ++ format_float plus_f3 improvement ++ lit ")")
      (category_scores ft).

(** The lines printed for the [i]-th pair of [zip(fine_tuned, base_model)]. *)
Definition detail_lines (i : nat) (ft_result bm_result : result) : list str :=
  [ [nl] ++ str_of_nat (i + 1) ++ lit ". " ++ res_category ft_result ++ lit " - "
    ++ upper (res_difficulty ft_result);
    lit "   Question: " ++ res_question ft_result;
    lit "   Fine-tuned Score: " ++ format_float f3 (score ft_result) ++ lit " ("
    ++ str_of_nat (matches ft_result) ++ lit "/"
    ++ str_of_nat (total_keywords ft_result) ++ lit ")";
    lit "   Base Model Score: " ++ format_float f3 (score bm_result) ++ lit " ("
    ++ str_of_nat (matches bm_result) ++ lit "/"
    ++ str_of_nat (total_keywords bm_result) ++ lit ")";
    lit "   Response: " ++ firstn 100 (res_response ft_result) ++ lit "..." ]
  ++ match matched_keywords ft_result with
     | [] => []
     | kws => [lit "   Matched Keywords: " ++ join (lit ", ") kws]
     end.

Fixpoint detail_from (i : nat) (ft bm : list result) : list str :=
  match ft, bm with
  | f :: ft', b :: bm' => detail_lines i f b ++ detail_from (S i) ft' bm'
  | _, _ => []
  end.

(** The lines [print_evaluation_report] prints. *)
Definition report_lines (r : results) : list str :=
  let summary := results_summary r in
  let ft := sum_fine_tuned summary in
  let bm := sum_base_model summary in
  let imp := sum_improvement summary in
  [ [nl] ++ repeat_char 61%N 80;
    lit "MEMORY INSIGHTS MODEL EVALUATION REPORT";
    repeat_char 61%N 80;
    [nl; 128202%N] ++ lit " OVERALL PERFORMANCE:";
    lit "   Fine-tuned Model Average Score: " ++ format_float f3 (average_score ft);
    lit "   Base Model Average Score:       " ++ format_float f3 (average_score bm);
    lit "   Improvement:                    "
    ++ format_float plus_f3 (score_improvement imp);
    lit "   Percentage Improvement:        "
    ++ format_float plus_f1 (percentage_improvement imp) ++ lit "%";
    [nl; 127919%N] ++ lit " PERFECT SCORES:";
    lit "   Fine-tuned Model: " ++ str_of_nat (perfect_scores ft) ++ lit "/"
    ++ str_of_nat (length (results_fine_tuned r));
    lit "   Base Model:       " ++ str_of_nat (perfect_scores bm) ++ lit "/"
    ++ str_of_nat (length (results_base_model r));
    [nl; 128200%N] ++ lit " CATEGORY PERFORMANCE:" ]
  ++ category_lines ft bm
  ++ [ [nl; 128203%N] ++ lit " DETAILED RESULTS:";
       repeat_char 45%N 80 ]
  ++ detail_from 0 (results_fine_tuned r) (results_base_model r).

Fixpoint print_all (ls : list str) : M unit :=
  match ls with
  | [] => ret tt
  | l :: ls' => print l ;;; print_all ls'
  end.

Definition print_evaluation_report (r : results) : M unit :=
  print_all (report_lines r).

Definition save_results (r : results) (output_file : str) : M unit :=
  write_file output_file (dump_results r) ;;;
  print ([nl; 128190%N] ++ lit " Results saved to " ++ output_file).

(** [MemoryInsightsEvaluator(base_model_name, fine_tuned_model_path)] *)
Definition new_evaluator (base_model_name fine_tuned_model_path : str) : M unit :=
  fun w =>
    let (r, o) := load base_model_name fine_tuned_model_path (outside w) in
    (r, {| outside := o;
           events := events w ++ [Loaded base_model_name fine_tuned_model_path];
           stdout := stdout w; written := written w |}).

(** The parsed arguments. *)
Record args : Type := mkArgs {
  arg_base_model : str;
  arg_fine_tuned_model : str;
  arg_output : str;
  no_comparison : bool
}.

(** [main]: the exit status. *)
Definition main (a : args) : M Z :=
  fun w =>
    if negb (path_exists (arg_fine_tuned_model a) (outside w)) then
      (print (lit "Error: Fine-tuned model directory '" ++ arg_fine_tuned_model a
              ++ lit "' not found") ;;;
       ret 1%Z) w
    else
      try_except
        (new_evaluator (arg_base_model a) (arg_fine_tuned_model a) ;;;
         results <-- run_evaluation None ;;;
         print_evaluation_report results ;;;
         save_results results (arg_output a) ;;;
         ret 0%Z)
        (fun e =>
           print (lit "Error during evaluation: " ++ exn_text e) ;;;
           ret 1%Z)
        w.

End Run.

(** *** Vocabulary for the statements about a run *)

(** The prompt a test case is turned into. *)
Definition prompt_of (tc : test_case) : str :=
  build_prompt (question tc) (context tc).

(** The generated segment [generate_response] keeps of the decoded text. *)
Definition response_of (decoded : str) : str :=
  strip (if contains response_marker decoded
         then split_last response_marker decoded
         else decoded).

(** The result record of a test case is the one of that test case, for that
    model. *)
Definition result_of (tc : test_case) (m : model_type) (r : result) : Prop :=
  res_category r = category tc
  /\ res_question r = question tc
  /\ res_expected_keywords r = expected_keywords tc
  /\ res_difficulty r = difficulty tc
  /\ total_keywords r = length (expected_keywords tc)
  /\ res_model_type r = m.

(** The arguments with the [--no-comparison] flag set to [flag]. *)
Definition with_no_comparison (flag : bool) (a : args) : args :=
  {| arg_base_model := arg_base_model a;
     arg_fine_tuned_model := arg_fine_tuned_model a;
     arg_output := arg_output a;
     no_comparison := flag |}.

(** [l1] is [l2] with some elements left out: same order, same elements. *)
Inductive subsequence {A : Type} : list A -> list A -> Prop :=
| sub_nil : subsequence [] []
| sub_skip x l1 l2 : subsequence l1 l2 -> subsequence l1 (x :: l2)
| sub_take x l1 l2 : subsequence l1 l2 -> subsequence (x :: l1) (x :: l2).

(** The expected keywords whose lower-cased form is in the lower-cased
    response. *)
Definition found (lower : str -> str) (response : str)
    (expected_keywords : list str) : list str :=
  filter (fun k => contains (lower k) (lower response)) expected_keywords.

(** The mean score of a list of results: the sum of the scores over their
    number. *)
Definition mean (rs : list result) : Q :=
  (qsum (map score rs) / of_nat (length rs))%Q.

(** The model library never raises while generating. *)
Definition never_raises {env : Type}
    (infer : model_type -> str -> env -> outcome str * env) : Prop :=
  forall m p o, exists decoded o', infer m p o = (Ok decoded, o').

(** The generation calls of one pass over [tcs] with model [m]. *)
Definition generated (m : model_type) (tcs : list test_case) : list event :=
  map (fun tc => Generated m (prompt_of tc)) tcs.

(** The test cases [run_evaluation] works on. *)
Definition cases_of (test_cases : option (list test_case)) : list test_case :=
  match test_cases with
  | None => create_evaluation_tests
  | Some tcs => tcs
  end.

End Evaluator.

(** ** Sample instances for the closed examples *)

Module Samples.

Import Evaluator.

(** A case mapping on the ASCII letters. *)
Definition ascii_lower (s : str) : str :=
  map (fun c => if ((65 <=? c) && (c <=? 90))%N then (c + 32)%N else c) s.

(** A model library that answers with the prompt. *)
Definition echo (m : model_type) (prompt : str) (o : unit) : outcome str * unit :=
  (Ok prompt, o).

Definition no_files (p : str) (o : unit) : bool := false.

Definition load_nothing (b p : str) (o : unit) : outcome unit * unit := (Ok tt, o).

Definition blank_format (f : float_format) (q : Q) : str := [].

Definition blank_dump (r : results) : str := [].

Definition quiet_world : world unit :=
  {| outside := tt; events := []; stdout := []; written := [] |}.

Definition sample_args : args :=
  {| arg_base_model := lit "microsoft/DialoGPT-medium";
     arg_fine_tuned_model := lit "./memory-model";
     arg_output := lit "evaluation_results.json";
     no_comparison := true |}.

Definition sample_case : test_case :=
  {| category := lit "Authentication";
     question := lit "Which role is needed?";
     expected_keywords := [lit "Admin"; lit "Cognito"];
     context := lit "Role: admin";
     difficulty := lit "easy" |}.

(** A result with one expected keyword and the given score. *)
Definition scored (sc : Q) : result :=
  {| res_category := lit "Authentication"; res_question := lit "q";
     res_response := lit "r"; res_expected_keywords := [lit "Admin"];
     matched_keywords := if Qeq_bool sc 1 then [lit "Admin"] else [];
     matches := if Qeq_bool sc 1 then 1 else 0; total_keywords := 1;
     score := sc; res_difficulty := lit "easy"; res_model_type := fine_tuned |}.


(** A document with two top-level sections. *)
Definition two_sections : str :=
  lit "# Memory" ++ [nl] ++ lit "## A" ++ [nl] ++ lit "  text " ++ [nl]
  ++ lit "## B" ++ [nl] ++ lit "more".

End Samples.
Export Samples.

(** ** The summary of [evaluate_model.py] in binary64

    The arithmetic of [_calculate_summary] as the interpreter computes it:
    a Python [float] is an IEEE 754 binary64 number and every operation on
    floats is rounded to nearest, ties to even. These are the kernel's
    primitive floats. The module [Evaluator] above has the same code over
    the exact rationals that these operations round. *)

Module Binary64.

Import Evaluator.

(** [float(n)] for a length [n]: a Python list has fewer than 2^63
    elements. *)
Definition of_nat (n : nat) : float := PrimFloat.of_uint63 (Uint63.of_Z (Z.of_nat n)).

(** [x / n] for a float and a length: Python raises when [n] is 0. *)
Definition truediv_len (x : float) (n : nat) : outcome float :=
  match n with
  | O => Raise ZeroDivisionError
  | S _ => Ok (PrimFloat.div x (of_nat n))
  end.

(** [x / y] for two floats: Python raises when [y] is zero. *)
Definition truediv (x y : float) : outcome float :=
  if PrimFloat.eqb y 0 then Raise ZeroDivisionError else Ok (PrimFloat.div x y).

(** The keys of a result that [_calculate_summary] reads. A score is a
    float (the integer 0 of a test case without keywords counts as 0.0). *)
Record result : Type := mkResult {
  res_category : str;
  score : float;
  matches : nat
}.

Record model_summary : Type := mkModelSummary {
  average_score : float;
  total_matches : nat;
  perfect_scores : nat;
  zero_scores : nat;
  category_scores : list (str * float)
}.

Record improvement : Type := mkImprovement {
  score_improvement : float;
  percentage_improvement : float;
  better_performance : bool
}.

Record summary : Type := mkSummary {
  sum_fine_tuned : model_summary;
  sum_base_model : model_summary;
  sum_improvement : improvement
}.

(** [category_scores[category].append(score)], creating the entry at the
    end of the dict when the category is new. *)
Fixpoint add_score (cat : str) (sc : float) (d : list (str * list float))
    : list (str * list float) :=
  match d with
  | [] => [(cat, [sc])]
  | (c, l) :: d' =>
      if str_eqb c cat then (c, l ++ [sc]) :: d'
      else (c, l) :: add_score cat sc d'
  end.

Definition group_scores (rs : list result) : list (str * list float) :=
  fold_left (fun d r => add_score (res_category r) (score r) d) rs [].

(** [sum(1 for s in scores if p(s))] *)
Definition count_if (p : float -> bool) (scores : list float) : nat :=
  length (filter p scores).

Section Summary.

(** The builtin [sum] on a list of floats. How it adds is the
    interpreter's matter (CPython adds from left to right up to 3.11 and
    compensates the rounding errors from 3.12 on). *)
Variable sum : list float -> float.

Fixpoint average_each (d : list (str * list float)) : outcome (list (str * float)) :=
  match d with
  | [] => Ok []
  | (c, l) :: d' =>
      a <- truediv_len (sum l) (length l) ;;
      rest <- average_each d' ;;
      Ok ((c, a) :: rest)
  end.

Definition _calculate_category_scores (rs : list result)
    : outcome (list (str * float)) :=
  average_each (group_scores rs).

(** The body of the loop over the two model types. *)
Definition summarize (rs : list result) : outcome model_summary :=
  let scores := map score rs in
  let matches := map matches rs in
  avg <- truediv_len (sum scores) (length scores) ;;
  cats <- _calculate_category_scores rs ;;
  Ok {| average_score := avg;
        total_matches := fold_left Nat.add matches 0%nat;
        perfect_scores := count_if (fun s => PrimFloat.eqb s 1) scores;
        zero_scores := count_if (fun s => PrimFloat.eqb s 0) scores;
        category_scores := cats |}.

(** The improvement entry, from the two averages (the integer 0 of the
    [else] branch counts as 0.0). *)
Definition improve (ft_avg bm_avg : float) : outcome improvement :=
  pct <- (if PrimFloat.ltb 0 bm_avg
          then q <- truediv (PrimFloat.sub ft_avg bm_avg) bm_avg ;;
               Ok (PrimFloat.mul q 100)
          else Ok 0%float) ;;
  Ok {| score_improvement := PrimFloat.sub ft_avg bm_avg;
        percentage_improvement := pct;
        better_performance := PrimFloat.ltb bm_avg ft_avg |}.

Definition _calculate_summary (ft bm : list result) : outcome summary :=
  s_ft <- summarize ft ;;
  s_bm <- summarize bm ;;
  imp <- improve (average_score s_ft) (average_score s_bm) ;;
  Ok {| sum_fine_tuned := s_ft; sum_base_model := s_bm; sum_improvement := imp |}.

End Summary.

(** [sum] adding from left to right, from 0. *)
Definition sum_left (xs : list float) : float := fold_left PrimFloat.add xs 0%float.

(** A result of one category with the given score, out of one keyword. *)
Definition scored (sc : float) : result :=
  {| res_category := lit "Authentication"; score := sc;
     matches := if PrimFloat.eqb sc 1 then 1 else 0 |}.

End Binary64.

(** ** Vocabulary of the further properties *)

Module Shapes.

(** No character of [s] is a control character (below 32). *)
Definition control_free (s : str) : Prop := Forall (fun c => (32 <= c)%N) s.

(** The lookahead of [subsection_re] as a test on the rest of the subject. *)
Definition subsection_stop (s : str) : bool :=
  match strip_prefix (nl :: lit "### ") s with
  | Some _ => true
  | None => at_end s
  end.

(** A subsection [(name, content)] as it is written: the name is one line,
    the content holds no subsection heading and does not end in a line
    feed. *)
Definition well_formed_subsection (sub : str * str) : Prop :=
  ~ In nl (fst sub)
  /\ ~ occurs (nl :: lit "### ") (snd sub)
  /\ (forall c, snd sub <> c ++ [nl]).

(** [### <name>\n<content>] *)
Definition render_subsection (sub : str * str) : str :=
  lit "### " ++ fst sub ++ [nl] ++ snd sub.

(** What stands between two subsections: a line feed, or a line feed and a
    blank line. *)
Definition gap (blank : bool) : str := if blank then [nl; nl] else [nl].

(** A section body made of subsections, one after the other. *)
Definition render_subsections (blank : bool) (subs : list (str * str)) : str :=
  join (gap blank) (map render_subsection subs).

(** Before a blank line the content the pattern takes for a subsection
    holds the line feed that ends its last line. *)
Definition pad (blank : bool) (sub : str * str) : str * str :=
  if blank then (fst sub, snd sub ++ [nl]) else sub.

Fixpoint padded (blank : bool) (subs : list (str * str)) : list (str * str) :=
  match subs with
  | [] => []
  | sub :: rest =>
      match rest with
      | [] => [sub]
      | _ => pad blank sub :: padded blank rest
      end
  end.

(** A subsection whose content is a list of bullets. *)
Definition bullet_subsection (s : str * list ((str * str) * bool)) : str * str :=
  (fst s, render_bullets (snd s)).

Definition well_formed_bullet_subsection (s : str * list ((str * str) * bool))
    : Prop :=
  well_formed_subsection (bullet_subsection s)
  /\ Forall (fun it => well_formed_bullet (fst it)) (snd s).

Definition backtick : char := 96%N.

(** [```bash\n<commands>\n```] *)
Definition render_block (commands : str) : str :=
  (lit "```bash" ++ [nl]) ++ commands ++ (nl :: lit "```").

(** The content of a subsection made of fenced blocks, one after the
    other. *)
Definition render_blocks (blocks : list str) : str :=
  join [nl] (map render_block blocks).

(** The commands of a block: no line of them starts with a backtick. *)
Definition well_formed_commands (commands : str) : Prop :=
  ~ occurs [nl; backtick] commands.

(** A subsection whose content is a list of fenced blocks. *)
Definition block_subsection (s : str * list str) : str * str :=
  (fst s, render_blocks (snd s)).

Definition well_formed_block_subsection (s : str * list str) : Prop :=
  well_formed_subsection (block_subsection s)
  /\ Forall well_formed_commands (snd s).

(** [KEY=value]: the key a non-empty run of capitals and underscores, the
    value a non-empty run without line feed. *)
Definition well_formed_assignment (kv : str * str) : Prop :=
  fst kv <> [] /\ Forall (fun c => is_upper_or_underscore c = true) (fst kv)
  /\ snd kv <> [] /\ Forall (fun c => not_newline c = true) (snd kv).

Definition render_assignment (kv : str * str) : str :=
  fst kv ++ lit "=" ++ snd kv.

(** The content of a subsection made of assignments, one per line. *)
Definition render_assignments (kvs : list (str * str)) : str :=
  join [nl] (map render_assignment kvs).

(** A subsection whose content is a list of assignments. *)
Definition assignment_subsection (s : str * list (str * str)) : str * str :=
  (fst s, render_assignments (snd s)).

Definition well_formed_assignment_subsection (s : str * list (str * str)) : Prop :=
  well_formed_subsection (assignment_subsection s)
  /\ Forall well_formed_assignment (snd s).

(** The heading [h] that follows [pre] is the first occurrence of [h]: it
    occurs neither in [pre] nor across the end of [pre]. *)
Definition heading_first (h pre : str) : Prop := ~ occurs h (pre ++ removelast h).

Definition resolver_heading : str := lit "### GraphQL Resolver Priority".
Definition ui_heading : str := lit "### UI Conditional Rendering Patterns".
Definition credentials_heading : str := lit "### Working Credentials".
Definition access_heading : str := lit "### Access Requirements".

(** A blank line, a subsection heading and the bullets under it. *)
Definition bullets_under (heading : str) (items : list ((str * str) * bool)) : str :=
  [nl; nl] ++ heading ++ [nl] ++ render_bullets items.

(** The body of the architecture section: some text without hyphen, the
    bullets of the field patterns, then the subsection of the resolvers and
    the subsection of the rendering patterns. *)
Definition patterns_body (intro : str) (fields resolvers ui : list ((str * str) * bool))
    : str :=
  intro ++ render_bullets fields
  ++ bullets_under resolver_heading resolvers ++ bullets_under ui_heading ui.

(** The body of the authentication section: some text, the subsection of
    the credentials and the subsection of the access requirements. *)
Definition authentication_body (intro : str)
    (credentials access : list ((str * str) * bool)) : str :=
  intro ++ credentials_heading ++ [nl] ++ render_bullets credentials
  ++ bullets_under access_heading access.

End Shapes.
Export Shapes.

Module Aggregates.

Import Evaluator.

(** The distinct elements of [l] in the order of their first occurrence. *)
Fixpoint first_seen (l : list str) : list str :=
  match l with
  | [] => []
  | c :: l' => c :: filter (fun x => negb (str_eqb x c)) (first_seen l')
  end.

(** The scores of the results of category [c], in order. *)
Definition scores_in (c : str) (rs : list result) : list Q :=
  map score (filter (fun r => str_eqb (res_category r) c) rs).

(** The table [group_scores] builds: for each key, the scores of its
    results. *)
Definition grouped (keys : list str) (rs : list result) : list (str * list Q) :=
  map (fun c => (c, scores_in c rs)) keys.

(** The result record [evaluate_test_case] builds from a test case, a model
    tag and the response kept of the generated text. *)
Definition make_result (lower : str -> str) (tc : test_case) (m : model_type)
    (response : str) : result :=
  let matched := found lower response (expected_keywords tc) in
  {| res_category := category tc;
     res_question := question tc;
     res_response := response;
     res_expected_keywords := expected_keywords tc;
     matched_keywords := matched;
     matches := length matched;
     total_keywords := length (expected_keywords tc);
     score := match expected_keywords tc with
              | [] => 0%Q
              | _ => (of_nat (length matched)
                      / of_nat (length (expected_keywords tc)))%Q
              end;
     res_difficulty := difficulty tc;
     res_model_type := m |}.

(** A result whose numbers fit together: the score is in [0,1] and the
    match count is at most the number of expected keywords. *)
Definition sound_result (r : result) : Prop :=
  (0 <= score r <= 1)%Q /\ matches r <= total_keywords r.

(** The world after one generation call for [tc] with model [m]. *)
Definition after_call {env : Type}
    (infer : model_type -> str -> env -> outcome str * env)
    (tc : test_case) (m : model_type) (w : world env) : world env :=
  {| outside := snd (infer m (prompt_of tc) (outside w));
     events := events w ++ [Generated m (prompt_of tc)];
     stdout := stdout w;
     written := written w |}.

(** The world with more lines printed. *)
Definition printing {env : Type} (ls : list str) (w : world env) : world env :=
  {| outside := outside w; events := events w;
     stdout := stdout w ++ ls; written := written w |}.

(** Every generation call of a complete run, in order. *)
Definition all_calls (tcs : list test_case) : list event :=
  generated fine_tuned tcs ++ generated base_model tcs.

(** The event of loading the two models of the command line. *)
Definition load_event (a : args) : event :=
  Loaded (arg_base_model a) (arg_fine_tuned_model a).

End Aggregates.
Export Aggregates.

(** ** Sample documents for the closed examples *)

Module Documents.

(** An authentication section with its two subsections. *)
Definition credentials_doc : str :=
  lit "# Memory" ++ [nl]
  ++ lit "## Authentication Information" ++ [nl]
  ++ lit "### Working Credentials" ++ [nl]
  ++ lit "- **Email**: admin@example.com" ++ [nl] ++ [nl]
  ++ lit "### Access Requirements" ++ [nl]
  ++ lit "- **Role**: Admin" ++ [nl]
  ++ lit "## Next" ++ [nl].

(** What follows the heading of the credentials in that section. *)
Definition credentials_tail : str :=
  [nl] ++ lit "- **Email**: admin@example.com" ++ [nl] ++ [nl]
  ++ lit "### Access Requirements" ++ [nl]
  ++ lit "- **Role**: Admin".

Definition two_bullets : str :=
  lit "- **Port**: use 5433" ++ [nl] ++ lit "- **Volumes**: prune them".

Definition two_subsections : list (str * str) :=
  [ (lit "Docker", two_bullets); (lit "Notes", lit "free text") ].

Definition gotcha_subsections : list (str * list ((str * str) * bool)) :=
  [ (lit "Docker",
     [ ((lit "Port", lit "use 5433"), false);
       ((lit "Volumes", lit "prune them"), false) ]);
    (lit "Prisma", [ ((lit "Client", lit "regenerate it"), false) ]) ].

Definition gotchas_doc : str :=
  lit "# Memory" ++ [nl]
  ++ lit "## Environment Gotchas" ++ [nl] ++ [nl]
  ++ lit "### Docker" ++ [nl]
  ++ lit "- **Port**: use 5433" ++ [nl]
  ++ lit "- **Volumes**: prune them" ++ [nl] ++ [nl]
  ++ lit "### Prisma" ++ [nl]
  ++ lit "- **Client**: regenerate it" ++ [nl] ++ [nl]
  ++ lit "## Next" ++ [nl].

Definition command_subsections : list (str * list str) :=
  [ (lit "Start Services", [ lit "docker compose up -d"; lit "npm run dev" ]);
    (lit "Notes", []);
    (lit "Stop Services", [ lit "docker compose down" ]) ].

Definition commands_doc : str :=
  lit "## Critical Commands" ++ [nl]
  ++ lit "### Start Services" ++ [nl]
  ++ lit "```bash" ++ [nl] ++ lit "docker compose up -d" ++ [nl] ++ lit "```" ++ [nl]
  ++ lit "```bash" ++ [nl] ++ lit "npm run dev" ++ [nl] ++ lit "```" ++ [nl] ++ [nl]
  ++ lit "### Notes" ++ [nl] ++ [nl] ++ [nl]
  ++ lit "### Stop Services" ++ [nl]
  ++ lit "```bash" ++ [nl] ++ lit "docker compose down" ++ [nl] ++ lit "```" ++ [nl].

Definition config_subsections : list (str * list (str * str)) :=
  [ (lit "Database",
     [ (lit "DATABASE_URL", lit "postgres://localhost:5433/app");
       (lit "PGPORT", lit "5433") ]);
    (lit "Frontend", [ (lit "API_URL", lit "http://localhost:4000") ]) ].

Definition config_doc : str :=
  lit "## Environment Configuration" ++ [nl] ++ [nl]
  ++ lit "### Database" ++ [nl]
  ++ lit "DATABASE_URL=postgres://localhost:5433/app" ++ [nl]
  ++ lit "PGPORT=5433" ++ [nl] ++ [nl]
  ++ lit "### Frontend" ++ [nl]
  ++ lit "API_URL=http://localhost:4000" ++ [nl].

(** An architecture section with its field patterns and two subsections. *)
Definition architecture_doc : str :=
  lit "# Memory" ++ [nl]
  ++ lit "## Architecture Patterns Discovered" ++ [nl]
  ++ lit "### Field Implementation Patterns" ++ [nl]
  ++ lit "- **Estate Email Pattern**: nullable, then unique" ++ [nl] ++ [nl]
  ++ lit "### GraphQL Resolver Priority" ++ [nl]
  ++ lit "- **Field Resolvers**: run before defaults" ++ [nl] ++ [nl]
  ++ lit "### UI Conditional Rendering Patterns" ++ [nl]
  ++ lit "- **Empty State**: show a placeholder" ++ [nl] ++ [nl]
  ++ lit "## Next" ++ [nl].

Definition field_bullets : list ((str * str) * bool) :=
  [ ((lit "Estate Email Pattern", lit "nullable, then unique"), false) ].

Definition resolver_bullets : list ((str * str) * bool) :=
  [ ((lit "Field Resolvers", lit "run before defaults"), false) ].

Definition ui_bullets : list ((str * str) * bool) :=
  [ ((lit "Empty State", lit "show a placeholder"), false) ].

End Documents.
Export Documents.

(** ** Sample architecture sections made of bullets *)

Module BulletDocuments.




(** A last bullet with an empty description. *)
Definition final_empty_doc : str :=
  lit "## Architecture Patterns Discovered" ++ [nl]
  ++ lit "- **a**: x" ++ [nl]
  ++ lit "- **b**: " ++ [nl].

End BulletDocuments.
Export BulletDocuments.

(* ================================================================== *)
(** * Part II. Lemmas and theorems                                     *)
(* ================================================================== *)

(** ** Strings and the section lookup *)

Lemma strip_prefix_app (p s : str) : strip_prefix p (p ++ s) = Some s.
Proof.
  induction p as [|a p IH]; simpl; [reflexivity|].
  now rewrite N.eqb_refl.
Qed.

Lemma strip_prefix_Some (p s r : str) : strip_prefix p s = Some r -> s = p ++ r.
Proof.
  revert s; induction p as [|a p IH]; simpl; intros s H.
  - now inversion H.
  - destruct s as [|b s]; [discriminate|].
    destruct (N.eqb_spec a b) as [->|]; [|discriminate].
    now rewrite (IH _ H).
Qed.

Lemma strip_prefix_None (p s : str) :
  strip_prefix p s = None -> forall r, s <> p ++ r.
Proof.
  intros H r ->. rewrite strip_prefix_app in H. discriminate.
Qed.

Lemma split_at_first_Some (x s a b : str) :
  split_at_first x s = Some (a, b) ->
  s = a ++ x ++ b /\
  (forall a' b', s = a' ++ x ++ b' -> length a <= length a').
Proof.
  revert a b; induction s as [|c s IH]; intros a b; simpl.
  - destruct (strip_prefix x []) eqn:E; [|discriminate].
    intros H; inversion H; subst. apply strip_prefix_Some in E.
    split; [exact E|]. intros; simpl; lia.
  - destruct (strip_prefix x (c :: s)) eqn:E.
    + intros H; inversion H; subst. apply strip_prefix_Some in E.
      split; [exact E|]. intros; simpl; lia.
    + destruct (split_at_first x s) as [[a0 b0]|] eqn:E2; [|discriminate].
      intros H; inversion H; subst.
      destruct (IH _ _ eq_refl) as [-> Hmin]. split; [reflexivity|].
      intros a' b' H'. destruct a' as [|c' a'].
      * simpl in H'. exfalso. eapply strip_prefix_None; eauto.
      * simpl in H'. inversion H'; subst. simpl.
        specialize (Hmin _ _ H2). lia.
Qed.

Lemma split_at_first_None (x s : str) :
  split_at_first x s = None -> ~ occurs x s.
Proof.
  induction s as [|c s IH]; simpl.
  - destruct (strip_prefix x []) eqn:E; [discriminate|].
    intros _ [a [b H]]. destruct a; simpl in H.
    + eapply strip_prefix_None; eauto.
    + discriminate.
  - destruct (strip_prefix x (c :: s)) eqn:E; [discriminate|].
    destruct (split_at_first x s) as [[a0 b0]|] eqn:E2; [discriminate|].
    intros _ [a [b H]]. destruct a as [|c' a]; simpl in H.
    + eapply strip_prefix_None; eauto.
    + inversion H; subst. apply IH; [reflexivity|]. now exists a, b.
Qed.

Lemma contains_split (x s : str) :
  contains x s = match split_at_first x s with Some _ => true | None => false end.
Proof.
  induction s as [|c s IH]; simpl.
  - destruct (strip_prefix x []); reflexivity.
  - destruct (strip_prefix x (c :: s)); [reflexivity|].
    rewrite IH. destruct (split_at_first x s) as [[? ?]|]; reflexivity.
Qed.

Lemma contains_occurs (x s : str) : contains x s = true <-> occurs x s.
Proof.
  rewrite contains_split.
  destruct (split_at_first x s) as [[a b]|] eqn:E.
  - split; [|reflexivity]. intros _. exists a, b.
    now apply split_at_first_Some in E.
  - split; [discriminate|]. intros H. now apply split_at_first_None in E.
Qed.

Lemma split_at_first_complete (x s a b : str) :
  s = a ++ x ++ b ->
  (forall a' b', s = a' ++ x ++ b' -> length a <= length a') ->
  split_at_first x s = Some (a, b).
Proof.
  intros Hs Hmin.
  destruct (split_at_first x s) as [[a0 b0]|] eqn:E.
  - destruct (split_at_first_Some _ _ E) as [Hs0 Hmin0].
    pose proof (Hmin0 _ _ Hs). pose proof (Hmin _ _ Hs0).
    assert (Hlen : length a0 = length a) by lia.
    rewrite Hs in Hs0.
    assert (a = a0).
    { revert Hlen Hs0. clear. revert a0.
      induction a as [|c a IH]; destruct a0 as [|c0 a0]; simpl; try discriminate; auto.
      intros Hl Heq. inversion Heq; subst. f_equal. apply IH; auto. }
    subst a0. apply app_inv_head in Hs0. apply app_inv_head in Hs0. now subst.
  - exfalso. apply (split_at_first_None E). now exists a, b.
Qed.

Lemma until_from_stop (stop : str -> bool) (s : str) :
  s = until_stop stop s ++ from_stop stop s.
Proof.
  induction s as [|c s IH]; simpl.
  - destruct (stop []); reflexivity.
  - destruct (stop (c :: s)); [reflexivity|]. simpl. now f_equal.
Qed.

Lemma lazy_any_ext {A : Type} (k1 k2 : str -> option A) (s : str) :
  (forall x, k1 x = k2 x) -> lazy_any k1 s = lazy_any k2 s.
Proof.
  intros H. induction s as [|c s IH]; simpl; rewrite H; [reflexivity|].
  now rewrite IH.
Qed.

(** A lazy run followed by a test that holds at the end of the subject
    stops at the first place where the test holds. *)
Lemma lazy_any_stop {A : Type} (stop : str -> bool) (f : str -> A) (s : str) :
  stop [] = true ->
  lazy_any (fun x => if stop x then Some (f x) else None) s
  = Some (f (from_stop stop s)).
Proof.
  intros Hnil. induction s as [|c s IH]; simpl.
  - now rewrite Hnil.
  - destruct (stop (c :: s)); [reflexivity|]. exact IH.
Qed.

Lemma length_from_stop (stop : str -> bool) (s : str) :
  length s - length (from_stop stop s) = length (until_stop stop s).
Proof.
  rewrite (until_from_stop stop s) at 1. rewrite length_app. lia.
Qed.

Lemma firstn_until_stop (stop : str -> bool) (s : str) :
  firstn (length s - length (from_stop stop s)) s = until_stop stop s.
Proof.
  rewrite length_from_stop. rewrite (until_from_stop stop s) at 2.
  rewrite firstn_app, firstn_all, Nat.sub_diag. simpl. now rewrite app_nil_r.
Qed.

Lemma rmatch_ahead_heading {A : Type} (x : str) (c : list str)
    (k : str -> list str -> option A) :
  rmatch (Ahead (Alt (Lit top_heading) Eos)) x c k
  = if section_stop x then k x c else None.
Proof.
  cbn [rmatch]. unfold section_stop.
  destruct (strip_prefix top_heading x); [reflexivity|].
  destruct (at_end x); reflexivity.
Qed.

Lemma match_at_section (h s : str) :
  match_at (section_re h) s =
  match strip_prefix h s with
  | Some tail =>
      Some ([until_stop section_stop tail], from_stop section_stop tail)
  | None => None
  end.
Proof.
  unfold match_at, section_re. fold top_heading. cbn [rmatch].
  destruct (strip_prefix h s) as [tail|]; [|reflexivity].
  rewrite lazy_any_ext with
    (k2 := fun x => if section_stop x
                    then Some ([firstn (length tail - length x) tail], x)
                    else None).
  - rewrite lazy_any_stop by reflexivity. now rewrite firstn_until_stop.
  - intros x. apply (rmatch_ahead_heading x _ (fun s' caps => Some (caps, s'))).
Qed.

Lemma search_section (h doc : str) :
  search (section_re h) doc =
  match split_at_first h doc with
  | Some (_, tail) =>
      Some ([until_stop section_stop tail], from_stop section_stop tail)
  | None => None
  end.
Proof.
  induction doc as [|c doc IH].
  - cbn [search split_at_first]. rewrite match_at_section.
    destruct (strip_prefix h []); reflexivity.
  - cbn [search split_at_first]. rewrite match_at_section.
    destruct (strip_prefix h (c :: doc)); [reflexivity|].
    rewrite IH. destruct (split_at_first h doc) as [[? ?]|]; reflexivity.
Qed.

Lemma extract_section_eq (h doc : str) :
  _extract_section h doc =
  match split_at_first h doc with
  | Some (_, tail) => strip (until_stop section_stop tail)
  | None => []
  end.
Proof.
  unfold _extract_section. rewrite search_section.
  destruct (split_at_first h doc) as [[? ?]|]; reflexivity.
Qed.

Lemma lstrip_snoc (s : str) (c : char) :
  isspace c = true ->
  lstrip (s ++ [c]) = match lstrip s with [] => [] | t => t ++ [c] end.
Proof.
  intros Hc. induction s as [|a s IH]; simpl.
  - now rewrite Hc.
  - destruct (isspace a); [exact IH|reflexivity].
Qed.

Lemma rstrip_snoc (s : str) (c : char) :
  isspace c = true -> rstrip (s ++ [c]) = rstrip s.
Proof.
  intros Hc. unfold rstrip. rewrite rev_app_distr. simpl. now rewrite Hc.
Qed.

Lemma strip_snoc (s : str) (c : char) :
  isspace c = true -> strip (s ++ [c]) = strip s.
Proof.
  intros Hc. unfold strip. rewrite lstrip_snoc by exact Hc.
  destruct (lstrip s) as [|a t] eqn:E; [reflexivity|].
  now apply rstrip_snoc.
Qed.

Lemma until_stop_heading (tail body rest : str) :
  split_at_first top_heading tail = Some (body, rest) ->
  until_stop section_stop tail = body.
Proof.
  revert body rest. induction tail as [|c tail IH]; intros body rest.
  - cbn. discriminate.
  - cbn [split_at_first until_stop]. unfold section_stop at 1.
    destruct (strip_prefix top_heading (c :: tail)) eqn:E.
    + intros H; now inversion H.
    + destruct (split_at_first top_heading tail) as [[a b]|] eqn:E2; [|discriminate].
      intros H; inversion H; subst.
      assert (Hne : at_end (c :: tail) = false).
      { apply split_at_first_Some in E2. destruct E2 as [-> _].
        destruct a; reflexivity. }
      rewrite Hne. f_equal. eapply IH; reflexivity.
Qed.

Lemma until_stop_end (tail : str) :
  split_at_first top_heading tail = None ->
  until_stop section_stop tail = tail \/
  tail = until_stop section_stop tail ++ [nl].
Proof.
  induction tail as [|c tail IH].
  - intros _. left. reflexivity.
  - cbn [split_at_first until_stop]. unfold section_stop at 1 3.
    destruct (strip_prefix top_heading (c :: tail)) eqn:E; [discriminate|].
    destruct (split_at_first top_heading tail) as [[a b]|] eqn:E2; [discriminate|].
    intros _. destruct (at_end (c :: tail)) eqn:He.
    + right. destruct tail; [|discriminate]. simpl in He.
      apply N.eqb_eq in He. now subst.
    + destruct (IH eq_refl) as [H|H].
      * left. now rewrite H.
      * right. simpl. now f_equal.
Qed.

Lemma strip_until_stop_end (tail : str) :
  split_at_first top_heading tail = None ->
  strip (until_stop section_stop tail) = strip tail.
Proof.
  intros H. destruct (until_stop_end _ H) as [E|E].
  - now rewrite E.
  - rewrite E at 2. now rewrite strip_snoc.
Qed.

(** C1 (amended). The section lookup returns the text between the first
    occurrence of the heading and the next top-level heading (or the end of
    the document) with the white space at both ends removed, and the empty
    string when the heading does not occur. *)
Theorem extract_section_spec (header doc : str) :
  (forall pre tail body,
      doc = pre ++ header ++ tail ->
      (forall a b, doc = a ++ header ++ b -> length pre <= length a) ->
      up_to_next_heading tail body ->
      _extract_section header doc = strip body)
  /\ (~ occurs header doc -> _extract_section header doc = []).
Proof.
  split.
  - intros pre tail body Hdoc Hfirst Hbody.
    rewrite extract_section_eq, (split_at_first_complete _ _ _ Hdoc Hfirst).
    destruct Hbody as [[rest [Ht Hmin]]|[-> Hno]].
    + now rewrite (until_stop_heading _ (split_at_first_complete _ _ _ Ht Hmin)).
    + apply strip_until_stop_end.
      destruct (split_at_first top_heading tail) as [[a b]|] eqn:E; [|reflexivity].
      exfalso. apply Hno. exists a, b. now apply split_at_first_Some in E.
  - intros Hno. rewrite extract_section_eq.
    destruct (split_at_first header doc) as [[a b]|] eqn:E; [|reflexivity].
    exfalso. apply Hno. exists a, b. now apply split_at_first_Some in E.
Qed.

Lemma extract_section_spec_witness :
  _extract_section (lit "## A") two_sections = lit "text".
Proof.
  assert (E : split_at_first (lit "## A") two_sections
              = Some (lit "# Memory" ++ [nl],
                      [nl] ++ lit "  text " ++ [nl] ++ lit "## B" ++ [nl] ++ lit "more"))
    by reflexivity.
  assert (E2 : split_at_first top_heading
                 ([nl] ++ lit "  text " ++ [nl] ++ lit "## B" ++ [nl] ++ lit "more")
               = Some ([nl] ++ lit "  text ", lit "B" ++ [nl] ++ lit "more"))
    by reflexivity.
  destruct (extract_section_spec (lit "## A") two_sections) as [H _].
  rewrite (H (lit "# Memory" ++ [nl])
             ([nl] ++ lit "  text " ++ [nl] ++ lit "## B" ++ [nl] ++ lit "more")
             ([nl] ++ lit "  text ")).
  - reflexivity.
  - reflexivity.
  - exact (proj2 (split_at_first_Some _ _ E)).
  - left. exists (lit "B" ++ [nl] ++ lit "more"). split; [reflexivity|].
    exact (proj2 (split_at_first_Some _ _ E2)).
Defined.

(** C1 as stated fails: the text after the heading [## A] of this document
    is a line feed and [x]; the lookup returns [x] alone. *)
Lemma section_text_is_trimmed :
  let header := lit "## A" in
  let doc := lit "## A" ++ nl :: lit "x" in
  doc = [] ++ header ++ nl :: lit "x"
  /\ up_to_next_heading (nl :: lit "x") (nl :: lit "x")
  /\ _extract_section header doc = lit "x"
  /\ _extract_section header doc <> nl :: lit "x".
Proof.
  split; [reflexivity|]. split; [|split; [reflexivity|discriminate]].
  right. split; [reflexivity|]. now apply split_at_first_None.
Qed.


Lemma rmatch_ahead_bullet {A : Type} (x : str) (c : list str)
    (k : str -> list str -> option A) :
  rmatch (Ahead (Alt (Lit (nl :: lit "-")) (Alt (Lit [nl; nl]) Eos))) x c k
  = if bullet_stop x then k x c else None.
Proof.
  cbn [rmatch]. unfold bullet_stop.
  destruct (strip_prefix (nl :: lit "-") x); [reflexivity|].
  destruct (strip_prefix [nl; nl] x); [reflexivity|].
  destruct (at_end x); reflexivity.
Qed.

(** A lazy run followed by a literal stops at the first occurrence of the
    literal from which the rest of the pattern matches; here the rest always
    matches. *)
Lemma lazy_any_literal {A : Type} (p : str) (f : str -> str -> A) (s : str) :
  lazy_any (fun x => match strip_prefix p x with
                     | Some r => Some (f x r)
                     | None => None
                     end) s
  = match split_at_first p s with
    | Some (_, b) => Some (f (p ++ b) b)
    | None => None
    end.
Proof.
  induction s as [|c s IH]; cbn [lazy_any split_at_first].
  - destruct (strip_prefix p []) eqn:E; [|reflexivity].
    now rewrite <- (strip_prefix_Some _ _ E).
  - destruct (strip_prefix p (c :: s)) eqn:E.
    + now rewrite <- (strip_prefix_Some _ _ E).
    + rewrite IH. destruct (split_at_first p s) as [[? ?]|]; reflexivity.
Qed.

Lemma firstn_split_length (a b : str) :
  firstn (length (a ++ b) - length b) (a ++ b) = a.
Proof.
  rewrite length_app, Nat.add_sub, firstn_app, firstn_all, Nat.sub_diag.
  simpl. apply app_nil_r.
Qed.

Lemma match_at_bullet (s : str) :
  match_at bullet_re s =
  match strip_prefix (lit "- **") s with
  | Some s1 =>
      match split_at_first (lit "**: ") s1 with
      | Some (name, s3) =>
          Some ([name; until_stop bullet_stop s3], from_stop bullet_stop s3)
      | None => None
      end
  | None => None
  end.
Proof.
  unfold match_at, bullet_re. cbn [rmatch].
  destruct (strip_prefix (lit "- **") s) as [s1|]; [|reflexivity].
  rewrite lazy_any_ext with
    (k2 := fun x =>
             match strip_prefix (lit "**: ") x with
             | Some r =>
                 Some ([firstn (length s1 - length x) s1;
                        until_stop bullet_stop r], from_stop bullet_stop r)
             | None => None
             end).
  - rewrite lazy_any_literal.
    destruct (split_at_first (lit "**: ") s1) as [[name s3]|] eqn:E; [|reflexivity].
    apply split_at_first_Some in E. destruct E as [-> _].
    now rewrite firstn_split_length.
  - intros x. destruct (strip_prefix (lit "**: ") x) as [r|]; [|reflexivity].
    rewrite lazy_any_ext with
      (k2 := fun y =>
               if bullet_stop y
               then Some ([firstn (length s1 - length x) s1;
                           firstn (length r - length y) r], y)
               else None).
    + rewrite lazy_any_stop by reflexivity. now rewrite firstn_until_stop.
    + intros y.
      apply (rmatch_ahead_bullet y _ (fun s' caps => Some (caps, s'))).
Qed.

Lemma findall_from_skip (r : regex) (pre rest : str) :
  findall_from r (length pre) (pre ++ rest) = findall_from r 0 rest.
Proof.
  induction pre as [|c pre IH]; [reflexivity|]. exact IH.
Qed.

Lemma findall_from_match (r : regex) (m rest : str) (caps : list str) :
  m <> [] ->
  match_at r (m ++ rest) = Some (caps, rest) ->
  findall_from r 0 (m ++ rest) = caps :: findall_from r 0 rest.
Proof.
  intros Hm H. destruct m as [|c m]; [congruence|].
  change ((c :: m) ++ rest) with (c :: (m ++ rest)) in *.
  cbn [findall_from]. rewrite H. f_equal.
  replace (pred (length (c :: m ++ rest) - length rest)) with (length m).
  - apply findall_from_skip.
  - cbn [length]. rewrite length_app. lia.
Qed.

Lemma findall_from_miss (r : regex) (c : char) (s : str) :
  match_at r (c :: s) = None ->
  findall_from r 0 (c :: s) = findall_from r 0 s.
Proof.
  intros H. cbn [findall_from]. now rewrite H.
Qed.

Lemma split_at_first_fresh (p a b : str) (c : char) :
  ~ In c a ->
  split_at_first (c :: p) (a ++ (c :: p) ++ b) = Some (a, b).
Proof.
  intros Hc. induction a as [|x a IH].
  - change ([] ++ (c :: p) ++ b) with ((c :: p) ++ b).
    destruct ((c :: p) ++ b) eqn:E; cbn [split_at_first]; rewrite <- E;
      now rewrite strip_prefix_app.
  - change ((x :: a) ++ (c :: p) ++ b) with (x :: (a ++ (c :: p) ++ b)).
    cbn [split_at_first].
    assert (E : strip_prefix (c :: p) (x :: (a ++ (c :: p) ++ b)) = None).
    { cbn [strip_prefix]. destruct (N.eqb_spec c x) as [->|]; [|reflexivity].
      exfalso. apply Hc. now left. }
    rewrite E, IH; [reflexivity|]. intros Hin. apply Hc. now right.
Qed.

Lemma bullet_stop_inside (c : char) (d rest : str) :
  free_text (c :: d) = true -> bullet_stop ((c :: d) ++ rest) = false.
Proof.
  cbn [free_text]. unfold bullet_stop. change (lit "-") with [hyphen].
  destruct (N.eqb_spec c nl) as [->|Hc].
  - destruct d as [|c' d]; [discriminate|].
    intros H. apply andb_prop in H. destruct H as [H _].
    apply andb_prop in H. destruct H as [H1 H2].
    apply negb_true_iff in H1, H2.
    cbn [app strip_prefix at_end]. rewrite N.eqb_refl.
    now rewrite (N.eqb_sym hyphen c'), H1, (N.eqb_sym nl c'), H2.
  - intros _. cbn [app strip_prefix at_end].
    apply N.eqb_neq in Hc. rewrite (N.eqb_sym nl c), Hc.
    destruct (d ++ rest); reflexivity.
Qed.

Lemma free_text_tail (c : char) (d : str) :
  free_text (c :: d) = true -> free_text d = true.
Proof.
  cbn [free_text]. destruct (N.eqb c nl); [|trivial].
  destruct d; [discriminate|]. intros H. apply andb_prop in H. apply H.
Qed.

Lemma until_stop_free_text (d rest : str) :
  free_text d = true -> bullet_stop rest = true ->
  until_stop bullet_stop (d ++ rest) = d /\ from_stop bullet_stop (d ++ rest) = rest.
Proof.
  intros Hd Hrest. induction d as [|c d IH].
  - destruct rest; cbn [app until_stop from_stop]; rewrite Hrest; auto.
  - change ((c :: d) ++ rest) with (c :: (d ++ rest)).
    cbn [until_stop from_stop].
    change (c :: (d ++ rest)) with ((c :: d) ++ rest).
    rewrite (@bullet_stop_inside c d rest Hd).
    destruct (IH (@free_text_tail c d Hd)) as [-> ->]. auto.
Qed.

Lemma match_at_rendered_bullet (b : str * str) (rest : str) :
  well_formed_bullet b -> bullet_stop rest = true ->
  match_at bullet_re (render_bullet b ++ rest) = Some ([fst b; snd b], rest).
Proof.
  intros [Hname Hdesc] Hrest. rewrite match_at_bullet. unfold render_bullet.
  rewrite <- !app_assoc, strip_prefix_app.
  change (lit "**: ") with (asterisk :: lit "*: ").
  rewrite (@split_at_first_fresh (lit "*: ") (fst b) (snd b ++ rest) asterisk Hname).
  now destruct (@until_stop_free_text (snd b) rest Hdesc Hrest) as [-> ->].
Qed.

Lemma match_at_bullet_nl (x : str) : match_at bullet_re (nl :: x) = None.
Proof. rewrite match_at_bullet. reflexivity. Qed.

Lemma bullet_stop_separator (blank : bool) (rest : list ((str * str) * bool)) :
  bullet_stop
    ((if blank then [nl; nl] else match rest with [] => [] | _ => [nl] end)
     ++ render_bullets rest) = true.
Proof.
  destruct blank; [reflexivity|].
  destruct rest as [|[b bl] rest]; reflexivity.
Qed.

Lemma findall_separator (blank : bool) (rest : list ((str * str) * bool)) :
  findall_from bullet_re 0
    ((if blank then [nl; nl] else match rest with [] => [] | _ => [nl] end)
     ++ render_bullets rest)
  = findall_from bullet_re 0 (render_bullets rest).
Proof.
  destruct blank.
  - change ([nl; nl] ++ render_bullets rest)
      with (nl :: nl :: render_bullets rest).
    now rewrite !findall_from_miss by apply match_at_bullet_nl.
  - destruct rest as [|it rest]; [reflexivity|].
    change ([nl] ++ render_bullets (it :: rest))
      with (nl :: render_bullets (it :: rest)).
    now rewrite findall_from_miss by apply match_at_bullet_nl.
Qed.

Lemma findall_rendered_bullets (items : list ((str * str) * bool)) :
  Forall (fun it => well_formed_bullet (fst it)) items ->
  findall bullet_re (render_bullets items)
  = map (fun it => [fst (fst it); snd (fst it)]) items.
Proof.
  unfold findall. induction 1 as [|[b blank] rest Hb Hrest IH].
  - reflexivity.
  - cbn [render_bullets map fst snd].
    rewrite findall_from_match with (caps := [fst b; snd b]).
    + f_equal. rewrite findall_separator. exact IH.
    + unfold render_bullet. discriminate.
    + apply match_at_rendered_bullet; [exact Hb|apply bullet_stop_separator].
Qed.

Lemma append_each_app {X : Type} (f : X -> example) (xs : list X)
    (acc : list example) :
  append_each f xs acc = acc ++ map f xs.
Proof.
  unfold append_each. revert acc.
  induction xs as [|x xs IH]; intros acc; simpl.
  - now rewrite app_nil_r.
  - now rewrite IH, <- app_assoc.
Qed.


(** ** The evaluator: scoring *)

Import Evaluator.

Lemma subsequence_filter {A : Type} (p : A -> bool) (l : list A) :
  subsequence (filter p l) l.
Proof.
  induction l as [|x l IH]; simpl; [constructor|].
  destruct (p x); now constructor.
Qed.

Lemma fold_left_keep {A : Type} (p : A -> bool) (l acc : list A) :
  fold_left (fun acc x => if p x then acc ++ [x] else acc) l acc
  = acc ++ filter p l.
Proof.
  revert acc. induction l as [|x l IH]; intros acc; simpl.
  - now rewrite app_nil_r.
  - rewrite IH. destruct (p x); [|reflexivity].
    now rewrite <- app_assoc.
Qed.

Lemma of_nat_pos (n : nat) : (0 < of_nat (S n))%Q.
Proof. unfold of_nat, Qlt. simpl. lia. Qed.

Lemma truediv_of_nat (a : Q) (n : nat) :
  truediv a (of_nat (S n)) = Ok (a / of_nat (S n))%Q.
Proof.
  unfold truediv. destruct (Qeq_bool (of_nat (S n)) 0) eqn:E; [|reflexivity].
  apply Qeq_bool_eq in E. pose proof (of_nat_pos n) as H. rewrite E in H.
  now apply Qlt_irrefl in H.
Qed.

Lemma truediv_zero (a b : Q) : (b == 0)%Q -> truediv a b = Raise ZeroDivisionError.
Proof.
  intros H. unfold truediv. apply Qeq_eq_bool in H. now rewrite H.
Qed.

Lemma of_nat_le (m n : nat) : m <= n -> (of_nat m <= of_nat n)%Q.
Proof. intros H. unfold of_nat, Qle. simpl. lia. Qed.

Lemma ratio_bounds (m n : nat) :
  m <= S n -> (0 <= of_nat m / of_nat (S n) <= 1)%Q.
Proof.
  intros H. pose proof (of_nat_pos n) as Hpos. split.
  - apply Qle_shift_div_l; [exact Hpos|]. rewrite Qmult_0_l.
    change 0%Q with (of_nat 0). apply of_nat_le. lia.
  - apply Qle_shift_div_r; [exact Hpos|]. rewrite Qmult_1_l.
    now apply of_nat_le.
Qed.

Lemma filter_length_le {A : Type} (p : A -> bool) (l : list A) :
  length (filter p l) <= length l.
Proof.
  induction l as [|x l IH]; simpl; [lia|]. destruct (p x); simpl; lia.
Qed.

Section ScoringProofs.

Variable lower : str -> str.

Lemma evaluate_keywords_eq (response : str) (kws : list str) :
  evaluate_keywords lower response kws =
  Ok (length (found lower response kws),
      match kws with
      | [] => 0%Q
      | _ => (of_nat (length (found lower response kws)) / of_nat (length kws))%Q
      end,
      found lower response kws).
Proof.
  unfold evaluate_keywords. rewrite fold_left_keep. cbn [app]. fold (found lower response kws).
  destruct kws as [|k kws]; [reflexivity|].
  cbn [length]. now rewrite truediv_of_nat.
Qed.

(** C3. Keyword scoring: a keyword counts exactly when its lower-cased
    form is a substring of the lower-cased response; the score is the number
    of keywords found divided by the number expected; with no expected
    keyword the score is 0 and nothing is raised. *)
Theorem keyword_score_is_ratio (response : str) (kws : list str) :
  exists matched score,
    evaluate_keywords lower response kws = Ok (length matched, score, matched)
    /\ (forall k, In k matched <->
                  In k kws /\ occurs (lower k) (lower response))
    /\ matched = filter (fun k => contains (lower k) (lower response)) kws
    /\ (kws <> [] -> (score == of_nat (length matched) / of_nat (length kws))%Q)
    /\ (kws = [] -> score = 0%Q /\ evaluate_keywords lower response kws = Ok (0, 0%Q, [])).
Proof.
  eexists _, _. split; [apply evaluate_keywords_eq|].
  split; [|split; [reflexivity|split]].
  - intros k. unfold found. rewrite filter_In, contains_occurs. reflexivity.
  - intros Hne. destruct kws; [congruence|]. reflexivity.
  - intros ->. split; reflexivity.
Qed.

(** C9. The score lies in [0,1], the match count is the length of the
    matched list, and the matched list is a subsequence of the expected
    keywords: same order, same spelling. *)
Theorem keyword_score_invariants (response : str) (kws : list str) :
  exists matches score matched,
    evaluate_keywords lower response kws = Ok (matches, score, matched)
    /\ (0 <= score <= 1)%Q
    /\ matches = length matched
    /\ subsequence matched kws.
Proof.
  eexists _, _, _. split; [apply evaluate_keywords_eq|].
  split; [|split; [reflexivity|apply subsequence_filter]].
  destruct kws as [|k kws].
  - split; discriminate.
  - apply ratio_bounds. apply (filter_length_le _ (k :: kws)).
Qed.

End ScoringProofs.


(** ** The evaluator: aggregation *)

Lemma add_score_nonempty (cat : str) (sc : Q) (d : list (str * list Q)) :
  Forall (fun e => snd e <> []) d ->
  Forall (fun e => snd e <> []) (add_score cat sc d).
Proof.
  induction 1 as [|[c l] d Hl Hd IH]; simpl.
  - constructor; [discriminate|constructor].
  - destruct (str_eqb c cat); constructor; auto.
    simpl. now destruct l.
Qed.

Lemma group_scores_nonempty (rs : list result) :
  Forall (fun e => snd e <> []) (group_scores rs).
Proof.
  unfold group_scores.
  assert (H : Forall (fun e : str * list Q => snd e <> []) []) by constructor.
  revert H. generalize (@nil (str * list Q)).
  induction rs as [|r rs IH]; intros d Hd; simpl; [exact Hd|].
  apply IH. now apply add_score_nonempty.
Qed.

Lemma average_each_ok (d : list (str * list Q)) :
  Forall (fun e => snd e <> []) d -> exists cats, average_each d = Ok cats.
Proof.
  induction 1 as [|[c l] d Hl Hd [cats IH]]; simpl.
  - now eexists.
  - destruct l as [|x l]; [now elim Hl|].
    cbn [length]. rewrite truediv_of_nat. simpl. rewrite IH. simpl. now eexists.
Qed.

Lemma category_scores_ok (rs : list result) :
  exists cats, _calculate_category_scores rs = Ok cats.
Proof. apply average_each_ok, group_scores_nonempty. Qed.

Lemma summarize_ok (rs : list result) :
  rs <> [] ->
  exists s, summarize rs = Ok s /\ average_score s = mean rs.
Proof.
  intros Hne. unfold summarize, mean. rewrite length_map.
  destruct rs as [|r rs]; [congruence|]. cbn [length].
  rewrite truediv_of_nat. cbn [obind].
  destruct (category_scores_ok (r :: rs)) as [cats ->]. cbn [obind].
  eexists. split; reflexivity.
Qed.

Lemma summarize_empty : summarize [] = Raise ZeroDivisionError.
Proof. reflexivity. Qed.

Lemma qsum_from_nonneg (xs : list Q) (a : Q) :
  (forall x, In x xs -> (0 <= x)%Q) -> (a <= fold_left Qplus xs a)%Q.
Proof.
  revert a. induction xs as [|x xs IH]; intros a H; simpl.
  - apply Qle_refl.
  - eapply Qle_trans; [|apply IH; intros y Hy; apply H; now right].
    rewrite <- (Qplus_0_r a) at 1. apply Qplus_le_r. apply H. now left.
Qed.

Lemma mean_nonneg (rs : list result) :
  rs <> [] -> (forall r, In r rs -> (0 <= score r)%Q) -> (0 <= mean rs)%Q.
Proof.
  intros Hne H. unfold mean. destruct rs as [|r rs]; [congruence|].
  cbn [length]. apply Qle_shift_div_l; [apply of_nat_pos|].
  rewrite Qmult_0_l. apply qsum_from_nonneg.
  intros x Hx. apply in_map_iff in Hx. destruct Hx as [r' [<- Hr']]. now apply H.
Qed.

Lemma Qgtb_true (a b : Q) : Qgtb a b = true <-> (b < a)%Q.
Proof.
  unfold Qgtb. rewrite negb_true_iff. split.
  - intros H. apply Qnot_le_lt. intros Hle. apply Qle_bool_iff in Hle. congruence.
  - intros H. destruct (Qle_bool a b) eqn:E; [|reflexivity].
    apply Qle_bool_iff in E. exfalso. eapply Qlt_irrefl, Qlt_le_trans; eauto.
Qed.

Lemma Qgtb_false (a b : Q) : Qgtb a b = false <-> (a <= b)%Q.
Proof.
  unfold Qgtb. rewrite negb_false_iff. apply Qle_bool_iff.
Qed.

Lemma truediv_nonzero (a b : Q) : ~ (b == 0)%Q -> truediv a b = Ok (a / b)%Q.
Proof.
  intros H. unfold truediv. destruct (Qeq_bool b 0) eqn:E; [|reflexivity].
  apply Qeq_bool_eq in E. contradiction.
Qed.

Lemma improve_positive (a b : Q) :
  (0 < b)%Q ->
  improve a b = Ok {| score_improvement := (a - b)%Q;
                      percentage_improvement := ((a - b) / b * 100)%Q;
                      better_performance := Qgtb a b |}.
Proof.
  intros Hb. unfold improve. rewrite (proj2 (Qgtb_true b 0) Hb).
  rewrite truediv_nonzero; [reflexivity|].
  intros E. rewrite E in Hb. now apply Qlt_irrefl in Hb.
Qed.

Lemma improve_not_positive (a b : Q) :
  (b <= 0)%Q ->
  improve a b = Ok {| score_improvement := (a - b)%Q;
                      percentage_improvement := 0%Q;
                      better_performance := Qgtb a b |}.
Proof.
  intros Hb. unfold improve. now rewrite (proj2 (Qgtb_false b 0) Hb).
Qed.

Lemma calculate_summary_ok (ft bm : list result) :
  ft <> [] -> bm <> [] ->
  exists s, _calculate_summary ft bm = Ok s
            /\ average_score (sum_fine_tuned s) = mean ft
            /\ average_score (sum_base_model s) = mean bm
            /\ improve (mean ft) (mean bm) = Ok (sum_improvement s).
Proof.
  intros Hft Hbm. unfold _calculate_summary.
  destruct (summarize_ok Hft) as [sf [-> Ef]].
  destruct (summarize_ok Hbm) as [sb [-> Eb]]. cbn [obind].
  rewrite Ef, Eb.
  assert (Hi : exists imp, improve (mean ft) (mean bm) = Ok imp).
  { destruct (Qlt_le_dec 0 (mean bm)) as [Hpos|Hle].
    - rewrite (improve_positive _ Hpos). now eexists.
    - rewrite (improve_not_positive _ Hle). now eexists. }
  destruct Hi as [imp Hi].
  exists {| sum_fine_tuned := sf; sum_base_model := sb; sum_improvement := imp |}.
  rewrite Hi. cbn. auto.
Qed.

Lemma calculate_summary_empty (ft bm : list result) :
  ft = [] \/ bm = [] -> _calculate_summary ft bm = Raise ZeroDivisionError.
Proof.
  unfold _calculate_summary. intros [->| ->]; [reflexivity|].
  destruct ft as [|r ft]; [reflexivity|].
  destruct (@summarize_ok (r :: ft)) as [s [-> _]]; [discriminate|]. reflexivity.
Qed.

(** ** The summary in binary64 *)

Section Binary64Proofs.

Import Binary64.

Variable sum : list float -> float.

(** A float greater than zero is not zero: the test [bm_avg > 0] keeps the
    division from raising. *)
Lemma positive_not_zero (x : float) :
  PrimFloat.ltb 0 x = true -> PrimFloat.eqb x 0 = false.
Proof.
  rewrite ltb_spec, eqb_spec.
  change (Prim2SF 0) with (S754_zero false).
  destruct (Prim2SF x) as [s|s| |s m e]; try destruct s; cbn; congruence.
Qed.

Lemma zero_not_positive (x : float) :
  PrimFloat.eqb x 0 = true -> PrimFloat.ltb 0 x = false.
Proof.
  intros E. destruct (PrimFloat.ltb 0 x) eqn:L; [|reflexivity].
  apply positive_not_zero in L. congruence.
Qed.

Lemma binary64_add_score_nonempty (cat : str) (sc : float)
    (d : list (str * list float)) :
  Forall (fun e => snd e <> []) d ->
  Forall (fun e => snd e <> []) (add_score cat sc d).
Proof.
  induction 1 as [|[c l] d Hl Hd IH]; simpl.
  - constructor; [discriminate|constructor].
  - destruct (str_eqb c cat); constructor; auto.
    simpl. now destruct l.
Qed.

Lemma binary64_group_scores_nonempty (rs : list result) :
  Forall (fun e => snd e <> []) (group_scores rs).
Proof.
  unfold group_scores.
  assert (H : Forall (fun e : str * list float => snd e <> []) []) by constructor.
  revert H. generalize (@nil (str * list float)).
  induction rs as [|r rs IH]; intros d Hd; simpl; [exact Hd|].
  apply IH. now apply binary64_add_score_nonempty.
Qed.

Lemma binary64_average_each_ok (d : list (str * list float)) :
  Forall (fun e => snd e <> []) d -> exists cats, average_each sum d = Ok cats.
Proof.
  induction 1 as [|[c l] d Hl Hd [cats IH]]; cbn [average_each].
  - now eexists.
  - destruct l as [|x l]; [now elim Hl|].
    cbn [length truediv_len obind snd]. rewrite IH. cbn [obind]. now eexists.
Qed.

Lemma binary64_summarize_ok (rs : list result) :
  rs <> [] ->
  exists s, summarize sum rs = Ok s
            /\ average_score s
               = PrimFloat.div (sum (map score rs)) (of_nat (length rs)).
Proof.
  intros Hne. unfold summarize. cbv zeta. rewrite length_map.
  destruct rs as [|r rs]; [congruence|]. cbn [length truediv_len obind].
  unfold _calculate_category_scores.
  destruct (binary64_average_each_ok (binary64_group_scores_nonempty (r :: rs)))
    as [cats ->].
  cbn [obind]. eexists. split; reflexivity.
Qed.

(** The improvement entry never raises. *)
Lemma binary64_improve_ok (a b : float) :
  improve a b
  = Ok {| score_improvement := PrimFloat.sub a b;
          percentage_improvement :=
            if PrimFloat.ltb 0 b
            then PrimFloat.mul (PrimFloat.div (PrimFloat.sub a b) b) 100
            else 0%float;
          better_performance := PrimFloat.ltb b a |}.
Proof.
  unfold improve. destruct (PrimFloat.ltb 0 b) eqn:L; [|reflexivity].
  unfold truediv. now rewrite (@positive_not_zero b L).
Qed.

(** C4 (amended). For two non-empty result lists the summary is computed
    and its improvement entry is made of the two averages it stores, each
    the sum of the scores divided by their number, with the operations of
    binary64: the score improvement is the fine-tuned average minus the base
    average; the percentage is that difference divided by the base average
    and multiplied by 100 when the base average is greater than 0, and 0
    otherwise, in particular when the base average is zero: the division
    never raises; the flag tells whether the fine-tuned average is greater
    than the base average. *)
Theorem improvement_in_binary64 (ft bm : list result) :
  ft <> [] -> bm <> [] ->
  exists s,
    _calculate_summary sum ft bm = Ok s
    /\ let ft_avg := average_score (sum_fine_tuned s) in
       let bm_avg := average_score (sum_base_model s) in
       let imp := sum_improvement s in
       ft_avg = PrimFloat.div (sum (map score ft)) (of_nat (length ft))
       /\ bm_avg = PrimFloat.div (sum (map score bm)) (of_nat (length bm))
       /\ score_improvement imp = PrimFloat.sub ft_avg bm_avg
       /\ (PrimFloat.ltb 0 bm_avg = true ->
           percentage_improvement imp
           = PrimFloat.mul (PrimFloat.div (PrimFloat.sub ft_avg bm_avg) bm_avg) 100)
       /\ (PrimFloat.ltb 0 bm_avg = false ->
           percentage_improvement imp = 0%float)
       /\ (PrimFloat.eqb bm_avg 0 = true ->
           percentage_improvement imp = 0%float)
       /\ better_performance imp = PrimFloat.ltb bm_avg ft_avg.
Proof.
  intros Hft Hbm. unfold _calculate_summary.
  destruct (binary64_summarize_ok Hft) as [sf [-> Ef]].
  destruct (binary64_summarize_ok Hbm) as [sb [-> Eb]].
  cbn [obind]. rewrite binary64_improve_ok. cbn [obind].
  eexists. split; [reflexivity|].
  cbv zeta.
  cbn [sum_fine_tuned sum_base_model sum_improvement score_improvement
       percentage_improvement better_performance].
  split; [exact Ef|]. split; [exact Eb|]. split; [reflexivity|].
  split; [now intros ->|]. split; [now intros ->|].
  split; [|reflexivity].
  intros E. now rewrite (@zero_not_positive _ E).
Qed.

End Binary64Proofs.

Lemma improvement_in_binary64_witness :
  let ft := map Binary64.scored [1; 1; 1; 0; 0]%float in
  let bm := map Binary64.scored [1; 0; 0; 0; 0]%float in
  exists s,
    Binary64._calculate_summary Binary64.sum_left ft bm = Ok s
    /\ Binary64.average_score (Binary64.sum_fine_tuned s) = (3 / 5)%float
    /\ Binary64.average_score (Binary64.sum_base_model s) = (1 / 5)%float
    /\ Binary64.score_improvement (Binary64.sum_improvement s)
       = (3 / 5 - 1 / 5)%float
    /\ Binary64.percentage_improvement (Binary64.sum_improvement s)
       = ((3 / 5 - 1 / 5) / (1 / 5) * 100)%float
    /\ Binary64.better_performance (Binary64.sum_improvement s) = true.
Proof.
  intros ft bm.
  assert (Hft : ft <> []) by discriminate.
  assert (Hbm : bm <> []) by discriminate.
  destruct (@improvement_in_binary64 Binary64.sum_left ft bm Hft Hbm)
    as [s [Hs H]].
  cbv zeta in H. destruct H as [Ef [Eb [Ei [Ep [_ [_ Et]]]]]].
  exists s. split; [exact Hs|].
  assert (Ef' : Binary64.average_score (Binary64.sum_fine_tuned s) = (3 / 5)%float)
    by (rewrite Ef; reflexivity).
  assert (Eb' : Binary64.average_score (Binary64.sum_base_model s) = (1 / 5)%float)
    by (rewrite Eb; reflexivity).
  split; [exact Ef'|]. split; [exact Eb'|].
  rewrite Ei, Et, Ep by (rewrite Eb'; reflexivity).
  rewrite Ef', Eb'. repeat split; reflexivity.
Defined.

(** C4 as stated fails. With a fine-tuned average of 0.60 and a base
    average of 0.20 (three and one score of 1.0 out of five, the others 0.0:
    the sums are exact however they are added), the summary holds a score
    improvement of 0.39999999999999997 and a percentage of
    199.99999999999997: neither is the float 0.40 or 200.0. *)
Lemma scenario_is_rounded :
  let ft := map Binary64.scored [1; 1; 1; 0; 0]%float in
  let bm := map Binary64.scored [1; 0; 0; 0; 0]%float in
  Binary64._calculate_summary Binary64.sum_left ft bm
  = Ok {| Binary64.sum_fine_tuned :=
            {| Binary64.average_score := (3 / 5)%float;
               Binary64.total_matches := 3;
               Binary64.perfect_scores := 3;
               Binary64.zero_scores := 2;
               Binary64.category_scores := [(lit "Authentication", (3 / 5)%float)] |};
          Binary64.sum_base_model :=
            {| Binary64.average_score := (1 / 5)%float;
               Binary64.total_matches := 1;
               Binary64.perfect_scores := 1;
               Binary64.zero_scores := 4;
               Binary64.category_scores := [(lit "Authentication", (1 / 5)%float)] |};
          Binary64.sum_improvement :=
            {| Binary64.score_improvement := 0x1.9999999999999p-2%float;
               Binary64.percentage_improvement := 0x1.8ffffffffffffp+7%float;
               Binary64.better_performance := true |} |}
  /\ PrimFloat.eqb 0x1.9999999999999p-2 (2 / 5) = false
  /\ PrimFloat.eqb 0x1.8ffffffffffffp+7 200 = false
  /\ PrimFloat.ltb 0x1.9999999999999p-2 (2 / 5) = true
  /\ PrimFloat.ltb 0x1.8ffffffffffffp+7 200 = true.
Proof. repeat split. Qed.

(** The flag compares the computed averages. Adding from left to right,
    the scores 1/5 and 2/5 sum to 0.6000000000000001, above the score 3/5 of
    the other list: the flag is set, although the two averages are equal over
    the rationals. *)
Lemma flag_of_computed_means :
  let ft := map Binary64.scored [1 / 5; 2 / 5; 0; 0; 0]%float in
  let bm := map Binary64.scored [3 / 5; 0; 0; 0; 0]%float in
  match Binary64._calculate_summary Binary64.sum_left ft bm with
  | Ok s => Binary64.better_performance (Binary64.sum_improvement s)
  | Raise _ => false
  end = true
  /\ match _calculate_summary (map scored [1 # 5; 2 # 5; 0; 0; 0]%Q)
             (map scored [3 # 5; 0; 0; 0; 0]%Q) with
     | Ok s => better_performance (sum_improvement s)
     | Raise _ => true
     end = false.
Proof. split; reflexivity. Qed.

(** ** The evaluator: a run *)

Section RunProofs.

Variable lower : str -> str.
Variable env : Type.
Variable path_exists : str -> env -> bool.
Variable load : str -> str -> env -> outcome unit * env.
Variable infer : model_type -> str -> env -> outcome str * env.
Variable upper : str -> str.
Variable format_float : float_format -> Q -> str.
Variable dump_results : results -> str.

Lemma evaluate_test_case_step (tc : test_case) (m : model_type) (w : world env) :
  exists o,
    let w1 := {| outside := o;
                 events := events w ++ [Generated m (prompt_of tc)];
                 stdout := stdout w; written := written w |} in
    (exists e, infer m (prompt_of tc) (outside w) = (Raise e, o)
               /\ evaluate_test_case lower infer tc m w = (Raise e, w1))
    \/ (exists decoded r,
           infer m (prompt_of tc) (outside w) = (Ok decoded, o)
           /\ evaluate_test_case lower infer tc m w = (Ok r, w1)
           /\ result_of tc m r).
Proof.
  unfold evaluate_test_case, bind, generate_response, prompt_of.
  destruct (infer m (build_prompt (question tc) (context tc)) (outside w))
    as [[decoded|e] o] eqn:E; exists o; cbn zeta.
  - right. exists decoded. unfold lift. rewrite evaluate_keywords_eq.
    eexists. split; [reflexivity|]. split; [reflexivity|].
    repeat split.
  - left. exists e. split; reflexivity.
Qed.

Lemma evaluate_each_ok (m : model_type) (tcs : list test_case) :
  forall (acc : list result) (w w' : world env) (rs : list result),
    evaluate_each lower infer m tcs acc w = (Ok rs, w') ->
    exists new,
      rs = acc ++ new
      /\ Forall2 (fun tc r => result_of tc m r) tcs new
      /\ events w' = events w ++ generated m tcs
      /\ stdout w' = stdout w
      /\ written w' = written w.
Proof.
  induction tcs as [|tc tcs IH]; intros acc w w' rs H.
  - cbn in H. injection H as <- <-. exists []. rewrite !app_nil_r.
    repeat split. constructor.
  - cbn [evaluate_each] in H. unfold bind at 1 in H.
    destruct (evaluate_test_case_step tc m w) as [o [[e [_ E]]|[d [r [_ [E Hr]]]]]];
      cbn zeta in E; rewrite E in H; [discriminate|].
    apply IH in H. destruct H as [new [-> [Hall [Hev [Hout Hwr]]]]].
    exists (r :: new). rewrite <- app_assoc. split; [reflexivity|].
    split; [now constructor|]. cbn [events stdout written] in *.
    rewrite Hev, <- app_assoc. repeat split; assumption.
Qed.

Lemma evaluate_each_total (m : model_type) (tcs : list test_case) :
  never_raises infer ->
  forall (acc : list result) (w : world env),
    exists rs w', evaluate_each lower infer m tcs acc w = (Ok rs, w').
Proof.
  intros Hq. induction tcs as [|tc tcs IH]; intros acc w.
  - now eexists _, _.
  - cbn [evaluate_each]. unfold bind at 1.
    destruct (evaluate_test_case_step tc m w) as [o [[e [Hi _]]|[d [r [_ [E _]]]]]].
    + destruct (Hq m (prompt_of tc) (outside w)) as [d [o' Hd]]. congruence.
    + cbn zeta in E. rewrite E. apply IH.
Qed.

Lemma Forall2_length_eq {A B : Type} (P : A -> B -> Prop) (l1 : list A)
    (l2 : list B) :
  Forall2 P l1 l2 -> length l1 = length l2.
Proof. induction 1; simpl; congruence. Qed.

Lemma run_evaluation_ok (test_cases : option (list test_case))
    (w w' : world env) (r : results) :
  run_evaluation lower infer test_cases w = (Ok r, w') ->
  Forall2 (fun tc x => result_of tc fine_tuned x) (cases_of test_cases)
    (results_fine_tuned r)
  /\ Forall2 (fun tc x => result_of tc base_model x) (cases_of test_cases)
       (results_base_model r)
  /\ events w' = events w ++ generated fine_tuned (cases_of test_cases)
                 ++ generated base_model (cases_of test_cases)
  /\ _calculate_summary (results_fine_tuned r) (results_base_model r)
     = Ok (results_summary r).
Proof.
  unfold run_evaluation. fold (cases_of test_cases).
  generalize (cases_of test_cases) as tcs. intros tcs H.
  unfold bind at 1 in H. cbn [print] in H.
  unfold bind at 1 in H.
  destruct (evaluate_each lower infer fine_tuned tcs [] _) as [[ft|e] w1] eqn:E1;
    [|discriminate].
  apply evaluate_each_ok in E1. destruct E1 as [new1 [-> [H1 [Ev1 _]]]].
  unfold bind at 1 in H. cbn [print] in H.
  unfold bind at 1 in H.
  destruct (evaluate_each lower infer base_model tcs [] _) as [[bm|e] w2] eqn:E2;
    [|discriminate].
  apply evaluate_each_ok in E2. destruct E2 as [new2 [-> [H2 [Ev2 _]]]].
  unfold bind at 1, lift in H.
  destruct (_calculate_summary ([] ++ new1) ([] ++ new2)) as [s|e] eqn:E3;
    [|discriminate].
  unfold ret in H. injection H as <- <-.
  cbn [results_fine_tuned results_base_model results_summary app].
  cbn [app] in E3. cbn [events] in Ev1, Ev2.
  repeat split; try assumption.
  now rewrite Ev2, Ev1, <- app_assoc.
Qed.

Lemma run_evaluation_total (test_cases : option (list test_case)) (w : world env) :
  never_raises infer -> cases_of test_cases <> [] ->
  exists r w', run_evaluation lower infer test_cases w = (Ok r, w').
Proof.
  intros Hq Hne. unfold run_evaluation. fold (cases_of test_cases).
  revert Hne. generalize (cases_of test_cases) as tcs. intros tcs Hne.
  unfold bind at 1. cbn [print]. unfold bind at 1.
  destruct (evaluate_each_total fine_tuned tcs Hq []
              {| outside := outside w; events := events w;
                 stdout := stdout w ++ [lit "Running evaluation on fine-tuned model..."];
                 written := written w |}) as [ft [w1 E1]].
  rewrite E1. unfold bind at 1. cbn [print]. unfold bind at 1.
  destruct (evaluate_each_total base_model tcs Hq []
              {| outside := outside w1; events := events w1;
                 stdout := stdout w1
                           ++ [lit "Running evaluation on base model for comparison..."];
                 written := written w1 |}) as [bm [w2 E2]].
  rewrite E2. unfold bind at 1, lift.
  apply evaluate_each_ok in E1, E2.
  destruct E1 as [n1 [-> [H1 _]]]. destruct E2 as [n2 [-> [H2 _]]].
  cbn [app].
  apply Forall2_length_eq in H1, H2.
  destruct (@calculate_summary_ok n1 n2) as [s [-> _]].
  - destruct tcs; [congruence|]. destruct n1; [discriminate|]. discriminate.
  - destruct tcs; [congruence|]. destruct n2; [discriminate|]. discriminate.
  - now eexists _, _.
Qed.

Lemma run_evaluation_empty (w : world env) :
  fst (run_evaluation lower infer (Some []) w) = Raise ZeroDivisionError.
Proof. reflexivity. Qed.

End RunProofs.


Section RunTheorems.

Variable lower : str -> str.
Variable env : Type.
Variable path_exists : str -> env -> bool.
Variable load : str -> str -> env -> outcome unit * env.
Variable infer : model_type -> str -> env -> outcome str * env.
Variable upper : str -> str.
Variable format_float : float_format -> Q -> str.
Variable dump_results : results -> str.

(** C6. A run that completes has made two full passes over the test cases,
    the fine-tuned model first and the base model second: two result lists,
    one result per test case and in the order of the test cases, and the
    generation calls in that order. With a model library that does not raise
    the run over the fixed list completes. The [--no-comparison] flag changes
    nothing: [main] does the same with either value. *)
Theorem two_full_passes :
  (forall test_cases (w w' : world env) r,
      run_evaluation lower infer test_cases w = (Ok r, w') ->
      Forall2 (fun tc x => result_of tc fine_tuned x) (cases_of test_cases)
        (results_fine_tuned r)
      /\ Forall2 (fun tc x => result_of tc base_model x) (cases_of test_cases)
           (results_base_model r)
      /\ length (results_fine_tuned r) = length (results_base_model r)
      /\ events w' = events w ++ generated fine_tuned (cases_of test_cases)
                     ++ generated base_model (cases_of test_cases))
  /\ (never_raises infer ->
      forall w : world env,
        exists r w', run_evaluation lower infer None w = (Ok r, w'))
  /\ (forall flag a (w : world env),
        main lower path_exists load infer upper format_float dump_results
          (with_no_comparison flag a) w
        = main lower path_exists load infer upper format_float dump_results a w).
Proof.
  split; [|split].
  - intros tcs w w' r H. apply run_evaluation_ok in H.
    destruct H as [H1 [H2 [Hev _]]]. repeat split; try assumption.
    apply Forall2_length_eq in H1, H2. congruence.
  - intros Hq w. apply run_evaluation_total; [exact Hq|discriminate].
  - intros flag a w. reflexivity.
Qed.

(** C7. When the fine-tuned model directory does not exist, [main] prints
    one line that names the path and returns 1; nothing is loaded and
    nothing is generated. *)
Theorem missing_model_directory (a : args) (w : world env) :
  path_exists (arg_fine_tuned_model a) (outside w) = false ->
  main lower path_exists load infer upper format_float dump_results a w
  = (Ok 1%Z,
     {| outside := outside w;
        events := events w;
        stdout := stdout w
                  ++ [lit "Error: Fine-tuned model directory '"
                      ++ arg_fine_tuned_model a ++ lit "' not found"];
        written := written w |}).
Proof.
  intros H. unfold main. rewrite H. reflexivity.
Qed.

(** C10. The average of a non-empty list of results is defined: the sum of
    the scores over their number. The division is not guarded: on an empty
    list the summary raises [ZeroDivisionError], and so does a run over an
    empty list of test cases, while a run over a non-empty list, with a model
    library that does not raise, returns its summary. *)
Theorem average_score_needs_cases :
  (forall rs, rs <> [] ->
     exists s, summarize rs = Ok s
               /\ average_score s
                  = (qsum (map score rs) / of_nat (length rs))%Q)
  /\ summarize [] = Raise ZeroDivisionError
  /\ (forall ft bm, ft = [] \/ bm = [] ->
        _calculate_summary ft bm = Raise ZeroDivisionError)
  /\ (forall tcs (w : world env),
        tcs <> [] -> never_raises infer ->
        exists r w',
          run_evaluation lower infer (Some tcs) w = (Ok r, w')
          /\ average_score (sum_fine_tuned (results_summary r))
             = mean (results_fine_tuned r)
          /\ average_score (sum_base_model (results_summary r))
             = mean (results_base_model r))
  /\ (forall w : world env,
        fst (run_evaluation lower infer (Some []) w) = Raise ZeroDivisionError).
Proof.
  split; [|split; [|split; [|split]]].
  - intros rs H. apply (summarize_ok H).
  - reflexivity.
  - apply calculate_summary_empty.
  - intros tcs w Hne Hq.
    destruct (@run_evaluation_total lower env infer (Some tcs) w Hq Hne)
      as [r [w' H]].
    exists r, w'. split; [exact H|].
    apply run_evaluation_ok in H. destruct H as [H1 [H2 [_ Hs]]].
    apply Forall2_length_eq in H1, H2. cbn [cases_of] in H1, H2.
    destruct (@calculate_summary_ok (results_fine_tuned r) (results_base_model r))
      as [s [Hs' [Ef [Eb _]]]].
    + destruct tcs; [congruence|]. destruct (results_fine_tuned r); discriminate.
    + destruct tcs; [congruence|]. destruct (results_base_model r); discriminate.
    + rewrite Hs in Hs'. injection Hs' as <-. now split.
  - intros w. reflexivity.
Qed.

End RunTheorems.

Lemma echo_never_raises : never_raises echo.
Proof. intros m p o. now exists p, o. Qed.

Lemma two_full_passes_witness :
  (exists r w', run_evaluation ascii_lower echo None quiet_world = (Ok r, w'))
  /\ main ascii_lower no_files load_nothing echo ascii_lower blank_format blank_dump
       (with_no_comparison false sample_args) quiet_world
     = main ascii_lower no_files load_nothing echo ascii_lower blank_format blank_dump
         sample_args quiet_world.
Proof.
  destruct (@two_full_passes ascii_lower unit no_files load_nothing echo
              ascii_lower blank_format blank_dump) as [_ [H2 H3]].
  split; [apply H2, echo_never_raises|apply H3].
Defined.

Lemma missing_model_directory_witness :
  main ascii_lower no_files load_nothing echo ascii_lower blank_format blank_dump
    sample_args quiet_world
  = (Ok 1%Z,
     {| outside := tt; events := [];
        stdout := [lit "Error: Fine-tuned model directory './memory-model' not found"];
        written := [] |}).
Proof.
  exact (@missing_model_directory ascii_lower unit no_files load_nothing echo
           ascii_lower blank_format blank_dump sample_args quiet_world eq_refl).
Defined.

Lemma average_score_needs_cases_witness :
  exists r w',
    run_evaluation ascii_lower echo (Some [sample_case]) quiet_world = (Ok r, w')
    /\ average_score (sum_fine_tuned (results_summary r))
       = mean (results_fine_tuned r)
    /\ average_score (sum_base_model (results_summary r))
       = mean (results_base_model r).
Proof.
  destruct (@average_score_needs_cases ascii_lower unit echo) as [_ [_ [_ [H _]]]].
  apply H; [discriminate|apply echo_never_raises].
Defined.


(** ** The extractor: the six routines *)


Lemma fold_left_append {X Y : Type} (g : X -> list Y) (xs : list X) (acc : list Y) :
  fold_left (fun acc x => acc ++ g x) xs acc = acc ++ flat_map g xs.
Proof.
  revert acc. induction xs as [|x xs IH]; intros acc; simpl.
  - now rewrite app_nil_r.
  - now rewrite IH, <- app_assoc.
Qed.

Lemma fold_left_ext {X Y : Type} (f g : Y -> X -> Y) (xs : list X) (acc : Y) :
  (forall a x, f a x = g a x) -> fold_left f xs acc = fold_left g xs acc.
Proof.
  intros H. revert acc. induction xs as [|x xs IH]; intros acc; simpl;
    [reflexivity|]. now rewrite H, IH.
Qed.

Section RoutineProofs.

Variable lower : str -> str.

Lemma append_subsection_bullets_app (mk : str -> str * str -> example)
    (subs : list (str * str)) (acc : list example) :
  append_subsection_bullets mk subs acc
  = acc ++ flat_map (fun sub => map (mk (fst sub)) (bullets (snd sub))) subs.
Proof.
  unfold append_subsection_bullets. rewrite <- fold_left_append.
  apply fold_left_ext. intros a x. apply append_each_app.
Qed.











Variable files : str -> option str.


End RoutineProofs.



(** ** Line-delimited JSON: writing and reading back *)

Lemma scan_plain (c : char) (s : str) :
  (c =? 34)%N = false -> (c =? 92)%N = false -> (c <? 32)%N = false ->
  scan_string (c :: s)
  = match scan_string s with
    | Some (t, r) => Some (c :: t, r)
    | None => None
    end.
Proof.
  intros H1 H2 H3. cbn [scan_string]. now rewrite H1, H2, H3.
Qed.

Lemma scan_quote (s : str) : scan_string (quote :: s) = Some ([], s).
Proof. reflexivity. Qed.

Lemma scan_simple_escape (e d : char) (s : str) :
  (e =? 117)%N = false -> unescape e = Some d ->
  scan_string (92%N :: e :: s)
  = match scan_string s with
    | Some (t, r) => Some (d :: t, r)
    | None => None
    end.
Proof.
  intros H1 H2. cbn [scan_string].
  change ((92 =? 34)%N) with false. change ((92 =? 92)%N) with true.
  cbv iota. now rewrite H1, H2.
Qed.

Lemma scan_u_escape (a b c d : char) (u : N) (s : str) :
  hex4 a b c d = Some u ->
  ((55296 <=? u) && (u <=? 56319))%N = false ->
  scan_string (92%N :: 117%N :: a :: b :: c :: d :: s)
  = match scan_string s with
    | Some (t, r) => Some (u :: t, r)
    | None => None
    end.
Proof.
  intros H1 H2. cbn [scan_string].
  change ((92 =? 34)%N) with false. change ((92 =? 92)%N) with true.
  change ((117 =? 117)%N) with true. cbv iota. now rewrite H1, H2.
Qed.

Lemma hex4_control (c : char) :
  (c < 32)%N ->
  hex4 48%N 48%N (hex_digit (c / 16)) (hex_digit (c mod 16)) = Some c
  /\ ((55296 <=? c) && (c <=? 56319))%N = false.
Proof.
  intros H. rewrite <- (N2Nat.id c) in *.
  assert (Hn : N.to_nat c < 32) by lia.
  generalize dependent (N.to_nat c). intros n _ Hn.
  do 32 (destruct n as [|n]; [split; reflexivity|]). lia.
Qed.

Lemma scan_escape_char (c : char) (s : str) :
  scan_string (escape_char c ++ s)
  = match scan_string s with
    | Some (t, r) => Some (c :: t, r)
    | None => None
    end.
Proof.
  unfold escape_char.
  destruct (N.eqb_spec c 34) as [->|H34]; [now apply scan_simple_escape|].
  destruct (N.eqb_spec c 92) as [->|H92]; [now apply scan_simple_escape|].
  destruct (N.eqb_spec c 10) as [->|H10]; [now apply scan_simple_escape|].
  destruct (N.eqb_spec c 13) as [->|H13]; [now apply scan_simple_escape|].
  destruct (N.eqb_spec c 9) as [->|H9]; [now apply scan_simple_escape|].
  destruct (N.eqb_spec c 8) as [->|H8]; [now apply scan_simple_escape|].
  destruct (N.eqb_spec c 12) as [->|H12]; [now apply scan_simple_escape|].
  destruct (N.ltb_spec c 32) as [Hlt|Hge].
  - destruct (hex4_control Hlt) as [Hh Hs].
    change (lit "\u00") with [92; 117; 48; 48]%N. cbn [app].
    now apply scan_u_escape.
  - cbn [app]. apply scan_plain.
    + now apply N.eqb_neq.
    + now apply N.eqb_neq.
    + now apply N.ltb_ge.
Qed.

Lemma scan_encoded (s rest : str) :
  scan_string (flat_map escape_char s ++ quote :: rest) = Some (s, rest).
Proof.
  induction s as [|c s IH]; [reflexivity|].
  cbn [flat_map]. rewrite <- app_assoc, scan_escape_char. now rewrite IH.
Qed.

Lemma encode_string_app (s rest : str) :
  encode_string s ++ rest = quote :: flat_map escape_char s ++ quote :: rest.
Proof.
  unfold encode_string. cbn [app]. now rewrite <- app_assoc.
Qed.

Lemma read_string_encoded (s rest : str) :
  read_string (encode_string s ++ rest) = Some (s, rest).
Proof.
  rewrite encode_string_app. unfold read_string. cbn [skip_ws].
  change (is_json_ws quote) with false. cbv iota.
  change ((quote =? 34)%N) with true. cbv iota. apply scan_encoded.
Qed.

Lemma read_string_space (s rest : str) :
  read_string (32%N :: encode_string s ++ rest) = Some (s, rest).
Proof.
  unfold read_string. cbn [skip_ws]. change (is_json_ws 32%N) with true. cbv iota.
  apply read_string_encoded.
Qed.

Lemma read_member_encoded (k v rest : str) :
  read_member (encode_string k ++ lit ": " ++ encode_string v ++ rest)
  = Some ((k, v), rest).
Proof.
  unfold read_member. rewrite read_string_encoded.
  change (lit ": ") with [58; 32]%N. cbn [app skip_ws].
  change (is_json_ws 58%N) with false. cbv iota.
  change ((58 =? 58)%N) with true. cbv iota.
  now rewrite read_string_space.
Qed.

Lemma read_member_space (k v rest : str) :
  read_member (32%N :: encode_string k ++ lit ": " ++ encode_string v ++ rest)
  = Some ((k, v), rest).
Proof.
  unfold read_member. rewrite read_string_space.
  change (lit ": ") with [58; 32]%N. cbn [app skip_ws].
  change (is_json_ws 58%N) with false. cbv iota.
  change ((58 =? 58)%N) with true. cbv iota.
  now rewrite read_string_space.
Qed.

Lemma read_more_member (fuel : nat) (k v rest : str) :
  read_more (S fuel)
    (lit ", " ++ encode_string k ++ lit ": " ++ encode_string v ++ rest)
  = match read_more fuel rest with
    | Some (ms, r) => Some ((k, v) :: ms, r)
    | None => None
    end.
Proof.
  change (lit ", ") with [44; 32]%N. cbn [app read_more skip_ws].
  change (is_json_ws 44%N) with false. cbv iota.
  change ((44 =? 125)%N) with false. change ((44 =? 44)%N) with true. cbv iota.
  now rewrite read_member_space.
Qed.

Lemma read_more_close (fuel : nat) (rest : str) :
  read_more (S fuel) (lit "}" ++ rest) = Some ([], rest).
Proof. reflexivity. Qed.

Lemma loads_dumps (e : example) : loads (dumps e) = Some (items e).
Proof.
  unfold dumps, loads.
  change (lit "{") with [123%N]. cbn [app skip_ws].
  change (is_json_ws 123%N) with false. cbv iota.
  change ((123 =? 123)%N) with true. cbv iota.
  rewrite (encode_string_app (lit "instruction")) at 1.
  cbn [skip_ws]. change (is_json_ws quote) with false. cbv iota.
  change ((quote =? 125)%N) with false. cbv iota.
  rewrite read_member_encoded.
  set (tail := lit ", " ++ encode_string (lit "context") ++ _).
  assert (Hlen : exists n, length tail = S (S (S n))).
  { unfold tail. rewrite encode_string_app. cbn [lit app length list_ascii_of_string map].
    now eexists. }
  destruct Hlen as [n ->]. unfold tail.
  rewrite read_more_member, read_more_member.
  reflexivity.
Qed.

Lemma hex_digit_not_nl (n : N) : hex_digit n <> nl.
Proof.
  unfold hex_digit, nl. destruct (n <? 10)%N; lia.
Qed.

Lemma escape_char_no_line_feed (c : char) : no_line_feed (escape_char c).
Proof.
  unfold escape_char, no_line_feed.
  destruct (c =? 34)%N; [repeat constructor; discriminate|].
  destruct (c =? 92)%N; [repeat constructor; discriminate|].
  destruct (N.eqb_spec c 10) as [|H10]; [repeat constructor; discriminate|].
  destruct (c =? 13)%N; [repeat constructor; discriminate|].
  destruct (c =? 9)%N; [repeat constructor; discriminate|].
  destruct (c =? 8)%N; [repeat constructor; discriminate|].
  destruct (c =? 12)%N; [repeat constructor; discriminate|].
  destruct (c <? 32)%N.
  - change (lit "\u00") with [92; 117; 48; 48]%N. cbn [app].
    repeat constructor; try discriminate; apply hex_digit_not_nl.
  - repeat constructor. exact H10.
Qed.

Lemma encode_string_no_line_feed (s : str) : no_line_feed (encode_string s).
Proof.
  unfold encode_string, no_line_feed. constructor; [discriminate|].
  apply Forall_app. split; [|repeat constructor; discriminate].
  induction s as [|c s IH]; [constructor|].
  cbn [flat_map]. apply Forall_app. split; [apply escape_char_no_line_feed|exact IH].
Qed.

Lemma dumps_no_line_feed (e : example) : no_line_feed (dumps e).
Proof.
  unfold dumps, no_line_feed.
  repeat (apply Forall_app; split);
    try apply encode_string_no_line_feed;
    repeat constructor; discriminate.
Qed.

Lemma lines_from_line (x cur rest : str) :
  no_line_feed x ->
  lines_from cur (x ++ nl :: rest) = (rev cur ++ x) :: lines_from [] rest.
Proof.
  intros H. revert cur. induction H as [|c x Hc Hx IH]; intros cur.
  - cbn [app lines_from]. rewrite N.eqb_refl. now rewrite app_nil_r.
  - cbn [app lines_from]. apply N.eqb_neq in Hc. rewrite Hc.
    rewrite IH. cbn [rev]. now rewrite <- app_assoc.
Qed.

Lemma lines_write_jsonl (examples : list example) :
  lines (write_jsonl examples) = map dumps examples.
Proof.
  unfold lines. induction examples as [|e es IH]; [reflexivity|].
  cbn [write_jsonl flat_map map]. rewrite <- app_assoc. cbn [app].
  rewrite lines_from_line by apply dumps_no_line_feed.
  cbn [rev app]. f_equal. exact IH.
Qed.

Lemma items_injective (e1 e2 : example) : items e1 = items e2 -> e1 = e2.
Proof.
  destruct e1, e2. unfold items. cbn. intros H. injection H as -> -> ->.
  reflexivity.
Qed.

(** C8. What [save_training_data] writes in the [jsonl] format reads back,
    one [json.loads] per line, as the same records in the same order: each
    line gives the three items of its example, and the items determine the
    example. *)
Theorem jsonl_round_trip (examples : list example) (output_file : str) :
  read_jsonl (snd (fst (ExtractorMain.save_training_data examples output_file
                          ExtractorMain.jsonl)))
  = Some (map items examples)
  /\ (forall e1 e2, items e1 = items e2 -> e1 = e2).
Proof.
  split; [|apply items_injective].
  cbn [ExtractorMain.save_training_data fst snd].
  unfold read_jsonl. rewrite lines_write_jsonl, map_map.
  induction examples as [|e es IH]; [reflexivity|].
  cbn [map sequence]. now rewrite loads_dumps, IH.
Qed.



(** ** Further properties of the scoring *)

Lemma filter_length_all {A : Type} (p : A -> bool) (l : list A) :
  length (filter p l) = length l <-> forall x, In x l -> p x = true.
Proof.
  induction l as [|a l IH]; simpl.
  - split; [intros _ x []|reflexivity].
  - destruct (p a) eqn:E; simpl.
    + split.
      * intros H x [<-|Hx]; [exact E|]. apply IH; [lia|exact Hx].
      * intros H. f_equal. apply IH. intros x Hx. apply H. now right.
    + split.
      * intros H. pose proof (filter_length_le p l). lia.
      * intros H. specialize (H a (or_introl eq_refl)). congruence.
Qed.

Lemma filter_length_none {A : Type} (p : A -> bool) (l : list A) :
  length (filter p l) = 0 <-> forall x, In x l -> p x = false.
Proof.
  induction l as [|a l IH]; simpl.
  - split; [intros _ x []|reflexivity].
  - destruct (p a) eqn:E; simpl.
    + split; [discriminate|]. intros H.
      specialize (H a (or_introl eq_refl)). congruence.
    + rewrite IH. split.
      * intros H x [<-|Hx]; [exact E|now apply H].
      * intros H x Hx. apply H. now right.
Qed.

Lemma of_nat_eq (m n : nat) : (of_nat m == of_nat n)%Q <-> m = n.
Proof.
  unfold of_nat, Qeq. simpl. lia.
Qed.

Lemma ratio_one (m n : nat) : (of_nat m / of_nat (S n) == 1)%Q <-> m = S n.
Proof.
  rewrite <- of_nat_eq. split; intros H.
  - rewrite <- (Qmult_1_l (of_nat (S n))), <- H.
    rewrite Qmult_comm, Qmult_div_r; [reflexivity|].
    intros E. pose proof (of_nat_pos n) as P. rewrite E in P.
    now apply Qlt_irrefl in P.
  - rewrite H. apply Qmult_inv_r.
    intros E. pose proof (of_nat_pos n) as P. rewrite E in P.
    now apply Qlt_irrefl in P.
Qed.

Lemma ratio_zero (m n : nat) : (of_nat m / of_nat (S n) == 0)%Q <-> m = 0.
Proof.
  split; intros H.
  - apply of_nat_eq. change (of_nat 0) with 0%Q.
    rewrite <- (Qmult_0_l (of_nat (S n))), <- H.
    rewrite Qmult_comm, Qmult_div_r; [reflexivity|].
    intros E. pose proof (of_nat_pos n) as P. rewrite E in P.
    now apply Qlt_irrefl in P.
  - subst m. unfold Qdiv. apply Qmult_0_l.
Qed.

Section ScoreExtremes.

Variable lower : str -> str.

(** X1. The score is 1 exactly when there is at least one expected keyword
    and every expected keyword is, lower-cased, a substring of the lower-cased
    response; it is 0 exactly when none is, which includes the case of no
    expected keyword. These are the scores the summary counts as perfect and
    as zero. *)
Theorem keyword_score_extremes (response : str) (kws : list str) :
  exists matches score matched,
    evaluate_keywords lower response kws = Ok (matches, score, matched)
    /\ (Qeq_bool score 1 = true <->
        kws <> [] /\ forall k, In k kws -> occurs (lower k) (lower response))
    /\ (Qeq_bool score 0 = true <->
        forall k, In k kws -> ~ occurs (lower k) (lower response)).
Proof.
  eexists _, _, _. split; [apply evaluate_keywords_eq|].
  destruct kws as [|k kws].
  - split; split.
    + discriminate.
    + intros [H _]. congruence.
    + intros _ x [].
    + reflexivity.
  - set (l := k :: kws). fold l. split.
    + rewrite Qeq_bool_iff. change (length l) with (S (length kws)).
      rewrite ratio_one. change (S (length kws)) with (length l).
      unfold found. rewrite filter_length_all. split.
      * intros H. split; [discriminate|]. intros x Hx.
        apply contains_occurs. now apply H.
      * intros [_ H] x Hx. apply contains_occurs. now apply H.
    + rewrite Qeq_bool_iff. change (length l) with (S (length kws)).
      rewrite ratio_zero. unfold found. rewrite filter_length_none. split.
      * intros H x Hx Ho. apply contains_occurs in Ho. rewrite (H x Hx) in Ho.
        discriminate.
      * intros H x Hx. destruct (contains (lower x) (lower response)) eqn:E;
          [|reflexivity]. apply contains_occurs in E. now elim (H x Hx).
Qed.

End ScoreExtremes.

(** ** Scores by category *)

Lemma str_eqb_eq (a b : str) : str_eqb a b = true <-> a = b.
Proof.
  unfold str_eqb. destruct (list_eq_dec N.eq_dec a b); split; congruence.
Qed.

Lemma str_eqb_refl (a : str) : str_eqb a a = true.
Proof. now apply str_eqb_eq. Qed.

Lemma str_eqb_neq (a b : str) : str_eqb a b = false <-> a <> b.
Proof.
  unfold str_eqb. destruct (list_eq_dec N.eq_dec a b); split; congruence.
Qed.

Lemma first_seen_In (c : str) (l : list str) : In c (first_seen l) <-> In c l.
Proof.
  induction l as [|a l IH]; simpl; [reflexivity|].
  rewrite filter_In, IH. split.
  - intros [H|[H _]]; auto.
  - intros [H|H]; [now left|].
    destruct (list_eq_dec N.eq_dec a c) as [E|E]; [now left|].
    right. split; [exact H|]. apply negb_true_iff. apply str_eqb_neq. congruence.
Qed.

Lemma filter_id {A : Type} (p : A -> bool) (l : list A) :
  (forall x, In x l -> p x = true) -> filter p l = l.
Proof.
  induction l as [|a l IH]; simpl; intros H; [reflexivity|].
  rewrite (H a (or_introl eq_refl)). f_equal. apply IH. intros x Hx. apply H. now right.
Qed.

Lemma first_seen_snoc (l : list str) (c : str) :
  first_seen (l ++ [c])
  = if existsb (str_eqb c) l then first_seen l else first_seen l ++ [c].
Proof.
  induction l as [|a l IH]; [reflexivity|].
  cbn [app first_seen existsb]. rewrite IH.
  destruct (str_eqb c a) eqn:E; cbn [orb].
  - apply str_eqb_eq in E. subst a.
    destruct (existsb (str_eqb c) l); [reflexivity|].
    rewrite filter_app. cbn [filter]. rewrite str_eqb_refl. cbn [negb].
    now rewrite app_nil_r.
  - destruct (existsb (str_eqb c) l); [reflexivity|].
    rewrite filter_app. cbn [filter]. rewrite E. reflexivity.
Qed.

Lemma existsb_str_In (c : str) (l : list str) :
  existsb (str_eqb c) l = true <-> In c l.
Proof.
  rewrite existsb_exists. split.
  - intros [x [Hx E]]. apply str_eqb_eq in E. now subst.
  - intros H. exists c. split; [exact H|apply str_eqb_refl].
Qed.

Lemma first_seen_NoDup (l : list str) : NoDup (first_seen l).
Proof.
  induction l as [|a l IH]; simpl; constructor.
  - rewrite filter_In. intros [_ H]. now rewrite str_eqb_refl in H.
  - now apply NoDup_filter.
Qed.

Lemma scores_in_snoc (c : str) (rs : list result) (r : result) :
  scores_in c (rs ++ [r])
  = scores_in c rs ++ (if str_eqb (res_category r) c then [score r] else []).
Proof.
  unfold scores_in. rewrite filter_app, map_app. cbn [filter].
  now destruct (str_eqb (res_category r) c).
Qed.

Lemma filter_none {A : Type} (p : A -> bool) (l : list A) :
  (forall x, In x l -> p x = false) -> filter p l = [].
Proof.
  induction l as [|a l IH]; simpl; intros H; [reflexivity|].
  rewrite (H a (or_introl eq_refl)). apply IH. intros x Hx. apply H. now right.
Qed.

Lemma add_score_absent (c : str) (s : Q) (d : list (str * list Q)) :
  ~ In c (map fst d) -> add_score c s d = d ++ [(c, [s])].
Proof.
  induction d as [|[k l] d IH]; intros H; [reflexivity|].
  cbn [add_score app].
  assert (E : str_eqb k c = false).
  { apply str_eqb_neq. intros ->. apply H. now left. }
  rewrite E. f_equal. apply IH. intros Hin. apply H. now right.
Qed.

Lemma add_score_present (c : str) (s : Q) (d : list (str * list Q)) :
  NoDup (map fst d) -> In c (map fst d) ->
  add_score c s d
  = map (fun e => if str_eqb (fst e) c then (fst e, snd e ++ [s]) else e) d.
Proof.
  induction d as [|[k l] d IH]; intros Hnd Hin; [destruct Hin|].
  cbn [add_score map fst snd]. inversion Hnd as [|? ? Hk Hnd']; subst.
  destruct (str_eqb k c) eqn:E.
  - apply str_eqb_eq in E. subst k. f_equal. symmetry.
    transitivity (map (fun e : str * list Q => e) d); [|apply map_id].
    apply map_ext_in. intros [k' l'] He. cbn [fst snd].
    destruct (str_eqb k' c) eqn:E2; [|reflexivity].
    apply str_eqb_eq in E2. subst k'. elim Hk.
    apply in_map_iff. now exists (c, l').
  - f_equal. apply IH; [exact Hnd'|].
    destruct Hin as [Hin|Hin]; [|exact Hin]. cbn in Hin. subst k.
    now rewrite str_eqb_refl in E.
Qed.

Lemma grouped_keys (keys : list str) (rs : list result) :
  map fst (grouped keys rs) = keys.
Proof.
  unfold grouped. rewrite map_map. cbn [fst]. apply map_id.
Qed.

Lemma group_step (done : list result) (r : result) :
  add_score (res_category r) (score r)
    (grouped (first_seen (map res_category done)) done)
  = grouped (first_seen (map res_category (done ++ [r]))) (done ++ [r]).
Proof.
  rewrite map_app. cbn [map]. rewrite first_seen_snoc.
  destruct (existsb (str_eqb (res_category r)) (map res_category done)) eqn:E.
  - apply existsb_str_In in E.
    rewrite add_score_present.
    + unfold grouped. rewrite map_map. apply map_ext. intros c. cbn [fst snd].
      rewrite scores_in_snoc.
      destruct (str_eqb c (res_category r)) eqn:E2.
      * apply str_eqb_eq in E2. subst c. now rewrite str_eqb_refl.
      * assert (E3 : str_eqb (res_category r) c = false).
        { apply str_eqb_neq. apply str_eqb_neq in E2. congruence. }
        now rewrite E3, app_nil_r.
    + rewrite grouped_keys. apply first_seen_NoDup.
    + rewrite grouped_keys. now apply first_seen_In.
  - assert (Hnew : ~ In (res_category r) (map res_category done)).
    { intros H. apply existsb_str_In in H. congruence. }
    rewrite add_score_absent.
    + unfold grouped. rewrite map_app. cbn [map]. f_equal.
      * apply map_ext_in. intros c Hc. rewrite scores_in_snoc.
        destruct (str_eqb (res_category r) c) eqn:E2; [|now rewrite app_nil_r].
        apply str_eqb_eq in E2. subst c. rewrite first_seen_In in Hc. contradiction.
      * rewrite scores_in_snoc, str_eqb_refl. unfold scores_in.
        rewrite filter_none; [reflexivity|].
        intros x Hx. apply str_eqb_neq. intros E3. apply Hnew. rewrite <- E3.
        now apply in_map.
    + rewrite grouped_keys. now rewrite first_seen_In.
Qed.

Lemma group_scores_from (rs done : list result) :
  fold_left (fun d r => add_score (res_category r) (score r) d) rs
    (grouped (first_seen (map res_category done)) done)
  = grouped (first_seen (map res_category (done ++ rs))) (done ++ rs).
Proof.
  revert done. induction rs as [|r rs IH]; intros done.
  - now rewrite app_nil_r.
  - cbn [fold_left]. rewrite group_step, IH, <- app_assoc. reflexivity.
Qed.

Lemma group_scores_grouped (rs : list result) :
  group_scores rs = grouped (first_seen (map res_category rs)) rs.
Proof. exact (group_scores_from rs []). Qed.

Lemma scores_in_nonempty (c : str) (rs : list result) :
  In c (map res_category rs) -> scores_in c rs <> [].
Proof.
  intros H. apply in_map_iff in H. destruct H as [r [<- Hr]].
  unfold scores_in. intros E. apply map_eq_nil in E.
  assert (Hin : In r (filter (fun x => str_eqb (res_category x) (res_category r)) rs)).
  { apply filter_In. split; [exact Hr|apply str_eqb_refl]. }
  rewrite E in Hin. destruct Hin.
Qed.

Lemma average_each_grouped (keys : list str) (rs : list result) :
  (forall c, In c keys -> scores_in c rs <> []) ->
  average_each (grouped keys rs)
  = Ok (map (fun c => (c, (qsum (scores_in c rs)
                           / of_nat (length (scores_in c rs)))%Q)) keys).
Proof.
  induction keys as [|k keys IH]; intros H; [reflexivity|].
  cbn [grouped map average_each]. fold (grouped keys rs).
  destruct (scores_in k rs) as [|x l] eqn:E.
  - elim (H k (or_introl eq_refl)). exact E.
  - cbn [length]. rewrite truediv_of_nat. cbn [obind].
    rewrite IH; [reflexivity|]. intros c Hc. apply H. now right.
Qed.

Lemma category_scores_eq (rs : list result) :
  _calculate_category_scores rs
  = Ok (map (fun c => (c, (qsum (scores_in c rs)
                           / of_nat (length (scores_in c rs)))%Q))
          (first_seen (map res_category rs))).
Proof.
  unfold _calculate_category_scores. rewrite group_scores_grouped.
  apply average_each_grouped. intros c Hc. apply scores_in_nonempty.
  now apply first_seen_In.
Qed.

(** X2. The category table of a list of results never raises, whatever the
    list: it has one entry per category, in the order in which the categories
    first occur, and the entry of a category is the sum of the scores of its
    results over their number. *)
Theorem category_scores_are_means (rs : list result) :
  _calculate_category_scores rs
  = Ok (map (fun c => (c, (qsum (scores_in c rs)
                           / of_nat (length (scores_in c rs)))%Q))
          (first_seen (map res_category rs))).
Proof. apply category_scores_eq. Qed.


(** ** Bounds on the summary of a run *)

Lemma of_nat_succ (n : nat) : (of_nat (S n) == of_nat n + 1)%Q.
Proof.
  unfold of_nat, Qeq, Qplus. simpl. lia.
Qed.

Lemma qsum_from_le (xs : list Q) (a : Q) :
  (forall x, In x xs -> (x <= 1)%Q) ->
  (fold_left Qplus xs a <= a + of_nat (length xs))%Q.
Proof.
  revert a. induction xs as [|x xs IH]; intros a H; cbn [fold_left length].
  - change (of_nat 0) with 0%Q. rewrite Qplus_0_r. apply Qle_refl.
  - eapply Qle_trans; [apply IH; intros y Hy; apply H; now right|].
    rewrite of_nat_succ, (Qplus_comm (of_nat (length xs)) 1), Qplus_assoc.
    apply Qplus_le_l, Qplus_le_r. apply H. now left.
Qed.

Lemma mean_bounds (rs : list result) :
  rs <> [] -> (forall r, In r rs -> (0 <= score r <= 1)%Q) ->
  (0 <= mean rs <= 1)%Q.
Proof.
  intros Hne H. split.
  - apply mean_nonneg; [exact Hne|]. intros r Hr. apply (H r Hr).
  - unfold mean. destruct rs as [|r rs]; [congruence|].
    apply Qle_shift_div_r; [apply of_nat_pos|]. rewrite Qmult_1_l.
    rewrite <- (length_map score), <- (Qplus_0_l (of_nat _)).
    apply qsum_from_le. intros x Hx. apply in_map_iff in Hx.
    destruct Hx as [r' [<- Hr']]. apply (H r' Hr').
Qed.

Lemma count_perfect_zero (scores : list Q) :
  count_if (fun s => Qeq_bool s 1) scores + count_if (fun s => Qeq_bool s 0) scores
  <= length scores.
Proof.
  unfold count_if. induction scores as [|s scores IH]; cbn [filter length]; [lia|].
  destruct (Qeq_bool s 1) eqn:E1, (Qeq_bool s 0) eqn:E0; cbn [length]; try lia.
  apply Qeq_bool_iff in E1, E0. rewrite E1 in E0. discriminate.
Qed.

Lemma sum_matches_le (rs : list result) :
  (forall r, In r rs -> matches r <= total_keywords r) ->
  forall a b, a <= b ->
    fold_left Nat.add (map matches rs) a
    <= fold_left Nat.add (map total_keywords rs) b.
Proof.
  induction rs as [|r rs IH]; intros H a b Hab; cbn [map fold_left].
  - exact Hab.
  - apply IH; [intros x Hx; apply H; now right|].
    specialize (H r (or_introl eq_refl)). lia.
Qed.

Section SummaryBounds.

Variable lower : str -> str.

Lemma make_result_sound (tc : test_case) (m : model_type) (response : str) :
  sound_result (make_result lower tc m response).
Proof.
  unfold sound_result, make_result. cbn [score matches total_keywords].
  split; [|apply filter_length_le].
  destruct (expected_keywords tc) as [|k kws] eqn:E.
  - split; discriminate.
  - apply ratio_bounds. unfold found. apply (filter_length_le _ (k :: kws)).
Qed.

End SummaryBounds.

Lemma summarize_fields (rs : list result) (s : model_summary) :
  summarize rs = Ok s ->
  rs <> []
  /\ average_score s = mean rs
  /\ total_matches s = fold_left Nat.add (map matches rs) 0
  /\ perfect_scores s = count_if (fun x => Qeq_bool x 1) (map score rs)
  /\ zero_scores s = count_if (fun x => Qeq_bool x 0) (map score rs).
Proof.
  intros H. destruct rs as [|r rs]; [discriminate|].
  split; [discriminate|].
  unfold summarize in H. rewrite length_map in H. cbn [length] in H.
  rewrite truediv_of_nat in H. cbn [obind] in H.
  destruct (category_scores_ok (r :: rs)) as [cats C]. rewrite C in H.
  cbn [obind] in H. injection H as <-.
  cbn [average_score total_matches perfect_scores zero_scores].
  repeat split.
Qed.

Lemma calculate_summary_fields (ft bm : list result) (s : summary) :
  _calculate_summary ft bm = Ok s ->
  summarize ft = Ok (sum_fine_tuned s)
  /\ summarize bm = Ok (sum_base_model s)
  /\ improve (average_score (sum_fine_tuned s)) (average_score (sum_base_model s))
     = Ok (sum_improvement s).
Proof.
  unfold _calculate_summary. intros H.
  destruct (summarize ft) as [sf|] eqn:Ef; [|discriminate]. cbn [obind] in H.
  destruct (summarize bm) as [sb|] eqn:Eb; [|discriminate]. cbn [obind] in H.
  destruct (improve (average_score sf) (average_score sb)) as [i|] eqn:Ei;
    [|discriminate].
  cbn [obind] in H. injection H as <-. cbn. auto.
Qed.

Lemma improve_fields (a b : Q) (i : improvement) :
  improve a b = Ok i ->
  score_improvement i = (a - b)%Q /\ better_performance i = Qgtb a b.
Proof.
  unfold improve. intros H.
  destruct (Qgtb b 0).
  - destruct (truediv (a - b) b); [|discriminate]. cbn [obind] in H.
    injection H as <-. now split.
  - cbn [obind] in H. injection H as <-. now split.
Qed.

(** X3. A summary computed from results whose scores are in [0,1] and whose
    match counts are at most their keyword counts has both averages in
    [0,1] and their difference, the score improvement, in [-1,1]; the perfect
    and the zero scores together are at most the number of results, and the
    total of the matches is at most the total of the expected keywords. *)
Theorem summary_bounds (ft bm : list result) (s : summary) :
  (forall r, In r (ft ++ bm) -> sound_result r) ->
  _calculate_summary ft bm = Ok s ->
  (0 <= average_score (sum_fine_tuned s) <= 1)%Q
  /\ (0 <= average_score (sum_base_model s) <= 1)%Q
  /\ (-1 <= score_improvement (sum_improvement s) <= 1)%Q
  /\ perfect_scores (sum_fine_tuned s) + zero_scores (sum_fine_tuned s) <= length ft
  /\ perfect_scores (sum_base_model s) + zero_scores (sum_base_model s) <= length bm
  /\ total_matches (sum_fine_tuned s) <= fold_left Nat.add (map total_keywords ft) 0
  /\ total_matches (sum_base_model s) <= fold_left Nat.add (map total_keywords bm) 0.
Proof.
  intros Hsound Hs.
  destruct (@calculate_summary_fields ft bm s Hs) as [Ef [Eb Ei]].
  destruct (@summarize_fields ft _ Ef) as [Hft [Af [Tf [Pf Zf]]]].
  destruct (@summarize_fields bm _ Eb) as [Hbm [Ab [Tb [Pb Zb]]]].
  destruct (@improve_fields _ _ _ Ei) as [Si _].
  assert (Sft : forall r, In r ft -> sound_result r).
  { intros r Hr. apply Hsound, in_app_iff. now left. }
  assert (Sbm : forall r, In r bm -> sound_result r).
  { intros r Hr. apply Hsound, in_app_iff. now right. }
  pose proof (mean_bounds Hft (fun r Hr => proj1 (Sft r Hr))) as [F0 F1].
  pose proof (mean_bounds Hbm (fun r Hr => proj1 (Sbm r Hr))) as [B0 B1].
  rewrite Si, Af, Ab, Tf, Tb, Pf, Pb, Zf, Zb.
  repeat split; try assumption.
  - apply Qle_minus_iff. setoid_replace (mean ft - mean bm + - - (1))%Q
      with ((1 - mean bm) + mean ft)%Q by ring.
    rewrite <- (Qplus_0_r 0). apply Qplus_le_compat; [|exact F0].
    apply -> Qle_minus_iff. exact B1.
  - apply Qle_minus_iff. setoid_replace (1 + - (mean ft - mean bm))%Q
      with ((1 - mean ft) + mean bm)%Q by ring.
    rewrite <- (Qplus_0_r 0). apply Qplus_le_compat; [|exact B0].
    apply -> Qle_minus_iff. exact F1.
  - rewrite <- (length_map score ft). apply count_perfect_zero.
  - rewrite <- (length_map score bm). apply count_perfect_zero.
  - apply sum_matches_le; [|lia]. intros r Hr. apply (Sft r Hr).
  - apply sum_matches_le; [|lia]. intros r Hr. apply (Sbm r Hr).
Qed.


Lemma summary_bounds_witness :
  let ft := map scored [1; 1; 0]%Q in
  let bm := map scored [0; 1; 0]%Q in
  exists s,
    _calculate_summary ft bm = Ok s
    /\ (0 <= average_score (sum_fine_tuned s) <= 1)%Q
    /\ (-1 <= score_improvement (sum_improvement s) <= 1)%Q
    /\ total_matches (sum_fine_tuned s) <= 3.
Proof.
  intros ft bm.
  destruct (_calculate_summary ft bm) as [s|e] eqn:Hs;
    [|vm_compute in Hs; discriminate].
  exists s. split; [reflexivity|].
  assert (Hsound : forall r, In r (ft ++ bm) -> sound_result r).
  { intros r Hr.
    repeat (destruct Hr as [<-|Hr];
            [split; [split; discriminate|cbn; lia]|]).
    destruct Hr. }
  destruct (@summary_bounds ft bm s Hsound Hs) as [H1 [_ [H3 [_ [_ [H6 _]]]]]].
  repeat split; try apply H1; try apply H3. exact H6.
Defined.


(** ** One test case *)

Section TestCaseProofs.

Variable lower : str -> str.
Variable env : Type.
Variable infer : model_type -> str -> env -> outcome str * env.

Lemma evaluate_test_case_eq (tc : test_case) (m : model_type) (w : world env) :
  evaluate_test_case lower infer tc m w
  = (match fst (infer m (prompt_of tc) (outside w)) with
     | Ok decoded => Ok (make_result lower tc m (response_of decoded))
     | Raise e => Raise e
     end,
     after_call infer tc m w).
Proof.
  unfold evaluate_test_case, bind, generate_response, after_call, prompt_of.
  destruct (infer m (build_prompt (question tc) (context tc)) (outside w))
    as [[decoded|e] o]; cbn [fst snd]; [|reflexivity].
  unfold lift. rewrite evaluate_keywords_eq. reflexivity.
Qed.

(** X4. Evaluating one test case makes exactly one generation call, with the
    prompt built from the question and the context, and prints and writes
    nothing. If the call raises, so does the evaluation. Otherwise the record
    returned is the one of the test case and of the text kept of the
    generation: its expected keywords are those of the test case, its matched
    keywords those found in the response, its match count their number, at
    most the number of expected keywords, and its score in [0,1]. *)
Theorem evaluate_test_case_record (tc : test_case) (m : model_type) (w : world env) :
  snd (evaluate_test_case lower infer tc m w) = after_call infer tc m w
  /\ (forall e, fst (infer m (prompt_of tc) (outside w)) = Raise e ->
        fst (evaluate_test_case lower infer tc m w) = Raise e)
  /\ (forall decoded,
        fst (infer m (prompt_of tc) (outside w)) = Ok decoded ->
        exists r,
          fst (evaluate_test_case lower infer tc m w) = Ok r
          /\ r = make_result lower tc m (response_of decoded)
          /\ result_of tc m r
          /\ matched_keywords r = found lower (res_response r) (expected_keywords tc)
          /\ matches r = length (matched_keywords r)
          /\ matches r <= total_keywords r
          /\ (0 <= score r <= 1)%Q).
Proof.
  rewrite evaluate_test_case_eq. cbn [fst snd]. split; [reflexivity|]. split.
  - intros e ->. reflexivity.
  - intros decoded ->. eexists. split; [reflexivity|]. split; [reflexivity|].
    destruct (make_result_sound lower tc m (response_of decoded)) as [Hs Hm].
    repeat split; try assumption; apply Hs.
Qed.

End TestCaseProofs.


(** ** The text kept of a generation *)

Lemma split_last_from_skip (sep pre rest piece : str) :
  split_last_from sep (length pre) (pre ++ rest) piece
  = split_last_from sep 0 rest piece.
Proof.
  induction pre as [|c pre IH]; [reflexivity|]. exact IH.
Qed.

Lemma split_last_from_first (c : char) (sep s piece : str) :
  split_last_from (c :: sep) 0 s piece
  = match split_at_first (c :: sep) s with
    | Some (_, rest) => split_last_from (c :: sep) 0 rest rest
    | None => piece
    end.
Proof.
  revert piece. induction s as [|x s IH]; intros piece.
  - reflexivity.
  - cbn [split_last_from split_at_first].
    destruct (strip_prefix (c :: sep) (x :: s)) as [rest|] eqn:E.
    + pose proof (strip_prefix_Some _ _ E) as Hs.
      cbn [app] in Hs. injection Hs as -> ->.
      cbn [length pred]. apply split_last_from_skip.
    + rewrite IH. destruct (split_at_first (c :: sep) s) as [[? ?]|]; reflexivity.
Qed.

(** Two occurrences of the response cue do not overlap. *)
Lemma response_marker_apart (x r b : str) :
  response_marker ++ r = x ++ response_marker ++ b ->
  x = [] \/ exists y, x = response_marker ++ y.
Proof.
  intros H. unfold response_marker in H.
  change (lit "### Response:" ++ [nl])
    with [35; 35; 35; 32; 82; 101; 115; 112; 111; 110; 115; 101; 58; 10]%N in H.
  do 14 (destruct x as [|? x];
         [first [now left | exfalso; cbn [app] in H; congruence]|]).
  right. cbn [app] in H.
  injection H as <- <- <- <- <- <- <- <- <- <- <- <- <- <- H.
  exists x. reflexivity.
Qed.

Lemma split_prefix_of (a0 a' rest b m : str) :
  a' ++ m ++ b = a0 ++ m ++ rest -> length a0 <= length a' ->
  exists x, a' = a0 ++ x /\ m ++ rest = x ++ m ++ b.
Proof.
  revert a'. induction a0 as [|c a0 IHa]; intros a' Hs Hle.
  - exists a'. split; [reflexivity|]. exact (eq_sym Hs).
  - destruct a' as [|c' a']; [cbn in Hle; lia|].
    cbn [app] in Hs. injection Hs as -> Hs.
    destruct (IHa a' Hs) as [x [-> Hx]]; [cbn in Hle; lia|].
    exists x. split; [reflexivity|exact Hx].
Qed.

Lemma split_last_from_marker (piece : str) (s : str) :
  split_last_from response_marker 0 s piece
  = match split_at_first response_marker s with
    | Some (_, rest) => split_last_from response_marker 0 rest rest
    | None => piece
    end.
Proof. apply (split_last_from_first 35%N (lit "## Response:" ++ [nl])). Qed.

Lemma split_last_marker (a b : str) :
  ~ occurs response_marker b ->
  split_last response_marker (a ++ response_marker ++ b) = b.
Proof.
  intros Hb. unfold split_last.
  generalize (a ++ response_marker ++ b) at 2 as piece.
  assert (G : forall n a piece, length a < n ->
            split_last_from response_marker 0 (a ++ response_marker ++ b) piece = b).
  { clear a. induction n as [|n IH]; intros a piece Hlen; [lia|].
    rewrite split_last_from_marker.
    destruct (split_at_first response_marker (a ++ response_marker ++ b))
      as [[a0 rest]|] eqn:E.
    - destruct (split_at_first_Some _ _ E) as [Hs Hmin].
      pose proof (Hmin a b eq_refl) as Hle.
      destruct (@split_prefix_of a0 a rest b response_marker Hs Hle) as [x [-> Hx]].
      destruct (@response_marker_apart x rest b Hx) as [->|[y ->]].
      + cbn [app] in Hx. apply app_inv_head in Hx. subst rest.
        rewrite split_last_from_marker.
        destruct (split_at_first response_marker b) as [[p q]|] eqn:E2;
          [|reflexivity].
        exfalso. apply Hb. exists p, q. now apply split_at_first_Some in E2.
      + rewrite <- app_assoc in Hx. apply app_inv_head in Hx. subst rest.
        apply IH. rewrite !length_app in Hlen.
        assert (length response_marker = 14) by reflexivity. lia.
    - exfalso. apply (split_at_first_None E). now exists a, b. }
  intros piece. apply (G (S (length a))). lia.
Qed.

(** X5. Of the decoded text, [generate_response] keeps what follows the
    last response cue, trimmed: when the text is [a], the cue, and a rest [b]
    without cue, the response is [b] trimmed, whatever [a] holds; a decoded
    text without cue is kept whole, trimmed. *)
Theorem response_after_last_cue (decoded : str) :
  (forall a b, decoded = a ++ response_marker ++ b ->
               ~ occurs response_marker b ->
               response_of decoded = strip b)
  /\ (~ occurs response_marker decoded -> response_of decoded = strip decoded).
Proof.
  split.
  - intros a b -> Hb. unfold response_of.
    rewrite (proj2 (contains_occurs response_marker _)); [|now exists a, b].
    now rewrite split_last_marker.
  - intros H. unfold response_of.
    destruct (contains response_marker decoded) eqn:E; [|reflexivity].
    apply contains_occurs in E. contradiction.
Qed.

(** ** Effects of a run and of [main] *)

Section EffectProofs.

Variable lower : str -> str.
Variable env : Type.
Variable path_exists : str -> env -> bool.
Variable load : str -> str -> env -> outcome unit * env.
Variable infer : model_type -> str -> env -> outcome str * env.
Variable upper : str -> str.
Variable format_float : float_format -> Q -> str.
Variable dump_results : results -> str.

Lemma print_all_eq (ls : list str) (w : world env) :
  print_all ls w = (Ok tt, printing ls w).
Proof.
  revert w. induction ls as [|l ls IH]; intros w.
  - unfold printing. cbn. rewrite app_nil_r. now destruct w.
  - cbn [print_all]. unfold bind at 1. cbn [print]. rewrite IH.
    unfold printing. cbn. now rewrite <- app_assoc.
Qed.

Lemma evaluate_each_cons (m : model_type) (tc : test_case)
    (tcs : list test_case) (acc : list result) (w : world env) :
  evaluate_each lower infer m (tc :: tcs) acc w
  = match fst (infer m (prompt_of tc) (outside w)) with
    | Ok d =>
        evaluate_each lower infer m tcs
          (acc ++ [make_result lower tc m (response_of d)])
          (after_call infer tc m w)
    | Raise e => (Raise e, after_call infer tc m w)
    end.
Proof.
  cbn [evaluate_each]. unfold bind. rewrite evaluate_test_case_eq.
  now destruct (fst (infer m (prompt_of tc) (outside w))).
Qed.

Lemma evaluate_each_frame (m : model_type) (tcs : list test_case) :
  forall (acc : list result) (w : world env),
    stdout (snd (evaluate_each lower infer m tcs acc w)) = stdout w
    /\ written (snd (evaluate_each lower infer m tcs acc w)) = written w
    /\ exists j, j <= length tcs
                 /\ events (snd (evaluate_each lower infer m tcs acc w))
                    = events w ++ firstn j (generated m tcs)
                 /\ (forall rs, fst (evaluate_each lower infer m tcs acc w) = Ok rs ->
                                 j = length tcs).
Proof.
  induction tcs as [|tc tcs IH]; intros acc w.
  - cbn. repeat split. exists 0. rewrite app_nil_r. repeat split. lia.
  - rewrite evaluate_each_cons.
    destruct (fst (infer m (prompt_of tc) (outside w))) as [d|e].
    + destruct (IH (acc ++ [make_result lower tc m (response_of d)])
                  (after_call infer tc m w)) as [Ho [Hw [j [Hj [He Hok]]]]].
      rewrite Ho, Hw, He. cbn [after_call stdout written events].
      repeat split. exists (S j). cbn [length generated map firstn].
      rewrite <- app_assoc. repeat split; [lia|].
      intros rs Hrs. f_equal. now apply (Hok rs).
    + cbn [fst snd after_call stdout written events]. repeat split.
      exists 1. cbn [length generated map firstn]. repeat split; [lia|discriminate].
Qed.

Lemma firstn_app_full {A : Type} (l1 l2 : list A) (j : nat) :
  firstn (length l1 + j) (l1 ++ l2) = l1 ++ firstn j l2.
Proof.
  induction l1 as [|x l1 IH]; [reflexivity|]. cbn. now rewrite IH.
Qed.

Lemma firstn_app_short {A : Type} (l1 l2 : list A) (j : nat) :
  j <= length l1 -> firstn j (l1 ++ l2) = firstn j l1.
Proof.
  intros H. rewrite firstn_app. replace (j - length l1) with 0 by lia.
  cbn. apply app_nil_r.
Qed.

Lemma run_evaluation_eq (test_cases : option (list test_case)) (w : world env) :
  run_evaluation lower infer test_cases w
  = match evaluate_each lower infer fine_tuned (cases_of test_cases) []
            (printing [lit "Running evaluation on fine-tuned model..."] w) with
    | (Raise e, w1) => (Raise e, w1)
    | (Ok ft, w1) =>
        match evaluate_each lower infer base_model (cases_of test_cases) []
                (printing [lit "Running evaluation on base model for comparison..."]
                   w1) with
        | (Raise e, w2) => (Raise e, w2)
        | (Ok bm, w2) =>
            (match _calculate_summary ft bm with
             | Ok s => Ok {| results_fine_tuned := ft; results_base_model := bm;
                             results_summary := s |}
             | Raise e => Raise e
             end, w2)
        end
    end.
Proof.
  unfold run_evaluation, bind, print, printing, lift, ret, cases_of.
  destruct (evaluate_each lower infer fine_tuned _ [] _) as [[ft|e] w1];
    [|reflexivity].
  destruct (evaluate_each lower infer base_model _ [] _) as [[bm|e] w2];
    [|reflexivity].
  now destruct (_calculate_summary ft bm).
Qed.

Lemma generated_length (m : model_type) (tcs : list test_case) :
  length (generated m tcs) = length tcs.
Proof. unfold generated. apply length_map. Qed.

Lemma run_evaluation_frame (test_cases : option (list test_case)) (w : world env) :
  written (snd (run_evaluation lower infer test_cases w)) = written w
  /\ exists j, j <= 2 * length (cases_of test_cases)
               /\ events (snd (run_evaluation lower infer test_cases w))
                  = events w ++ firstn j (all_calls (cases_of test_cases))
               /\ (forall r, fst (run_evaluation lower infer test_cases w) = Ok r ->
                             j = 2 * length (cases_of test_cases)).
Proof.
  rewrite run_evaluation_eq. generalize (cases_of test_cases) as tcs. intros tcs.
  set (w0 := printing _ w).
  destruct (evaluate_each_frame fine_tuned tcs [] w0) as [_ [W1 [j1 [J1 [E1 K1]]]]].
  destruct (evaluate_each lower infer fine_tuned tcs [] w0) as [[ft|e] w1];
    cbn [fst snd] in *.
  - specialize (K1 ft eq_refl). subst j1.
    rewrite <- (generated_length fine_tuned tcs), firstn_all in E1.
    set (w1' := printing _ w1).
    destruct (evaluate_each_frame base_model tcs [] w1') as [_ [W2 [j2 [J2 [E2 K2]]]]].
    destruct (evaluate_each lower infer base_model tcs [] w1') as [[bm|e] w2];
      cbn [fst snd] in *.
    + specialize (K2 bm eq_refl). subst j2.
      split; [unfold w1', w0 in *; cbn in *; congruence|].
      exists (2 * length tcs). split; [lia|]. split; [|reflexivity].
      rewrite E2. unfold w1'. cbn [printing events]. rewrite E1.
      unfold w0. cbn [printing events]. rewrite <- app_assoc. f_equal.
      unfold all_calls.
      replace (2 * length tcs) with (length (generated fine_tuned tcs) + length tcs)
        by (rewrite generated_length; lia).
      now rewrite firstn_app_full.
    + split; [unfold w1', w0 in *; cbn in *; congruence|].
      exists (length tcs + j2). split; [lia|]. split; [|discriminate].
      rewrite E2. unfold w1'. cbn [printing events]. rewrite E1.
      unfold w0. cbn [printing events]. rewrite <- app_assoc. f_equal.
      unfold all_calls.
      replace (length tcs + j2) with (length (generated fine_tuned tcs) + j2)
        by (now rewrite generated_length).
      now rewrite firstn_app_full.
  - split; [unfold w0 in *; cbn in *; congruence|].
    exists j1. split; [lia|]. split; [|discriminate].
    rewrite E1. unfold w0. cbn [printing events]. f_equal.
    unfold all_calls. symmetry. apply firstn_app_short.
    now rewrite generated_length.
Qed.

(** X6. Whatever happens, a run of the evaluation writes no file, and the
    generation calls it has made are a prefix of the calls of a complete run,
    the fine-tuned pass and then the base pass, each test case in order: no
    call is repeated or made out of order, and after a call that raises none
    follows. A run that returns has made all of them. *)
Theorem generation_calls_in_order (test_cases : option (list test_case))
    (w : world env) :
  written (snd (run_evaluation lower infer test_cases w)) = written w
  /\ exists j, j <= 2 * length (cases_of test_cases)
               /\ events (snd (run_evaluation lower infer test_cases w))
                  = events w ++ firstn j (all_calls (cases_of test_cases))
               /\ (forall r, fst (run_evaluation lower infer test_cases w) = Ok r ->
                             j = 2 * length (cases_of test_cases)).
Proof. apply run_evaluation_frame. Qed.

Lemma main_eq (a : args) (w : world env) :
  main lower path_exists load infer upper format_float dump_results a w
  = if negb (path_exists (arg_fine_tuned_model a) (outside w)) then
      (Ok 1%Z,
       printing [lit "Error: Fine-tuned model directory '"
                 ++ arg_fine_tuned_model a ++ lit "' not found"] w)
    else
      let w0 := {| outside := snd (load (arg_base_model a) (arg_fine_tuned_model a)
                                     (outside w));
                   events := events w ++ [load_event a];
                   stdout := stdout w; written := written w |} in
      match fst (load (arg_base_model a) (arg_fine_tuned_model a) (outside w)) with
      | Raise e =>
          (Ok 1%Z, printing [lit "Error during evaluation: " ++ exn_text e] w0)
      | Ok _ =>
          match run_evaluation lower infer None w0 with
          | (Raise e, w1) =>
              (Ok 1%Z, printing [lit "Error during evaluation: " ++ exn_text e] w1)
          | (Ok r, w1) =>
              (Ok 0%Z,
               printing [[nl; 128190%N] ++ lit " Results saved to " ++ arg_output a]
                 {| outside := outside w1; events := events w1;
                    stdout := stdout w1 ++ report_lines upper format_float r;
                    written := written w1 ++ [(arg_output a, dump_results r)] |})
          end
      end.
Proof.
  unfold main. destruct (negb (path_exists (arg_fine_tuned_model a) (outside w))).
  - reflexivity.
  - unfold try_except, bind at 1, new_evaluator, load_event. cbn zeta.
    destruct (load (arg_base_model a) (arg_fine_tuned_model a) (outside w))
      as [[u|e] o]; cbn [fst snd]; [|reflexivity].
    unfold bind at 1.
    destruct (run_evaluation lower infer None _) as [[r|e] w1]; [|reflexivity].
    unfold bind at 1, print_evaluation_report. rewrite print_all_eq.
    reflexivity.
Qed.

(** X7. [main] never raises and returns 0 or 1. It returns 0 only when the
    model directory exists, loading succeeds and the evaluation, run after
    the loading, returns its results; then exactly one file is written, the
    results at the output path. In every other case it returns 1 and writes nothing, and the last
    line printed is an error message (with the text of the exception when
    there is one). *)
Theorem main_exit_status (a : args) (w : world env) :
  exists code w',
    main lower path_exists load infer upper format_float dump_results a w
    = (Ok code, w')
    /\ (code = 0%Z \/ code = 1%Z)
    /\ (code = 1%Z ->
        written w' = written w
        /\ exists msg, stdout w' = stdout w ++ msg
                       /\ exists line, last msg [] = lit "Error" ++ line)
    /\ (code = 0%Z ->
        path_exists (arg_fine_tuned_model a) (outside w) = true
        /\ exists r w1,
             fst (load (arg_base_model a) (arg_fine_tuned_model a) (outside w))
             = Ok tt
             /\ run_evaluation lower infer None
                  {| outside := snd (load (arg_base_model a)
                                       (arg_fine_tuned_model a) (outside w));
                     events := events w ++ [load_event a];
                     stdout := stdout w; written := written w |}
                = (Ok r, w1)
             /\ written w' = written w ++ [(arg_output a, dump_results r)]).
Proof.
  rewrite main_eq.
  destruct (path_exists (arg_fine_tuned_model a) (outside w)) eqn:Hp; cbn [negb].
  2:{ eexists _, _. split; [reflexivity|]. split; [now right|]. split.
      - intros _. split; [reflexivity|]. eexists. split; [reflexivity|].
        eexists. reflexivity.
      - discriminate. }
  cbn zeta.
  destruct (load (arg_base_model a) (arg_fine_tuned_model a) (outside w))
    as [[[]|e] o] eqn:Hl; cbn [fst snd].
  2:{ eexists _, _. split; [reflexivity|]. split; [now right|]. split.
      - intros _. split; [reflexivity|]. eexists. split; [reflexivity|].
        eexists. reflexivity.
      - discriminate. }
  match goal with |- context [run_evaluation lower infer None ?w0] =>
    pose proof (run_evaluation_frame None w0) as [Hw [j [_ [Hev _]]]];
    destruct (run_evaluation lower infer None w0) as [[r|e] w1] eqn:Hr
  end; cbn [fst snd written] in Hw.
  - eexists _, _. split; [reflexivity|]. split; [now left|]. split; [discriminate|].
    intros _. split; [reflexivity|]. exists r, w1.
    split; [reflexivity|]. split; [reflexivity|]. cbn. now rewrite Hw.
  - eexists _, _. split; [reflexivity|]. split; [now right|]. split; [|discriminate].
    intros _. split; [exact Hw|].
    rewrite run_evaluation_eq in Hr.
    assert (Hout : exists ls, stdout w1 = stdout w ++ ls).
    { set (w0 := printing _ _) in Hr.
      destruct (evaluate_each_frame fine_tuned (cases_of None) [] w0)
        as [O1 _].
      destruct (evaluate_each lower infer fine_tuned (cases_of None) [] w0)
        as [[ft|e1] w2]; cbn [snd] in O1.
      - set (w2' := printing _ w2) in Hr.
        destruct (evaluate_each_frame base_model (cases_of None) [] w2')
          as [O2 _].
        destruct (evaluate_each lower infer base_model (cases_of None) [] w2')
          as [[bm|e2] w3]; cbn [snd] in O2.
        + injection Hr as _ <-. rewrite O2. unfold w2'. cbn [printing stdout].
          rewrite O1. unfold w0. cbn [printing stdout]. rewrite <- app_assoc.
          now eexists.
        + injection Hr as _ <-. rewrite O2. unfold w2'. cbn [printing stdout].
          rewrite O1. unfold w0. cbn [printing stdout]. rewrite <- app_assoc.
          now eexists.
      - injection Hr as _ <-. rewrite O1. unfold w0. cbn [printing stdout].
        now eexists. }
    destruct Hout as [ls Hls]. cbn [printing stdout]. rewrite Hls, <- app_assoc.
    eexists. split; [reflexivity|]. rewrite last_last. eexists. reflexivity.
Qed.

End EffectProofs.


(** ** The category tables of the two models *)

Lemma summarize_categories (rs : list result) (s : model_summary) :
  summarize rs = Ok s -> _calculate_category_scores rs = Ok (category_scores s).
Proof.
  unfold summarize. intros H.
  destruct (truediv _ _); [|discriminate]. cbn [obind] in H.
  destruct (_calculate_category_scores rs); [|discriminate]. cbn [obind] in H.
  now injection H as <-.
Qed.

Lemma get_default_In (d : list (str * Q)) (c : str) (v dflt : Q) :
  NoDup (map fst d) -> In (c, v) d -> get_default d c dflt = v.
Proof.
  induction d as [|[k x] d IH]; intros Hnd Hin; [destruct Hin|].
  cbn [get_default]. cbn [map fst] in Hnd. inversion Hnd as [|? ? Hk Hnd']; subst.
  destruct Hin as [E|Hin].
  - injection E as -> ->. now rewrite str_eqb_refl.
  - destruct (str_eqb k c) eqn:E; [|now apply IH].
    apply str_eqb_eq in E. subst k. elim Hk. apply in_map_iff. now exists (c, v).
Qed.

Lemma result_of_categories (m : model_type) (tcs : list test_case)
    (rs : list result) :
  Forall2 (fun tc x => result_of tc m x) tcs rs ->
  map res_category rs = map category tcs.
Proof.
  induction 1 as [|tc r tcs rs [H _] _ IH]; [reflexivity|].
  cbn [map]. now rewrite H, IH.
Qed.

Section CategoryTables.

Variable lower : str -> str.
Variable env : Type.
Variable infer : model_type -> str -> env -> outcome str * env.

(** X8. In the results of a run that returns, the category tables of the
    two models have the same categories in the same order: those of the test
    cases, in the order of their first occurrence. So the report's lookup of
    a fine-tuned category in the base model's table never falls back on its
    default: it finds the base model's entry for that category. *)
Theorem category_tables_aligned (test_cases : option (list test_case))
    (w w' : world env) (r : results) :
  run_evaluation lower infer test_cases w = (Ok r, w') ->
  let ft := category_scores (sum_fine_tuned (results_summary r)) in
  let bm := category_scores (sum_base_model (results_summary r)) in
  map fst ft = first_seen (map category (cases_of test_cases))
  /\ map fst bm = map fst ft
  /\ forall c dflt, In c (map fst ft) -> In (c, get_default bm c dflt) bm.
Proof.
  intros H. apply run_evaluation_ok in H. destruct H as [H1 [H2 [_ Hs]]].
  destruct (@calculate_summary_fields _ _ _ Hs) as [Ef [Eb _]].
  apply summarize_categories in Ef, Eb.
  rewrite category_scores_eq in Ef, Eb. injection Ef as Ef. injection Eb as Eb.
  apply result_of_categories in H1, H2. cbn zeta.
  rewrite <- Ef, <- Eb, !map_map. cbn [fst]. rewrite !map_id, H1, H2.
  split; [reflexivity|]. split; [reflexivity|].
  intros c dflt Hc.
  set (entry := fun c0 : str =>
                  (c0, (qsum (scores_in c0 (results_base_model r))
                        / of_nat (length (scores_in c0 (results_base_model r))))%Q)).
  assert (Hin : In (entry c) (map entry (first_seen (map category (cases_of test_cases))))).
  { apply in_map. exact Hc. }
  rewrite (@get_default_In _ c (snd (entry c)) dflt); [exact Hin| |exact Hin].
  rewrite map_map. cbn [entry fst]. rewrite map_id. apply first_seen_NoDup.
Qed.

End CategoryTables.


Lemma category_tables_aligned_witness :
  exists r w',
    run_evaluation ascii_lower echo (Some [sample_case]) quiet_world = (Ok r, w')
    /\ map fst (category_scores (sum_fine_tuned (results_summary r)))
       = [lit "Authentication"]
    /\ map fst (category_scores (sum_base_model (results_summary r)))
       = map fst (category_scores (sum_fine_tuned (results_summary r))).
Proof.
  destruct (run_evaluation ascii_lower echo (Some [sample_case]) quiet_world)
    as [[r|e] w'] eqn:H; [|vm_compute in H; discriminate].
  exists r, w'. split; [reflexivity|].
  destruct (@category_tables_aligned ascii_lower unit echo
              (Some [sample_case]) quiet_world w' r H) as [H1 [H2 _]].
  split; [exact H1|exact H2].
Defined.


(** ** The report *)

Section ReportProofs.

Variable env : Type.
Variable upper : str -> str.
Variable format_float : float_format -> Q -> str.




End ReportProofs.


(** ** What a section lookup returns *)

Lemma lstrip_suffix (s : str) : exists ws, s = ws ++ lstrip s.
Proof.
  induction s as [|c s [ws IH]]; [now exists []|].
  cbn [lstrip]. destruct (isspace c).
  - exists (c :: ws). cbn [app]. now rewrite <- IH.
  - now exists [].
Qed.

Lemma rstrip_prefix (s : str) : exists ws, s = rstrip s ++ ws.
Proof.
  unfold rstrip. destruct (lstrip_suffix (rev s)) as [ws H].
  exists (rev ws). rewrite <- rev_app_distr, <- H. now rewrite rev_involutive.
Qed.

Lemma strip_inside (s : str) : exists a b, s = a ++ strip s ++ b.
Proof.
  unfold strip. destruct (lstrip_suffix s) as [a Ha].
  destruct (rstrip_prefix (lstrip s)) as [b Hb].
  exists a, b. now rewrite <- Hb.
Qed.

Lemma occurs_inside (x s a b : str) : occurs x s -> occurs x (a ++ s ++ b).
Proof.
  intros [p [q ->]]. exists (a ++ p), (q ++ b). now rewrite <- !app_assoc.
Qed.

Lemma occurs_strip (x s : str) : occurs x (strip s) -> occurs x s.
Proof.
  intros H. destruct (strip_inside s) as [a [b E]]. rewrite E.
  now apply occurs_inside.
Qed.

Lemma lstrip_head (s : str) :
  match lstrip s with
  | [] => True
  | c :: _ => isspace c = false
  end.
Proof.
  induction s as [|c s IH]; [exact I|].
  cbn [lstrip]. destruct (isspace c) eqn:E; [exact IH|exact E].
Qed.

Lemma lstrip_fixed (s : str) :
  match s with
  | [] => True
  | c :: _ => isspace c = false
  end -> lstrip s = s.
Proof.
  destruct s as [|c s]; [reflexivity|]. cbn [lstrip]. now intros ->.
Qed.

Lemma lstrip_idem (s : str) : lstrip (lstrip s) = lstrip s.
Proof. apply lstrip_fixed, lstrip_head. Qed.

Lemma rstrip_idem (s : str) : rstrip (rstrip s) = rstrip s.
Proof.
  unfold rstrip. now rewrite rev_involutive, lstrip_idem.
Qed.

Lemma lstrip_rstrip (s : str) :
  match s with
  | [] => True
  | c :: _ => isspace c = false
  end -> lstrip (rstrip s) = rstrip s.
Proof.
  intros H. apply lstrip_fixed.
  destruct (rstrip_prefix s) as [ws E].
  destruct (rstrip s) as [|c r]; [exact I|].
  rewrite E in H. exact H.
Qed.

Lemma strip_idem (s : str) : strip (strip s) = strip s.
Proof.
  unfold strip. rewrite lstrip_rstrip by apply lstrip_head. apply rstrip_idem.
Qed.

Lemma until_stop_short (stop : str -> bool) (p s : str) :
  stop s = true -> length (until_stop stop (p ++ s)) <= length p.
Proof.
  intros H. induction p as [|c p IH].
  - cbn [app]. destruct s; cbn [until_stop]; rewrite H; cbn; lia.
  - cbn [app until_stop]. destruct (stop (c :: p ++ s)); cbn [length]; lia.
Qed.

Lemma until_stop_no_heading (tail : str) :
  ~ occurs top_heading (until_stop section_stop tail).
Proof.
  intros [p [q E]].
  pose proof (until_from_stop section_stop tail) as Ht.
  rewrite E, <- !app_assoc in Ht.
  assert (Hstop : section_stop (top_heading ++ q ++ from_stop section_stop tail) = true).
  { unfold section_stop. now rewrite strip_prefix_app. }
  pose proof (until_stop_short section_stop p _ Hstop) as Hlen.
  rewrite <- Ht, E, !length_app in Hlen.
  assert (length top_heading = 4) by reflexivity. lia.
Qed.

Lemma extract_section_inside (h doc : str) :
  occurs (_extract_section h doc) doc.
Proof.
  rewrite extract_section_eq.
  destruct (split_at_first h doc) as [[pre tail]|] eqn:E.
  - apply split_at_first_Some in E. destruct E as [-> _].
    destruct (strip_inside (until_stop section_stop tail)) as [a [b Hs]].
    exists (pre ++ h ++ a), (b ++ from_stop section_stop tail).
    rewrite (until_from_stop section_stop tail) at 1. rewrite Hs at 1.
    now rewrite <- !app_assoc.
  - exists [], doc. reflexivity.
Qed.

Lemma extract_section_no_heading (h doc : str) :
  ~ occurs top_heading (_extract_section h doc).
Proof.
  rewrite extract_section_eq.
  destruct (split_at_first h doc) as [[pre tail]|].
  - intros H. apply occurs_strip in H. now apply until_stop_no_heading in H.
  - intros [p [q E]]. destruct p; discriminate.
Qed.

Lemma extract_section_trimmed (h doc : str) :
  strip (_extract_section h doc) = _extract_section h doc.
Proof.
  rewrite extract_section_eq.
  destruct (split_at_first h doc) as [[pre tail]|]; [apply strip_idem|reflexivity].
Qed.

(** X10. What the section lookup returns is a piece of the document, has no
    white space at either end, and holds no top-level heading ([\n## ]): a
    section never runs into the next one. A non-empty result means that the
    heading occurs in the document. *)
Theorem section_body_invariants (header doc : str) :
  occurs (_extract_section header doc) doc
  /\ strip (_extract_section header doc) = _extract_section header doc
  /\ ~ occurs top_heading (_extract_section header doc)
  /\ (_extract_section header doc <> [] -> occurs header doc).
Proof.
  split; [apply extract_section_inside|].
  split; [apply extract_section_trimmed|].
  split; [apply extract_section_no_heading|].
  rewrite extract_section_eq.
  destruct (split_at_first header doc) as [[pre tail]|] eqn:E; [|congruence].
  intros _. exists pre, tail. now apply split_at_first_Some in E.
Qed.

(** X11. A lookup inside a section body does not stop at the next
    subsection: the body holds no top-level heading, so the lookup of a
    subsection heading returns everything that follows its first occurrence,
    up to the end of the section, trimmed. *)
Theorem nested_lookup_runs_to_end (header sub doc pre tail : str) :
  _extract_section header doc = pre ++ sub ++ tail ->
  (forall a b, _extract_section header doc = a ++ sub ++ b ->
               length pre <= length a) ->
  _extract_section sub (_extract_section header doc) = strip tail.
Proof.
  intros E Hfirst.
  rewrite (extract_section_eq sub), (split_at_first_complete _ _ _ E Hfirst).
  apply strip_until_stop_end.
  destruct (split_at_first top_heading tail) as [[a b]|] eqn:E2; [|reflexivity].
  exfalso. apply (extract_section_no_heading header doc).
  rewrite E. apply split_at_first_Some in E2. destruct E2 as [-> _].
  exists (pre ++ sub ++ a), b. now rewrite <- !app_assoc.
Qed.


Lemma nested_lookup_runs_to_end_witness :
  _extract_section (lit "### Working Credentials")
    (_extract_section (lit "## Authentication Information") credentials_doc)
  = lit "- **Email**: admin@example.com" ++ [nl] ++ [nl]
    ++ lit "### Access Requirements" ++ [nl] ++ lit "- **Role**: Admin".
Proof.
  rewrite (@nested_lookup_runs_to_end (lit "## Authentication Information")
             (lit "### Working Credentials") credentials_doc [] credentials_tail).
  - reflexivity.
  - reflexivity.
  - intros a b _. cbn. lia.
Defined.


(** ** What the bullet pattern returns *)

Lemma findall_from_sound (r : regex) (s : str) :
  forall skip caps,
    In caps (findall_from r skip s) ->
    exists pre suffix rest,
      s = pre ++ suffix /\ match_at r suffix = Some (caps, rest).
Proof.
  induction s as [|c s IH]; intros skip caps H.
  - destruct skip; [|destruct H]. cbn [findall_from] in H.
    destruct (match_at r []) as [[caps0 rest]|] eqn:E; [|destruct H].
    destruct H as [<-|[]]. now exists [], [], rest.
  - destruct skip as [|n].
    + cbn [findall_from] in H.
      destruct (match_at r (c :: s)) as [[caps0 rest]|] eqn:E.
      * destruct H as [<-|H]; [now exists [], (c :: s), rest|].
        destruct (IH _ _ H) as [pre [suffix [rest' [-> Hm]]]].
        now exists (c :: pre), suffix, rest'.
      * destruct (IH _ _ H) as [pre [suffix [rest' [-> Hm]]]].
        now exists (c :: pre), suffix, rest'.
    + cbn [findall_from] in H.
      destruct (IH _ _ H) as [pre [suffix [rest' [-> Hm]]]].
      now exists (c :: pre), suffix, rest'.
Qed.

Lemma split_at_first_before (x s a b : str) :
  split_at_first x s = Some (a, b) -> x <> [] -> ~ occurs x a.
Proof.
  intros E Hx [p [q Ha]]. destruct (split_at_first_Some _ _ E) as [Hs Hmin].
  subst a. rewrite <- !app_assoc in Hs.
  specialize (Hmin p (q ++ x ++ b) Hs). rewrite !length_app in Hmin.
  destruct x; [congruence|]. cbn [length] in Hmin. lia.
Qed.

Lemma until_stop_avoids (stop : str -> bool) (x s : str) :
  (forall r, stop (x ++ r) = true) -> x <> [] ->
  ~ occurs x (until_stop stop s).
Proof.
  intros Hstop Hx [p [q E]].
  pose proof (until_from_stop stop s) as Hs.
  rewrite E, <- !app_assoc in Hs.
  pose proof (until_stop_short stop p _ (Hstop (q ++ from_stop stop s))) as Hlen.
  rewrite <- Hs, E, !length_app in Hlen.
  destruct x; [congruence|]. cbn [length] in Hlen. lia.
Qed.

Lemma bullet_stop_hyphen (r : str) : bullet_stop ((nl :: lit "-") ++ r) = true.
Proof. reflexivity. Qed.

Lemma bullet_stop_blank (r : str) : bullet_stop ([nl; nl] ++ r) = true.
Proof.
  unfold bullet_stop. cbn [app]. destruct r as [|c r]; [reflexivity|].
  change (lit "-") with [hyphen]. cbn [strip_prefix]. rewrite N.eqb_refl.
  now destruct (hyphen =? nl)%N.
Qed.

(** X12. Every bullet pair the pattern returns stands in the text as
    written: the text holds [- **name**: description]. The name holds no
    [**: ], and the description holds neither a line feed followed by a
    hyphen nor a blank line: a description never runs into the next bullet or
    the next paragraph. *)
Theorem bullets_are_in_the_text (text name description : str) :
  In (name, description) (bullets text) ->
  occurs (render_bullet (name, description)) text
  /\ ~ occurs (lit "**: ") name
  /\ ~ occurs (nl :: lit "-") description
  /\ ~ occurs [nl; nl] description.
Proof.
  unfold bullets, findall. intros H. apply in_map_iff in H.
  destruct H as [caps [Hc H]].
  apply findall_from_sound in H. destruct H as [pre [suffix [rest [-> Hm]]]].
  rewrite match_at_bullet in Hm.
  destruct (strip_prefix (lit "- **") suffix) as [s1|] eqn:E1; [|discriminate].
  destruct (split_at_first (lit "**: ") s1) as [[n s3]|] eqn:E2; [|discriminate].
  injection Hm as <- <-. cbn [group12] in Hc. injection Hc as <- <-.
  apply strip_prefix_Some in E1. subst suffix.
  split; [|split; [|split]].
  - destruct (split_at_first_Some _ _ E2) as [-> _].
    exists pre, (from_stop bullet_stop s3). unfold render_bullet. cbn [fst snd].
    rewrite (until_from_stop bullet_stop s3) at 1. now rewrite <- !app_assoc.
  - apply (@split_at_first_before _ _ _ _ E2). discriminate.
  - apply until_stop_avoids; [apply bullet_stop_hyphen|discriminate].
  - apply until_stop_avoids; [apply bullet_stop_blank|discriminate].
Qed.


Lemma bullets_are_in_the_text_witness :
  occurs (render_bullet (lit "Port", lit "use 5433")) two_bullets
  /\ ~ occurs (lit "**: ") (lit "Port")
  /\ ~ occurs (nl :: lit "-") (lit "use 5433")
  /\ ~ occurs [nl; nl] (lit "use 5433").
Proof.
  assert (H : In (lit "Port", lit "use 5433") (bullets two_bullets)).
  { vm_compute. left. reflexivity. }
  exact (@bullets_are_in_the_text two_bullets (lit "Port") (lit "use 5433") H).
Defined.


(** ** The files the extractor writes *)

Lemma hex_digit_printable (n : N) : (32 <= hex_digit n)%N.
Proof. unfold hex_digit. destruct (n <? 10)%N; lia. Qed.

Lemma escape_char_control_free (c : char) : control_free (escape_char c).
Proof.
  unfold escape_char, control_free.
  destruct (c =? 34)%N; [repeat constructor; discriminate|].
  destruct (c =? 92)%N; [repeat constructor; discriminate|].
  destruct (c =? 10)%N; [repeat constructor; discriminate|].
  destruct (c =? 13)%N; [repeat constructor; discriminate|].
  destruct (c =? 9)%N; [repeat constructor; discriminate|].
  destruct (c =? 8)%N; [repeat constructor; discriminate|].
  destruct (c =? 12)%N; [repeat constructor; discriminate|].
  destruct (N.ltb_spec c 32) as [Hlt|Hge].
  - change (lit "\u00") with [92; 117; 48; 48]%N. cbn [app].
    repeat constructor; try discriminate; apply hex_digit_printable.
  - repeat constructor. exact Hge.
Qed.

Lemma encode_string_control_free (s : str) : control_free (encode_string s).
Proof.
  unfold encode_string, control_free. constructor; [discriminate|].
  apply Forall_app. split; [|repeat constructor; discriminate].
  induction s as [|c s IH]; [constructor|].
  cbn [flat_map]. apply Forall_app. split; [apply escape_char_control_free|exact IH].
Qed.

Lemma dumps_control_free (e : example) : control_free (dumps e).
Proof.
  unfold dumps, control_free.
  repeat (apply Forall_app; split);
    try apply encode_string_control_free;
    repeat constructor; discriminate.
Qed.


(** X13. The [jsonl] text has exactly one line per example, in order, each
    line the [json.dumps] of its example, whatever the texts of the examples
    hold: no line has a control character in it, so a line feed inside an
    instruction, a context or a response never breaks a record in two. *)
Theorem jsonl_one_line_per_example (examples : list example) :
  lines (write_jsonl examples) = map dumps examples
  /\ length (lines (write_jsonl examples)) = length examples
  /\ Forall control_free (lines (write_jsonl examples)).
Proof.
  rewrite lines_write_jsonl. split; [reflexivity|]. split; [apply length_map|].
  apply Forall_forall. intros l Hl. apply in_map_iff in Hl.
  destruct Hl as [e [<- _]]. apply dumps_control_free.
Qed.

Section ExtractorMainProofs.

Variable lower : str -> str.
Variable files : str -> option str.


End ExtractorMainProofs.


(** ** Subsections *)

Lemma rmatch_ahead_subsection {A : Type} (x : str) (c : list str)
    (k : str -> list str -> option A) :
  rmatch (Ahead (Alt (Lit (nl :: lit "### ")) Eos)) x c k
  = if subsection_stop x then k x c else None.
Proof.
  cbn [rmatch]. unfold subsection_stop.
  destruct (strip_prefix (nl :: lit "### ") x); [reflexivity|].
  destruct (at_end x); reflexivity.
Qed.

Lemma match_at_subsection (s : str) :
  match_at subsection_re s =
  match strip_prefix (lit "### ") s with
  | Some s1 =>
      match split_at_first [nl] s1 with
      | Some (name, s3) =>
          Some ([name; until_stop subsection_stop s3], from_stop subsection_stop s3)
      | None => None
      end
  | None => None
  end.
Proof.
  unfold match_at, subsection_re. cbn [rmatch].
  destruct (strip_prefix (lit "### ") s) as [s1|]; [|reflexivity].
  rewrite lazy_any_ext with
    (k2 := fun x =>
             match strip_prefix [nl] x with
             | Some r =>
                 Some ([firstn (length s1 - length x) s1;
                        until_stop subsection_stop r], from_stop subsection_stop r)
             | None => None
             end).
  - rewrite lazy_any_literal.
    destruct (split_at_first [nl] s1) as [[name s3]|] eqn:E; [|reflexivity].
    apply split_at_first_Some in E. destruct E as [-> _].
    now rewrite firstn_split_length.
  - intros x. destruct (strip_prefix [nl] x) as [r|]; [|reflexivity].
    rewrite lazy_any_ext with
      (k2 := fun y =>
               if subsection_stop y
               then Some ([firstn (length s1 - length x) s1;
                           firstn (length r - length y) r], y)
               else None).
    + rewrite lazy_any_stop by reflexivity. now rewrite firstn_until_stop.
    + intros y.
      apply (rmatch_ahead_subsection y _ (fun s' caps => Some (caps, s'))).
Qed.

Lemma until_stop_whole (stop : str -> bool) (d rest : str) :
  (forall p c q, d = p ++ c :: q -> stop ((c :: q) ++ rest) = false) ->
  stop rest = true ->
  until_stop stop (d ++ rest) = d /\ from_stop stop (d ++ rest) = rest.
Proof.
  intros Hin Hrest. induction d as [|c d IH].
  - destruct rest; cbn [app until_stop from_stop]; rewrite Hrest; auto.
  - change ((c :: d) ++ rest) with (c :: (d ++ rest)).
    cbn [until_stop from_stop].
    change (c :: (d ++ rest)) with ((c :: d) ++ rest).
    rewrite (Hin [] c d eq_refl).
    destruct IH as [-> ->]; [|auto].
    intros p c' q E. apply (Hin (c :: p) c' q). now rewrite E.
Qed.

(** Inside a content the lookahead of the pattern fails: before the end of
    input when the content does not end in a line feed, before the next
    heading in any case. *)
Lemma subsection_stop_inside (content rest p q : str) (c : char) :
  ~ occurs (nl :: lit "### ") content ->
  (rest = [] /\ (forall x, content <> x ++ [nl])
   \/ exists r, rest = nl :: lit "### " ++ r) ->
  content = p ++ c :: q ->
  subsection_stop ((c :: q) ++ rest) = false.
Proof.
  intros Hno Hrest E. unfold subsection_stop.
  destruct (strip_prefix (nl :: lit "### ") ((c :: q) ++ rest)) as [r|] eqn:S.
  - exfalso. apply strip_prefix_Some in S.
    destruct Hrest as [[-> _]|[r' ->]].
    + rewrite app_nil_r in S. apply Hno. exists p, r. now rewrite E, S.
    + (* the heading would start inside the content *)
      change (nl :: lit "### " ++ r') with ([nl; 35; 35; 35; 32]%N ++ r') in S.
      change (nl :: lit "### ") with [nl; 35; 35; 35; 32]%N in *.
      cbn [app] in S. injection S as -> S.
      destruct q as [|q1 q]; [cbn in S; discriminate|].
      cbn [app] in S. injection S as -> S.
      destruct q as [|q2 q]; [cbn in S; discriminate|].
      cbn [app] in S. injection S as -> S.
      destruct q as [|q3 q]; [cbn in S; discriminate|].
      cbn [app] in S. injection S as -> S.
      destruct q as [|q4 q]; [cbn in S; discriminate|].
      cbn [app] in S. injection S as -> S.
      apply Hno. exists p, q. now rewrite E.
  - destruct Hrest as [[-> Hend]|[r' ->]].
    + rewrite app_nil_r. cbn [at_end]. destruct q as [|q1 q]; [|reflexivity].
      apply N.eqb_neq. intros ->. apply (Hend p). exact E.
    + cbn [app at_end]. now destruct q.
Qed.

Lemma match_at_rendered_subsection (sub : str * str) (rest : str) :
  ~ In nl (fst sub) ->
  ~ occurs (nl :: lit "### ") (snd sub) ->
  (rest = [] /\ (forall x, snd sub <> x ++ [nl])
   \/ exists r, rest = nl :: lit "### " ++ r) ->
  match_at subsection_re (render_subsection sub ++ rest)
  = Some ([fst sub; snd sub], rest).
Proof.
  intros Hname Hno Hrest. rewrite match_at_subsection.
  unfold render_subsection. rewrite <- !app_assoc, strip_prefix_app.
  rewrite (@split_at_first_fresh [] (fst sub) (snd sub ++ rest) nl Hname).
  destruct (@until_stop_whole subsection_stop (snd sub) rest) as [-> ->];
    [| |reflexivity].
  - intros p c q E. now apply (@subsection_stop_inside (snd sub) rest p q c).
  - destruct Hrest as [[-> _]|[r ->]]; reflexivity.
Qed.

Lemma match_at_subsection_nl (x : str) : match_at subsection_re (nl :: x) = None.
Proof. rewrite match_at_subsection. reflexivity. Qed.

(** A content followed by a line feed still holds no subsection heading. *)
Lemma no_heading_pad (content : str) :
  ~ occurs (nl :: lit "### ") content ->
  ~ occurs (nl :: lit "### ") (content ++ [nl]).
Proof.
  intros Hno [a [b E]]. destruct b as [|x b _] using rev_ind.
  - rewrite app_nil_r in E.
    change (nl :: lit "### ") with ([nl; 35; 35; 35]%N ++ [32%N]) in E.
    rewrite !app_assoc in E. apply app_inj_tail in E. destruct E as [_ E].
    discriminate.
  - rewrite !app_assoc in E. apply app_inj_tail in E. destruct E as [E _].
    apply Hno. exists a, b. now rewrite E, <- app_assoc.
Qed.

Lemma join_subsections_start (sep : str) (sub : str * str) (subs : list (str * str)) :
  exists r, join sep (map render_subsection (sub :: subs)) = lit "### " ++ r.
Proof.
  cbn [map join]. destruct (map render_subsection subs);
    unfold render_subsection; rewrite <- ?app_assoc; eexists; reflexivity.
Qed.

Lemma findall_rendered_subsections (blank : bool) (subs : list (str * str)) :
  Forall well_formed_subsection subs ->
  findall subsection_re (render_subsections blank subs)
  = map (fun sub => [fst sub; snd sub]) (padded blank subs).
Proof.
  unfold findall, render_subsections.
  induction 1 as [|sub subs Hs Hrest IH]; [reflexivity|].
  destruct Hs as [Hname [Hno Hend]].
  destruct subs as [|sub2 subs].
  - cbn [map join padded]. rewrite <- (app_nil_r (render_subsection sub)).
    rewrite findall_from_match with (caps := [fst sub; snd sub]).
    + reflexivity.
    + unfold render_subsection. discriminate.
    + apply match_at_rendered_subsection; [exact Hname|exact Hno|now left].
  - change (padded blank (sub :: sub2 :: subs))
      with (pad blank sub :: padded blank (sub2 :: subs)).
    change (join (gap blank) (map render_subsection (sub :: sub2 :: subs)))
      with (render_subsection sub
            ++ gap blank ++ join (gap blank) (map render_subsection (sub2 :: subs))).
    destruct (join_subsections_start (gap blank) sub2 subs) as [r HJ].
    revert IH.
    generalize (padded blank (sub2 :: subs)) as done.
    rewrite HJ. intros done IH.
    assert (E : render_subsection sub ++ gap blank ++ lit "### " ++ r
                = render_subsection (pad blank sub) ++ nl :: lit "### " ++ r).
    { destruct blank; cbn [gap pad]; [|reflexivity].
      unfold render_subsection. cbn [fst snd]. now rewrite <- !app_assoc. }
    rewrite E.
    rewrite findall_from_match with (caps := [fst (pad blank sub); snd (pad blank sub)]).
    + cbn [map]. f_equal.
      rewrite findall_from_miss by apply match_at_subsection_nl. exact IH.
    + unfold render_subsection. discriminate.
    + apply match_at_rendered_subsection.
      * now destruct blank.
      * destruct blank; [apply no_heading_pad|]; exact Hno.
      * right. now exists r.
Qed.

Lemma subsections_rendered (blank : bool) (subs : list (str * str)) :
  Forall well_formed_subsection subs ->
  subsections (render_subsections blank subs) = padded blank subs.
Proof.
  intros H. unfold subsections. rewrite (findall_rendered_subsections blank H), map_map.
  rewrite <- (map_id (padded blank subs)) at 2. apply map_ext. now intros [n c].
Qed.

Lemma render_subsections_not_empty (blank : bool) (subs : list (str * str)) :
  subs <> [] -> is_empty (render_subsections blank subs) = false.
Proof.
  destruct subs as [|s subs]; [congruence|]. intros _.
  unfold render_subsections. cbn [map join].
  destruct (map render_subsection subs); reflexivity.
Qed.

(** What is read from a content does not change with the line feed that a
    blank line leaves at its end. *)
Lemma flat_map_padded {Y : Type} (g : str * str -> list Y) (blank : bool)
    (subs : list (str * str)) :
  (forall s, In s subs -> g (fst s, snd s ++ [nl]) = g s) ->
  flat_map g (padded blank subs) = flat_map g subs.
Proof.
  induction subs as [|s subs IH]; intros H; [reflexivity|].
  destruct subs as [|s2 subs]; [reflexivity|].
  change (padded blank (s :: s2 :: subs))
    with (pad blank s :: padded blank (s2 :: subs)).
  cbn [flat_map]. rewrite IH.
  - f_equal. destruct blank; [|reflexivity]. apply H. now left.
  - intros x Hx. apply H. now right.
Qed.

Lemma flat_map_ext_in {X Y : Type} (f g : X -> list Y) (xs : list X) :
  (forall x, In x xs -> f x = g x) -> flat_map f xs = flat_map g xs.
Proof.
  induction xs as [|x xs IH]; intros H; [reflexivity|].
  cbn [flat_map]. rewrite (H x (or_introl eq_refl)), IH; [reflexivity|].
  intros y Hy. apply H. now right.
Qed.

(** X15. A section body made of subsections [### name], each name one
    line and each content free of subsection headings and not ended by a line
    feed, with a line feed or a blank line between them, is read back by the
    subsection pattern as exactly these subsections, in order, with their
    names; the content read is the content written, followed by a line feed
    when a blank line follows. *)
Theorem subsections_extracted (blank : bool) (subs : list (str * str)) :
  Forall well_formed_subsection subs ->
  subsections (render_subsections blank subs) = padded blank subs
  /\ map fst (subsections (render_subsections blank subs)) = map fst subs.
Proof.
  intros H. rewrite (subsections_rendered blank H). split; [reflexivity|].
  clear H. induction subs as [|s subs IH]; [reflexivity|].
  destruct subs as [|s2 subs]; [reflexivity|].
  change (padded blank (s :: s2 :: subs))
    with (pad blank s :: padded blank (s2 :: subs)).
  cbn [map]. rewrite IH. now destruct blank.
Qed.


(** ** Bullets under subsections *)

Lemma findall_rendered_bullets_then (items : list ((str * str) * bool)) (t : str) :
  Forall (fun it => well_formed_bullet (fst it)) items ->
  bullet_stop t = true ->
  findall_from bullet_re 0 (render_bullets items ++ t)
  = map (fun it => [fst (fst it); snd (fst it)]) items ++ findall_from bullet_re 0 t.
Proof.
  intros H Ht. induction H as [|[b blank] rest Hb Hrest IH]; [reflexivity|].
  cbn [render_bullets map fst snd]. rewrite <- !app_assoc.
  rewrite findall_from_match with (caps := [fst b; snd b]).
  - cbn [app]. f_equal. destruct blank.
    + change ([nl; nl] ++ render_bullets rest ++ t)
        with (nl :: nl :: (render_bullets rest ++ t)).
      rewrite !findall_from_miss by apply match_at_bullet_nl. exact IH.
    + destruct rest as [|it rest]; [exact IH|].
      change ([nl] ++ render_bullets (it :: rest) ++ t)
        with (nl :: (render_bullets (it :: rest) ++ t)).
      rewrite findall_from_miss by apply match_at_bullet_nl. exact IH.
  - unfold render_bullet. discriminate.
  - apply match_at_rendered_bullet; [exact Hb|].
    destruct blank; [reflexivity|].
    destruct rest as [|[b2 bl2] rest]; [exact Ht|reflexivity].
Qed.

Lemma bullets_rendered_then (items : list ((str * str) * bool)) (t : str) :
  Forall (fun it => well_formed_bullet (fst it)) items ->
  bullet_stop t = true -> bullets t = [] ->
  bullets (render_bullets items ++ t) = map fst items.
Proof.
  intros H Ht Hnone. unfold bullets, findall in *.
  rewrite (@findall_rendered_bullets_then items t H Ht), map_app, Hnone, app_nil_r, map_map.
  apply map_ext. now intros [[n d] bl].
Qed.

Lemma bullets_rendered (items : list ((str * str) * bool)) :
  Forall (fun it => well_formed_bullet (fst it)) items ->
  bullets (render_bullets items) = map fst items.
Proof.
  intros H. rewrite <- (app_nil_r (render_bullets items)).
  now apply bullets_rendered_then.
Qed.

Section SubsectionRoutines.

Variable lower : str -> str.

Lemma append_subsection_bullets_rendered (mk : str -> str * str -> example)
    (blank : bool) (subs : list (str * list ((str * str) * bool)))
    (exs : list example) :
  Forall well_formed_bullet_subsection subs ->
  append_subsection_bullets mk
    (subsections (render_subsections blank (map bullet_subsection subs))) exs
  = exs ++ flat_map (fun s => map (fun it => mk (fst s) (fst it)) (snd s)) subs.
Proof.
  intros Hwf. rewrite Forall_forall in Hwf. rewrite subsections_rendered.
  - rewrite append_subsection_bullets_app. f_equal.
    rewrite flat_map_padded.
    + rewrite flat_map_concat_map, map_map, <- flat_map_concat_map.
      apply flat_map_ext_in. intros s Hs. cbn [bullet_subsection fst snd].
      destruct (Hwf s Hs) as [_ Hb].
      now rewrite (bullets_rendered Hb), map_map.
    + intros sub Hsub. apply in_map_iff in Hsub. destruct Hsub as [s [<- Hs]].
      cbn [bullet_subsection fst snd]. destruct (Hwf s Hs) as [_ Hb].
      now rewrite (bullets_rendered Hb), (@bullets_rendered_then (snd s) [nl] Hb).
  - apply Forall_forall. intros sub Hsub. apply in_map_iff in Hsub.
    destruct Hsub as [s [<- Hs]]. apply (Hwf s Hs).
Qed.

(** X16. When the section of the environment gotchas (or of the lessons
    learned) is a list of subsections whose contents are bullets, with a line
    feed or a blank line between the subsections, the routine appends one
    example per bullet, subsection after subsection and bullet after bullet,
    each built from the name of its subsection and from the name and the text
    of its bullet. *)
Theorem subsection_bullets_become_examples (doc : str) (blank : bool)
    (subs : list (str * list ((str * str) * bool))) (exs : list example) :
  subs <> [] ->
  Forall well_formed_bullet_subsection subs ->
  (_extract_section (lit "## Environment Gotchas") doc
   = render_subsections blank (map bullet_subsection subs) ->
   _extract_environment_gotchas lower doc exs
   = exs ++ flat_map (fun s => map (fun it => gotcha_example lower (fst s) (fst it))
                                 (snd s)) subs)
  /\ (_extract_section (lit "## Key Lessons Learned") doc
      = render_subsections blank (map bullet_subsection subs) ->
      _extract_lessons_learned lower doc exs
      = exs ++ flat_map (fun s => map (fun it => lesson_example lower (fst s) (fst it))
                                    (snd s)) subs).
Proof.
  intros Hne Hwf.
  assert (He : is_empty (render_subsections blank (map bullet_subsection subs))
               = false).
  { apply render_subsections_not_empty. now destruct subs. }
  split; intros Hsec.
  - unfold _extract_environment_gotchas. rewrite Hsec, He.
    now apply append_subsection_bullets_rendered.
  - unfold _extract_lessons_learned. rewrite Hsec, He.
    now apply append_subsection_bullets_rendered.
Qed.

End SubsectionRoutines.


Lemma not_occurs_by_search (x s : str) : contains x s = false -> ~ occurs x s.
Proof.
  intros E H. apply contains_occurs in H. congruence.
Qed.

Lemma no_final_line_feed (s : str) :
  match rev s with c :: _ => (c =? nl)%N = false | [] => True end ->
  forall c, s <> c ++ [nl].
Proof.
  intros H c E. subst s. rewrite rev_app_distr in H. cbn [rev app] in H.
  now rewrite N.eqb_refl in H.
Qed.



Lemma subsections_extracted_witness :
  subsections (render_subsections true two_subsections)
  = [ (lit "Docker", two_bullets ++ [nl]); (lit "Notes", lit "free text") ]
  /\ map fst (subsections (render_subsections true two_subsections))
     = [ lit "Docker"; lit "Notes" ].
Proof.
  apply (@subsections_extracted true two_subsections).
  repeat constructor;
    try (apply not_occurs_by_search; reflexivity);
    try (apply no_final_line_feed; reflexivity);
    cbv; intuition discriminate.
Defined.

Lemma subsection_bullets_become_examples_witness :
  map response (_extract_environment_gotchas ascii_lower gotchas_doc [])
  = [ lit "For Port: use 5433"; lit "For Volumes: prune them";
      lit "For Client: regenerate it" ].
Proof.
  assert (Hne : gotcha_subsections <> []) by discriminate.
  assert (Hwf : Forall well_formed_bullet_subsection gotcha_subsections).
  { repeat constructor;
      try (apply not_occurs_by_search; reflexivity);
      try (apply no_final_line_feed; reflexivity);
      cbv; intuition discriminate. }
  destruct (@subsection_bullets_become_examples ascii_lower gotchas_doc true
              gotcha_subsections [] Hne Hwf) as [H _].
  rewrite H; reflexivity.
Defined.


(** ** Fenced command blocks *)

Lemma match_at_code_block (s : str) :
  match_at code_block_re s =
  match strip_prefix (lit "```bash" ++ [nl]) s with
  | Some s1 =>
      match split_at_first (nl :: lit "```") s1 with
      | Some (commands, rest) => Some ([commands], rest)
      | None => None
      end
  | None => None
  end.
Proof.
  unfold match_at, code_block_re. cbn [rmatch].
  destruct (strip_prefix (lit "```bash" ++ [nl]) s) as [s1|]; [|reflexivity].
  rewrite lazy_any_ext with
    (k2 := fun x =>
             match strip_prefix (nl :: lit "```") x with
             | Some r => Some ([firstn (length s1 - length x) s1], r)
             | None => None
             end).
  - rewrite lazy_any_literal.
    destruct (split_at_first (nl :: lit "```") s1) as [[g rest]|] eqn:E;
      [|reflexivity].
    apply split_at_first_Some in E. destruct E as [-> _].
    now rewrite firstn_split_length.
  - intros x. now destruct (strip_prefix (nl :: lit "```") x).
Qed.

Lemma fence_first (commands rest : str) :
  well_formed_commands commands ->
  split_at_first (nl :: lit "```") (commands ++ (nl :: lit "```") ++ rest)
  = Some (commands, rest).
Proof.
  intros Hwf. apply split_at_first_complete; [reflexivity|].
  intros a' b' E.
  destruct (Nat.le_gt_cases (length commands) (length a')) as [H|H]; [exact H|].
  exfalso.
  assert (Hx : exists x, commands = a' ++ x /\ x <> []
                         /\ x ++ (nl :: lit "```") ++ rest = (nl :: lit "```") ++ b').
  { clear Hwf. revert commands E H. induction a' as [|c a' IH]; intros commands E H.
    - exists commands. split; [reflexivity|]. split; [|exact E].
      destruct commands; [cbn in H; lia|discriminate].
    - destruct commands as [|c' commands]; [cbn in H; lia|].
      cbn [app] in E. injection E as -> E.
      destruct (IH commands E) as [x [-> [Hx Hr]]]; [cbn in H; lia|].
      exists x. repeat split; assumption. }
  destruct Hx as [x [-> [Hne Hx]]].
  change (nl :: lit "```") with [nl; backtick; backtick; backtick] in Hx.
  destruct x as [|x1 x]; [congruence|]. cbn [app] in Hx. injection Hx as -> Hx.
  destruct x as [|x2 x]; [cbn [app] in Hx; discriminate|].
  cbn [app] in Hx. injection Hx as -> Hx.
  apply Hwf. exists a', x. reflexivity.
Qed.

Lemma match_at_rendered_block (commands rest : str) :
  well_formed_commands commands ->
  match_at code_block_re (render_block commands ++ rest) = Some ([commands], rest).
Proof.
  intros H. rewrite match_at_code_block. unfold render_block.
  rewrite <- (app_assoc (lit "```bash" ++ [nl])), strip_prefix_app.
  rewrite <- (app_assoc commands). now rewrite fence_first.
Qed.

Lemma match_at_code_block_nl (x : str) : match_at code_block_re (nl :: x) = None.
Proof. rewrite match_at_code_block. reflexivity. Qed.

(** The blocks of a content, with or without a line feed after the last
    one. *)
Lemma findall_rendered_blocks (blocks : list str) (t : str) :
  Forall well_formed_commands blocks ->
  t = [] \/ t = [nl] ->
  map group1 (findall code_block_re (render_blocks blocks ++ t)) = blocks.
Proof.
  unfold findall, render_blocks. intros H Ht.
  induction H as [|b blocks Hb Hrest IH].
  - destruct Ht as [->| ->]; reflexivity.
  - destruct blocks as [|b2 blocks].
    + cbn [map join].
      rewrite findall_from_match with (caps := [b]).
      * cbn [map group1]. f_equal. exact IH.
      * unfold render_block. discriminate.
      * now apply match_at_rendered_block.
    + change (join [nl] (map render_block (b :: b2 :: blocks)))
        with (render_block b ++ [nl] ++ join [nl] (map render_block (b2 :: blocks))).
      rewrite <- !app_assoc.
      rewrite findall_from_match with (caps := [b]).
      * cbn [map group1]. f_equal. cbn [app].
        rewrite findall_from_miss by apply match_at_code_block_nl. exact IH.
      * unfold render_block. discriminate.
      * now apply match_at_rendered_block.
Qed.

(** A loop that appends an example when something was found appends the
    examples of the places where something was found. *)
Lemma fold_left_found {X Y Z : Type} (find : X -> list Z) (mk : X -> list Z -> Y)
    (xs : list X) (acc : list Y) :
  fold_left (fun acc x => match find x with
                          | [] => acc
                          | _ => acc ++ [mk x (find x)]
                          end) xs acc
  = acc ++ flat_map (fun x => match find x with
                              | [] => []
                              | _ => [mk x (find x)]
                              end) xs.
Proof.
  rewrite <- fold_left_append. apply fold_left_ext. intros a x.
  destruct (find x); [now rewrite app_nil_r|reflexivity].
Qed.

Section CommandProofs.

Variable lower : str -> str.

(** X17. When the section of the critical commands is a list of
    subsections whose contents are fenced [bash] blocks, with a line feed or
    a blank line between the subsections, the routine appends one example per
    subsection that has a block, in order, and none for a subsection without:
    the example is built from the name of the subsection and the commands of
    all its blocks. *)
Theorem command_blocks_become_examples (doc : str) (blank : bool)
    (subs : list (str * list str)) (exs : list example) :
  subs <> [] ->
  Forall well_formed_block_subsection subs ->
  _extract_section (lit "## Critical Commands") doc
  = render_subsections blank (map block_subsection subs) ->
  _extract_critical_commands lower doc exs
  = exs ++ flat_map (fun s => match snd s with
                              | [] => []
                              | _ => [command_example lower (fst s) (snd s)]
                              end) subs.
Proof.
  intros Hne Hwf Hsec. rewrite Forall_forall in Hwf.
  unfold _extract_critical_commands. rewrite Hsec.
  rewrite render_subsections_not_empty by now destruct subs.
  rewrite subsections_rendered.
  - rewrite (fold_left_found
               (fun sub : str * str => map group1 (findall code_block_re (snd sub)))
               (fun sub found => command_example lower (fst sub) found)).
    f_equal. rewrite flat_map_padded.
    + rewrite flat_map_concat_map, map_map, <- flat_map_concat_map.
      apply flat_map_ext_in. intros s Hs. cbn [block_subsection fst snd].
      destruct (Hwf s Hs) as [_ Hb].
      rewrite <- (app_nil_r (render_blocks (snd s))).
      rewrite (@findall_rendered_blocks (snd s) [] Hb) by now left.
      reflexivity.
    + intros sub Hsub. apply in_map_iff in Hsub. destruct Hsub as [s [<- Hs]].
      cbn [block_subsection fst snd]. destruct (Hwf s Hs) as [_ Hb].
      pose proof (@findall_rendered_blocks (snd s) [] Hb (or_introl eq_refl)) as E0.
      rewrite app_nil_r in E0.
      rewrite (@findall_rendered_blocks (snd s) [nl] Hb) by (now right).
      now rewrite E0.
  - apply Forall_forall. intros sub Hsub. apply in_map_iff in Hsub.
    destruct Hsub as [s [<- Hs]]. apply (Hwf s Hs).
Qed.

End CommandProofs.


Lemma command_blocks_become_examples_witness :
  map response (_extract_critical_commands ascii_lower commands_doc [])
  = [ (lit "For Start Services:" ++ [nl] ++ lit "```bash" ++ [nl]
       ++ lit "docker compose up -d" ++ [nl] ++ lit "npm run dev" ++ [nl]
       ++ lit "```");
      (lit "For Stop Services:" ++ [nl] ++ lit "```bash" ++ [nl]
       ++ lit "docker compose down" ++ [nl] ++ lit "```") ].
Proof.
  assert (Hne : command_subsections <> []) by discriminate.
  assert (Hwf : Forall well_formed_block_subsection command_subsections).
  { repeat constructor;
      try (apply not_occurs_by_search; reflexivity);
      try (apply no_final_line_feed; reflexivity);
      cbv; intuition discriminate. }
  rewrite (@command_blocks_become_examples ascii_lower commands_doc true
             command_subsections [] Hne Hwf); reflexivity.
Defined.


(** ** Environment variables *)

Lemma greedy_plus_none (p : char -> bool) {A : Type} (k : str -> option A)
    (s : str) :
  match s with [] => True | c :: _ => p c = false end ->
  greedy_plus p k s = None.
Proof.
  destruct s as [|c s]; [reflexivity|]. cbn [greedy_plus]. now intros ->.
Qed.

(** A greedy run takes the whole run when what follows lets the rest of the
    pattern match. *)
Lemma greedy_plus_run (p : char -> bool) {A : Type} (k : str -> option A)
    (run rest : str) (a : A) :
  run <> [] -> Forall (fun c => p c = true) run ->
  match rest with [] => True | c :: _ => p c = false end ->
  k rest = Some a ->
  greedy_plus p k (run ++ rest) = Some a.
Proof.
  intros Hne Hrun Hrest Hk. induction Hrun as [|c run Hc Hrun IH]; [congruence|].
  cbn [app greedy_plus]. rewrite Hc.
  destruct run as [|c2 run].
  - cbn [app]. rewrite (greedy_plus_none p k rest Hrest). exact Hk.
  - rewrite IH; [reflexivity|discriminate].
Qed.

Lemma match_at_rendered_assignment (kv : str * str) (rest : str) :
  well_formed_assignment kv ->
  match rest with [] => True | c :: _ => c = nl end ->
  match_at env_re (render_assignment kv ++ rest) = Some ([fst kv; snd kv], rest).
Proof.
  intros [Hk [Hkc [Hv Hvc]]] Hrest. unfold match_at, env_re, render_assignment.
  cbn [rmatch]. rewrite <- !app_assoc.
  apply greedy_plus_run; [exact Hk|exact Hkc|reflexivity|].
  change (lit "=" ++ snd kv ++ rest) with (lit "=" ++ (snd kv ++ rest)).
  rewrite strip_prefix_app.
  apply greedy_plus_run; [exact Hv|exact Hvc| |].
  - destruct rest as [|c rest]; [exact I|]. subst c. reflexivity.
  - cbn [app].
    rewrite (firstn_split_length (fst kv) (lit "=" ++ snd kv ++ rest)).
    now rewrite (firstn_split_length (snd kv) rest).
Qed.

Lemma match_at_env_nl (x : str) : match_at env_re (nl :: x) = None.
Proof. reflexivity. Qed.

Lemma render_assignment_not_empty (kv : str * str) :
  well_formed_assignment kv -> render_assignment kv <> [].
Proof.
  intros [Hk _]. unfold render_assignment. destruct (fst kv); [congruence|discriminate].
Qed.

(** The assignments of a content, with or without a line feed after the
    last one. *)
Lemma findall_rendered_assignments (kvs : list (str * str)) (t : str) :
  Forall well_formed_assignment kvs ->
  t = [] \/ t = [nl] ->
  map group12 (findall env_re (render_assignments kvs ++ t)) = kvs.
Proof.
  unfold findall, render_assignments. intros H Ht.
  induction H as [|kv kvs Hkv Hrest IH].
  - destruct Ht as [->| ->]; reflexivity.
  - destruct kvs as [|kv2 kvs].
    + cbn [map join].
      rewrite findall_from_match with (caps := [fst kv; snd kv]).
      * cbn [map group12]. f_equal; [now destruct kv|exact IH].
      * now apply render_assignment_not_empty.
      * apply match_at_rendered_assignment; [exact Hkv|].
        destruct Ht as [->| ->]; [exact I|reflexivity].
    + change (join [nl] (map render_assignment (kv :: kv2 :: kvs)))
        with (render_assignment kv ++ [nl]
              ++ join [nl] (map render_assignment (kv2 :: kvs))).
      rewrite <- !app_assoc.
      rewrite findall_from_match with (caps := [fst kv; snd kv]).
      * cbn [map group12]. f_equal; [now destruct kv|]. cbn [app].
        rewrite findall_from_miss by apply match_at_env_nl. exact IH.
      * now apply render_assignment_not_empty.
      * now apply match_at_rendered_assignment.
Qed.

Section ConfigProofs.

Variable lower : str -> str.

(** X18. When the section of the environment configuration is a list of
    subsections whose contents are [KEY=value] lines, with a line feed or a
    blank line between the subsections, the routine appends one example per
    subsection that has an assignment, in order, and none for a subsection
    without: the example is built from the heading of the subsection and its
    assignments. *)
Theorem assignments_become_examples (doc : str) (blank : bool)
    (subs : list (str * list (str * str))) (exs : list example) :
  subs <> [] ->
  Forall well_formed_assignment_subsection subs ->
  _extract_section (lit "## Environment Configuration") doc
  = render_subsections blank (map assignment_subsection subs) ->
  _extract_environment_config lower doc exs
  = exs ++ flat_map (fun s => match snd s with
                              | [] => []
                              | _ => [config_example lower (fst s) (snd s)]
                              end) subs.
Proof.
  intros Hne Hwf Hsec. rewrite Forall_forall in Hwf.
  unfold _extract_environment_config. rewrite Hsec.
  rewrite render_subsections_not_empty by now destruct subs.
  rewrite subsections_rendered.
  - rewrite (fold_left_found
               (fun sub : str * str => map group12 (findall env_re (snd sub)))
               (fun sub found => config_example lower (fst sub) found)).
    f_equal. rewrite flat_map_padded.
    + rewrite flat_map_concat_map, map_map, <- flat_map_concat_map.
      apply flat_map_ext_in. intros s Hs. cbn [assignment_subsection fst snd].
      destruct (Hwf s Hs) as [_ Hb].
      rewrite <- (app_nil_r (render_assignments (snd s))).
      rewrite (@findall_rendered_assignments (snd s) [] Hb) by now left.
      reflexivity.
    + intros sub Hsub. apply in_map_iff in Hsub. destruct Hsub as [s [<- Hs]].
      cbn [assignment_subsection fst snd]. destruct (Hwf s Hs) as [_ Hb].
      pose proof (@findall_rendered_assignments (snd s) [] Hb (or_introl eq_refl)) as E0.
      rewrite app_nil_r in E0.
      rewrite (@findall_rendered_assignments (snd s) [nl] Hb) by (now right).
      now rewrite E0.
  - apply Forall_forall. intros sub Hsub. apply in_map_iff in Hsub.
    destruct Hsub as [s [<- Hs]]. apply (Hwf s Hs).
Qed.

End ConfigProofs.


Lemma assignments_become_examples_witness :
  map response (_extract_environment_config ascii_lower config_doc [])
  = [ lit "For Database, set these environment variables:" ++ [nl]
      ++ lit "DATABASE_URL=postgres://localhost:5433/app" ++ [nl]
      ++ lit "PGPORT=5433";
      lit "For Frontend, set these environment variables:" ++ [nl]
      ++ lit "API_URL=http://localhost:4000" ].
Proof.
  assert (Hne : config_subsections <> []) by discriminate.
  assert (Hwf : Forall well_formed_assignment_subsection config_subsections).
  { repeat constructor;
      try (apply not_occurs_by_search; reflexivity);
      try (apply no_final_line_feed; reflexivity);
      try discriminate;
      cbv; intuition discriminate. }
  rewrite (@assignments_become_examples ascii_lower config_doc true
             config_subsections [] Hne Hwf); reflexivity.
Defined.


(** ** Subsections looked up by their heading *)

Lemma split_at_first_heading (h pre s : str) :
  heading_first h pre -> split_at_first h (pre ++ h ++ s) = Some (pre, s).
Proof.
  intros Hfirst. apply split_at_first_complete; [reflexivity|].
  intros a' b' E.
  destruct (Nat.le_gt_cases (length pre) (length a')) as [Hle|Hlt]; [exact Hle|].
  exfalso. apply Hfirst.
  destruct (list_eq_dec N.eq_dec h []) as [->|Hh].
  { exists [], (pre ++ []). reflexivity. }
  set (X := pre ++ removelast h).
  assert (Hh1 : length h = length (removelast h) + 1).
  { rewrite (app_removelast_last 0%N Hh) at 1. now rewrite length_app. }
  assert (EX : pre ++ h ++ s = X ++ [last h 0%N] ++ s).
  { unfold X. rewrite <- app_assoc. f_equal. rewrite app_assoc. f_equal.
    now apply app_removelast_last. }
  assert (Hlen : length a' + length h <= length X).
  { unfold X. rewrite length_app. lia. }
  exists a', (skipn (length a' + length h) X).
  rewrite <- (firstn_skipn (length a' + length h) X) at 1.
  rewrite app_assoc. f_equal.
  transitivity (firstn (length a' + length h) (X ++ [last h 0%N] ++ s)).
  - rewrite firstn_app.
    replace (length a' + length h - length X) with 0 by lia.
    now rewrite firstn_O, app_nil_r.
  - rewrite <- EX, E, app_assoc, <- length_app, firstn_app, Nat.sub_diag.
    now rewrite firstn_all, firstn_O, app_nil_r.
Qed.

Lemma rstrip_fixed (s : str) :
  match rev s with
  | [] => True
  | c :: _ => isspace c = false
  end -> rstrip s = s.
Proof.
  intros H. unfold rstrip. rewrite (@lstrip_fixed (rev s) H). apply rev_involutive.
Qed.

Lemma strip_last (s : str) :
  strip s = s ->
  match rev s with
  | [] => True
  | c :: _ => isspace c = false
  end.
Proof.
  intros E. pose proof (lstrip_head (rev (lstrip s))) as H.
  replace (lstrip (rev (lstrip s))) with (rev s) in H; [exact H|].
  rewrite <- E at 1. unfold strip, rstrip. apply rev_involutive.
Qed.

(** Of a trimmed text, a final part has no white space at its end. *)
Lemma strip_suffix_trimmed (a b : str) :
  strip (a ++ b) = a ++ b -> strip b = lstrip b.
Proof.
  intros E. apply strip_last in E. unfold strip. apply rstrip_fixed.
  destruct (lstrip_suffix b) as [ws Hb].
  destruct (lstrip b) as [|c b'] eqn:Eb; [exact I|].
  rewrite Hb, !rev_app_distr, <- !app_assoc in E.
  destruct (rev (c :: b')) as [|x r] eqn:Er; [|exact E].
  apply (f_equal (@length _)) in Er. rewrite length_rev in Er. discriminate.
Qed.

Lemma match_at_bullet_other (c : char) (s : str) :
  c <> hyphen -> match_at bullet_re (c :: s) = None.
Proof.
  intros Hc. rewrite match_at_bullet.
  change (lit "- **") with (hyphen :: lit " **"). cbn [strip_prefix].
  destruct (N.eqb_spec hyphen c) as [E|_]; [congruence|reflexivity].
Qed.

Lemma findall_no_hyphen (h rest : str) :
  ~ In hyphen h ->
  findall_from bullet_re 0 (h ++ rest) = findall_from bullet_re 0 rest.
Proof.
  induction h as [|c h IH]; intros Hh; [reflexivity|].
  cbn [app]. rewrite findall_from_miss.
  - apply IH. intros H. apply Hh. now right.
  - apply match_at_bullet_other. intros ->. apply Hh. now left.
Qed.

Lemma lstrip_spaces (s : str) :
  exists ws, s = ws ++ lstrip s /\ ~ In hyphen ws.
Proof.
  induction s as [|c s [ws [IH Hws]]]; [now exists []|].
  cbn [lstrip]. destruct (isspace c) eqn:Ec.
  - exists (c :: ws). split; [cbn [app]; now rewrite <- IH|].
    intros [->|H]; [discriminate|contradiction].
  - now exists [].
Qed.

Lemma bullets_lstrip (s : str) : bullets (lstrip s) = bullets s.
Proof.
  destruct (lstrip_spaces s) as [ws [E Hws]]. unfold bullets, findall.
  rewrite E at 2. now rewrite (@findall_no_hyphen ws _ Hws).
Qed.

(** The bullets of a subsection looked up by its heading in a section body
    are the bullets of everything that follows the heading in the body. *)
Lemma nested_bullets (header doc sub pre tail : str) :
  _extract_section header doc = pre ++ sub ++ tail ->
  heading_first sub pre ->
  bullets (_extract_section sub (_extract_section header doc)) = bullets tail.
Proof.
  intros E Hfirst.
  rewrite (extract_section_eq sub), E, (@split_at_first_heading sub pre tail Hfirst).
  rewrite strip_until_stop_end.
  - rewrite (@strip_suffix_trimmed (pre ++ sub) tail).
    + apply bullets_lstrip.
    + rewrite <- app_assoc, <- E. apply extract_section_trimmed.
  - destruct (split_at_first top_heading tail) as [[a b]|] eqn:E2; [|reflexivity].
    exfalso. apply (extract_section_no_heading header doc).
    rewrite E. apply split_at_first_Some in E2. destruct E2 as [-> _].
    exists (pre ++ sub ++ a), b. now rewrite <- !app_assoc.
Qed.

Lemma append_bullets_if (f : str * str -> example) (s : str) (exs : list example) :
  (if is_empty s then exs else append_each f (bullets s) exs)
  = exs ++ map f (bullets s).
Proof.
  rewrite append_each_app. destruct s; [|reflexivity].
  cbn [is_empty]. now rewrite app_nil_r.
Qed.

Lemma no_char_by_search (c : char) (s : str) :
  forallb (fun x => negb (N.eqb x c)) s = true -> ~ In c s.
Proof.
  intros H Hin. rewrite forallb_forall in H. specialize (H c Hin).
  now rewrite N.eqb_refl in H.
Qed.

(** The bullets of a text made of a part without hyphen, then bullets, then
    a rest that a blank line or the end of input starts. *)
Lemma bullets_after (h : str) (items : list ((str * str) * bool)) (t : str) :
  ~ In hyphen h ->
  Forall (fun it => well_formed_bullet (fst it)) items ->
  bullet_stop t = true ->
  bullets (h ++ render_bullets items ++ t) = map fst items ++ bullets t.
Proof.
  intros Hh Hwf Ht. unfold bullets, findall.
  rewrite (@findall_no_hyphen h _ Hh), (@findall_rendered_bullets_then items t Hwf Ht).
  rewrite map_app, map_map. f_equal. apply map_ext. now intros [[n d] bl].
Qed.

Lemma bullets_under_heading (heading : str) (items : list ((str * str) * bool))
    (t : str) :
  ~ In hyphen heading ->
  Forall (fun it => well_formed_bullet (fst it)) items ->
  bullet_stop t = true ->
  bullets (bullets_under heading items ++ t) = map fst items ++ bullets t.
Proof.
  intros Hh Hwf Ht. unfold bullets_under.
  replace (([nl; nl] ++ heading ++ [nl] ++ render_bullets items) ++ t)
    with (([nl; nl] ++ heading ++ [nl]) ++ render_bullets items ++ t)
    by now rewrite <- !app_assoc.
  apply bullets_after; [|exact Hwf|exact Ht].
  intros H. apply in_app_or in H. destruct H as [H|H].
  - destruct H as [H|[H|[]]]; discriminate.
  - apply in_app_or in H. destruct H as [H|H]; [contradiction|].
    destruct H as [H|[]]. discriminate.
Qed.

Section NestedRoutines.

Variable lower : str -> str.

(** X19. When the body of the architecture section is some text without
    hyphen, the bullets of the field patterns, the subsection of the
    resolvers and the subsection of the rendering patterns, each after a
    blank line, the routine reads the field patterns from the whole body and
    each subsection from its heading to the end of the body: a bullet of the
    resolvers gives a field example and a resolver example, and a bullet of
    the rendering patterns gives a field example, a resolver example and a
    rendering example. *)
Theorem architecture_bullets_counted_again (doc intro : str)
    (fields resolvers ui : list ((str * str) * bool)) (exs : list example) :
  ~ In hyphen intro ->
  Forall (fun it => well_formed_bullet (fst it)) fields ->
  Forall (fun it => well_formed_bullet (fst it)) resolvers ->
  Forall (fun it => well_formed_bullet (fst it)) ui ->
  heading_first resolver_heading (intro ++ render_bullets fields ++ [nl; nl]) ->
  heading_first ui_heading
    (intro ++ render_bullets fields
     ++ bullets_under resolver_heading resolvers ++ [nl; nl]) ->
  _extract_section (lit "## Architecture Patterns Discovered") doc
  = patterns_body intro fields resolvers ui ->
  _extract_architecture_patterns lower doc exs
  = exs
    ++ map field_example (map fst fields ++ map fst resolvers ++ map fst ui)
    ++ map resolver_example (map fst resolvers ++ map fst ui)
    ++ map (ui_example lower) (map fst ui).
Proof.
  intros Hintro Hf Hr Hu H1 H2 Hsec.
  assert (Hnl : ~ In hyphen [nl]) by (intros [H|[]]; discriminate).
  assert (Hrh : ~ In hyphen resolver_heading)
    by (apply no_char_by_search; reflexivity).
  assert (Huh : ~ In hyphen ui_heading)
    by (apply no_char_by_search; reflexivity).
  assert (Eu : forall h, ~ In hyphen h ->
                         bullets (h ++ render_bullets ui) = map fst ui).
  { intros h Hh. rewrite <- (app_nil_r (render_bullets ui)).
    rewrite (@bullets_after h ui [] Hh Hu eq_refl). apply app_nil_r. }
  assert (Euu : bullets (bullets_under ui_heading ui) = map fst ui).
  { rewrite <- (app_nil_r (bullets_under ui_heading ui)).
    rewrite (@bullets_under_heading ui_heading ui [] Huh Hu eq_refl). apply app_nil_r. }
  unfold _extract_architecture_patterns. cbv zeta.
  rewrite !append_bullets_if, append_each_app.
  rewrite (@nested_bullets _ doc resolver_heading
             (intro ++ render_bullets fields ++ [nl; nl])
             ([nl] ++ render_bullets resolvers ++ bullets_under ui_heading ui));
    [|rewrite Hsec; unfold patterns_body, bullets_under;
      now rewrite <- !app_assoc|exact H1].
  rewrite (@nested_bullets _ doc ui_heading
             (intro ++ render_bullets fields
              ++ bullets_under resolver_heading resolvers ++ [nl; nl])
             ([nl] ++ render_bullets ui));
    [|rewrite Hsec; unfold patterns_body, bullets_under;
      now rewrite <- !app_assoc|exact H2].
  rewrite Hsec. unfold patterns_body.
  assert (He : is_empty (intro ++ render_bullets fields
                         ++ bullets_under resolver_heading resolvers
                         ++ bullets_under ui_heading ui) = false).
  { unfold bullets_under. destruct intro; [|reflexivity].
    destruct (render_bullets fields); reflexivity. }
  rewrite He.
  rewrite (@bullets_after intro fields
             (bullets_under resolver_heading resolvers ++ bullets_under ui_heading ui)
             Hintro Hf eq_refl).
  rewrite (@bullets_under_heading resolver_heading resolvers
             (bullets_under ui_heading ui) Hrh Hr eq_refl).
  rewrite Euu.
  rewrite (@bullets_after [nl] resolvers (bullets_under ui_heading ui)
             Hnl Hr eq_refl).
  rewrite Euu, (Eu [nl] Hnl).
  now rewrite <- !app_assoc.
Qed.

(** X20. When the body of the authentication section is some text, the
    subsection of the working credentials and, after a blank line, the
    subsection of the access requirements, the credentials are read from
    their heading to the end of the body: every bullet of the access
    requirements gives a credentials example and then a requirement
    example. *)
Theorem access_requirements_counted_as_credentials (doc intro : str)
    (credentials access : list ((str * str) * bool)) (exs : list example) :
  Forall (fun it => well_formed_bullet (fst it)) credentials ->
  Forall (fun it => well_formed_bullet (fst it)) access ->
  heading_first credentials_heading intro ->
  heading_first access_heading
    (intro ++ credentials_heading ++ [nl] ++ render_bullets credentials
     ++ [nl; nl]) ->
  _extract_section (lit "## Authentication Information") doc
  = authentication_body intro credentials access ->
  _extract_authentication_info doc exs
  = exs
    ++ map cred_example (map fst credentials ++ map fst access)
    ++ map requirement_example (map fst access).
Proof.
  intros Hc Ha H1 H2 Hsec.
  assert (Hnl : ~ In hyphen [nl]) by (intros [H|[]]; discriminate).
  assert (Hah : ~ In hyphen access_heading)
    by (apply no_char_by_search; reflexivity).
  unfold _extract_authentication_info. cbv zeta.
  rewrite !append_bullets_if.
  rewrite (@nested_bullets _ doc credentials_heading intro
             ([nl] ++ render_bullets credentials
              ++ bullets_under access_heading access));
    [|rewrite Hsec; reflexivity|exact H1].
  rewrite (@nested_bullets _ doc access_heading
             (intro ++ credentials_heading ++ [nl] ++ render_bullets credentials
              ++ [nl; nl])
             ([nl] ++ render_bullets access));
    [|rewrite Hsec; unfold authentication_body, bullets_under;
      now rewrite <- !app_assoc|exact H2].
  rewrite Hsec.
  assert (He : is_empty (authentication_body intro credentials access) = false).
  { unfold authentication_body, credentials_heading. now destruct intro. }
  rewrite He.
  rewrite (@bullets_after [nl] credentials (bullets_under access_heading access)
             Hnl Hc eq_refl).
  rewrite <- (app_nil_r (bullets_under access_heading access)).
  rewrite (@bullets_under_heading access_heading access [] Hah Ha eq_refl).
  rewrite <- (app_nil_r (render_bullets access)).
  rewrite (@bullets_after [nl] access [] Hnl Ha eq_refl).
  cbn [bullets findall findall_from]. rewrite !app_nil_r.
  now rewrite <- !app_assoc.
Qed.

End NestedRoutines.


Lemma architecture_bullets_counted_again_witness :
  map response (_extract_architecture_patterns ascii_lower architecture_doc [])
  = [ lit "The Estate Email Pattern: nullable, then unique";
      lit "The Field Resolvers: run before defaults";
      lit "The Empty State: show a placeholder";
      lit "Field Resolvers: run before defaults";
      lit "Empty State: show a placeholder";
      lit "For Empty State: show a placeholder" ].
Proof.
  rewrite (@architecture_bullets_counted_again ascii_lower architecture_doc
             (lit "### Field Implementation Patterns" ++ [nl])
             field_bullets resolver_bullets ui_bullets []).
  - reflexivity.
  - apply no_char_by_search. reflexivity.
  - repeat constructor; cbv; intuition discriminate.
  - repeat constructor; cbv; intuition discriminate.
  - repeat constructor; cbv; intuition discriminate.
  - apply not_occurs_by_search. reflexivity.
  - apply not_occurs_by_search. reflexivity.
  - reflexivity.
Defined.

Lemma access_requirements_counted_as_credentials_witness :
  map response (_extract_authentication_info credentials_doc [])
  = [ lit "Email: admin@example.com"; lit "Role: Admin"; lit "Role: Admin" ].
Proof.
  rewrite (@access_requirements_counted_as_credentials credentials_doc []
             [ ((lit "Email", lit "admin@example.com"), false) ]
             [ ((lit "Role", lit "Admin"), false) ] []).
  - reflexivity.
  - repeat constructor; cbv; intuition discriminate.
  - repeat constructor; cbv; intuition discriminate.
  - apply not_occurs_by_search. reflexivity.
  - apply not_occurs_by_search. reflexivity.
  - reflexivity.
Defined.


(** ** The field patterns of the architecture section *)

Section FieldPatterns.

Variable lower : str -> str.


End FieldPatterns.



(** Only at the end of the section is a bullet with an empty description
    left out: the section is stripped, its last line is then [- **b**:], and
    the pattern, which asks for a space after the colon, does not match
    it. *)
Lemma final_empty_description_unmatched :
  _extract_section (lit "## Architecture Patterns Discovered") final_empty_doc
  = lit "- **a**: x" ++ nl :: lit "- **b**:"
  /\ map response (_extract_architecture_patterns ascii_lower final_empty_doc [])
     = [ lit "The a: x" ].
Proof. split; reflexivity. Qed.
